(** * thriftpy/server.py: the three RPC servers and their connection pumps

    A shallow embedding of [src/thriftpy/server.py].  The collaborators
    (transport, factories, processor, threading, logging) are outside the
    file; their calls are observable events and their answers are read from
    a list of replies, so that every run of a method is a function of what
    the collaborators did. *)

From stdpp Require Import gmap strings list.
From Stdlib Require Import ZArith Lia.

Local Open Scope Z_scope.
Local Open Scope nat_scope.
Local Open Scope string_scope.
Local Open Scope list_scope.

(** ** Python values and exceptions *)

(** The objects that reach this module: [None], booleans, integers and
    opaque objects (processors, transports, factories, clients), which
    carry a name and the result of Python's truth test on them. *)
Inductive pyval :=
| PyNone
| PyBool (b : bool)
| PyInt (z : Z)
| PyObj (name : string) (truth : bool).

#[global] Instance pyval_eq_dec : EqDecision pyval.
Proof. solve_decision. Defined.

(** Python's truth test, as used by [or] and [not]. *)
Definition truthy (v : pyval) : bool :=
  match v with
  | PyNone => false
  | PyBool b => b
  | PyInt z => negb (Z.eqb z 0)
  | PyObj _ t => t
  end.

(** [a or b] *)
Definition py_or (a b : pyval) : pyval := if truthy a then a else b.

(** What can be raised.  [TTransportException], [TypeError],
    [RuntimeError] and [OtherException] are instances of [Exception];
    [KeyboardInterrupt] and [SystemExit] derive from [BaseException]
    only. *)
Inductive exc :=
| TTransportException
| TypeError
| RuntimeError
| OtherException (tag : nat)
| KeyboardInterrupt
| SystemExit.

#[global] Instance exc_eq_dec : EqDecision exc.
Proof. solve_decision. Defined.

(** [isinstance(e, Exception)] *)
Definition isinstance_Exception (e : exc) : bool :=
  match e with
  | KeyboardInterrupt | SystemExit => false
  | _ => true
  end.

(** [isinstance(e, TTransportException)] *)
Definition isinstance_TTransportException (e : exc) : bool :=
  match e with TTransportException => true | _ => false end.

(** [isinstance(e, KeyboardInterrupt)] *)
Definition isinstance_KeyboardInterrupt (e : exc) : bool :=
  match e with KeyboardInterrupt => true | _ => false end.

(** ** The server object *)

(** The attributes of a server.  [TServer.__init__] sets the first six;
    [closed] is set by every subclass, [daemon] by the threaded and pool
    servers, [clients] and [threads] by the pool server only. *)
Record TServer := mkTServer {
  processor : pyval;
  trans : pyval;
  itrans_factory : pyval;
  iprot_factory : pyval;
  otrans_factory : pyval;
  oprot_factory : pyval;
  closed : bool;
  daemon : pyval;
  clients : list pyval;
  threads : Z
}.

#[global] Instance TServer_eq_dec : EqDecision TServer.
Proof. solve_decision. Defined.

(** The part of a server that [TServer.__init__] builds. *)
Definition config (s : TServer) : pyval * pyval * (pyval * pyval) * (pyval * pyval) :=
  (processor s, trans s, (itrans_factory s, iprot_factory s),
   (otrans_factory s, oprot_factory s)).

Definition set_closed (b : bool) (s : TServer) : TServer :=
  mkTServer (processor s) (trans s) (itrans_factory s) (iprot_factory s)
            (otrans_factory s) (oprot_factory s) b (daemon s) (clients s)
            (threads s).

Definition set_daemon (d : pyval) (s : TServer) : TServer :=
  mkTServer (processor s) (trans s) (itrans_factory s) (iprot_factory s)
            (otrans_factory s) (oprot_factory s) (closed s) d (clients s)
            (threads s).

Definition set_clients (q : list pyval) (s : TServer) : TServer :=
  mkTServer (processor s) (trans s) (itrans_factory s) (iprot_factory s)
            (otrans_factory s) (oprot_factory s) (closed s) (daemon s) q
            (threads s).

Definition set_threads (n : Z) (s : TServer) : TServer :=
  mkTServer (processor s) (trans s) (itrans_factory s) (iprot_factory s)
            (otrans_factory s) (oprot_factory s) (closed s) (daemon s)
            (clients s) n.

(** ** Construction *)

(** The two default factories, imported from [thriftpy.transport] and
    [thriftpy.protocol]. *)
Definition TBufferedTransportFactory : pyval :=
  PyObj "TBufferedTransportFactory()" true.
Definition TBinaryProtocolFactory : pyval :=
  PyObj "TBinaryProtocolFactory()" true.

(** Body of [TServer.__init__] once its parameters are bound. *)
Definition TServer_init_body
    (processor trans itrans_factory iprot_factory otrans_factory
       oprot_factory : pyval) : TServer :=
  let itf := py_or itrans_factory TBufferedTransportFactory in
  let ipf := py_or iprot_factory TBinaryProtocolFactory in
  {| processor := processor;
     trans := trans;
     itrans_factory := itf;
     iprot_factory := ipf;
     otrans_factory := py_or otrans_factory itf;
     oprot_factory := py_or oprot_factory ipf;
     closed := false;
     daemon := PyBool false;
     clients := [];
     threads := 0%Z |}.

(** Python's binding of a call [f(args..., kwargs...)] to the parameter
    list of [TServer.__init__] (after [self]). *)
Definition TServer_params : list (string * option pyval) :=
  [ ("processor", None); ("trans", None);
    ("itrans_factory", Some PyNone); ("iprot_factory", Some PyNone);
    ("otrans_factory", Some PyNone); ("oprot_factory", Some PyNone) ].

Definition param_index (name : string) : option nat :=
  fst <$> list_find (λ p, p.1 = name) TServer_params.

(** A keyword is accepted when it names a parameter that no positional
    argument has filled. *)
Definition keyword_ok (nargs : nat) (name : string) : bool :=
  match param_index name with
  | Some i => bool_decide (nargs <= i)
  | None => false
  end.

Definition bind_param (args : list pyval) (kwargs : gmap string pyval)
    (i : nat) : option pyval :=
  match args !! i with
  | Some v => Some v
  | None =>
      match TServer_params !! i with
      | Some (name, default) =>
          match kwargs !! name with
          | Some v => Some v
          | None => default
          end
      | None => None
      end
  end.

(** [TServer.__init__(self, *args, kwargs...)]: [inl TypeError] when the
    call does not bind. *)
Definition TServer_init (args : list pyval) (kwargs : gmap string pyval)
    : exc + TServer :=
  if negb (bool_decide (length args <= 6)) then inl TypeError
  else if negb (forallb (keyword_ok (length args)) (map_to_list kwargs).*1)
  then inl TypeError
  else
    match bind_param args kwargs 0, bind_param args kwargs 1,
          bind_param args kwargs 2, bind_param args kwargs 3,
          bind_param args kwargs 4, bind_param args kwargs 5 with
    | Some p, Some t, Some itf, Some ipf, Some otf, Some opf =>
        inr (TServer_init_body p t itf ipf otf opf)
    | _, _, _, _, _, _ => inl TypeError
    end.

(** [TSimpleServer.__init__(self, *args)]: the signature has no
    [kwargs...], so a call with keywords does not bind. *)
Definition TSimpleServer_init (args : list pyval) (kwargs : gmap string pyval)
    : exc + TServer :=
  if negb (bool_decide (kwargs = ∅)) then inl TypeError
  else
    match TServer_init args ∅ with
    | inl e => inl e
    | inr s => inr (set_closed false s)
    end.

(** [TThreadedServer.__init__(self, *args, kwargs...)].  A keyword
    named [self] clashes with the first parameter, so that Python
    raises [TypeError] before the body runs; here [TServer_init], which
    knows no parameter of that name, refuses it to the same effect. *)
Definition TThreadedServer_init (args : list pyval)
    (kwargs : gmap string pyval) : exc + TServer :=
  let daemon := default (PyBool false) (kwargs !! "daemon") in
  let kwargs := delete "daemon" kwargs in
  match TServer_init args kwargs with
  | inl e => inl e
  | inr s => inr (set_closed false (set_daemon daemon s))
  end.

(** [TThreadPoolServer.__init__(self, *args, kwargs...)].  A keyword
    named [self] clashes with the first parameter: the call does not
    bind and Python raises [TypeError] before the body runs.  Every
    other keyword is collected in [kwargs]. *)
Definition TThreadPoolServer_init (args : list pyval)
    (kwargs : gmap string pyval) : exc + TServer :=
  if negb (bool_decide (kwargs !! "self" = None)) then inl TypeError
  else
    match TServer_init args ∅ with
    | inl e => inl e
    | inr s =>
        let s := set_clients [] s in
        let s := set_threads 10%Z s in
        let s := set_daemon (default (PyBool false) (kwargs !! "daemon")) s in
        inr (set_closed false s)
    end.

(** [TThreadPoolServer.setNumThreads(self, num)] *)
Definition TThreadPoolServer_setNumThreads (num : Z) (s : TServer) : TServer :=
  set_threads num s.

(** ** Runs: events, replies and the monad of methods *)

Inductive side := Input | Output.

#[global] Instance side_eq_dec : EqDecision side.
Proof. solve_decision. Defined.

(** A wrapped transport (or the protocol built on it) is named by the
    side it was made for and the client it wraps. *)
Definition stream : Type := side * pyval.

(** What a new thread runs. *)
Inductive target := Handle (client : pyval) | ServeThread.

#[global] Instance target_eq_dec : EqDecision target.
Proof. solve_decision. Defined.

(** The calls a server makes on its collaborators, in program order.
    [ThreadStart] is the creation and start of a thread (the call may
    fail); [ThreadRunning] records that [start()] returned.
    [CloseCalled] records that the server's [close()] ran while the
    preceding call was in progress. *)
Inductive event :=
| Listen (t : pyval)
| Accept (t : pyval)
| GetTransport (factory : pyval) (sd : side) (client : pyval)
| GetProtocol (factory : pyval) (tr : stream)
| Process (proc : pyval) (iprot oprot : stream)
| Close (tr : stream)
| Log (x : exc)
| ThreadStart (tg : target) (daemon : pyval)
| ThreadRunning (tg : target)
| QueuePut (client : pyval)
| QueueGet (client : pyval)
| CloseCalled.

#[global] Instance event_eq_dec : EqDecision event.
Proof. solve_decision. Defined.

(** How a collaborator answers one call: it returns or raises, and the
    server's [close()] may have been called meanwhile (by the callee or
    by another thread). *)
Inductive outcome := Returns (v : pyval) | Raises (e : exc).

Record reply := Reply { outcome_of : outcome; close_during : bool }.

(** A method either returns, raises, or is still running when the
    observed replies end. *)
Inductive result (A : Type) :=
| Done (a : A)
| Raised (e : exc)
| Blocked.
Arguments Done {A} a.
Arguments Raised {A} e.
Arguments Blocked {A}.

Record run (A : Type) := Run {
  res : result A;
  srv : TServer;
  rest : list reply;
  out : list event
}.
Arguments Run {A} res srv rest out.
Arguments res {A} r.
Arguments srv {A} r.
Arguments rest {A} r.
Arguments out {A} r.

Definition M (A : Type) : Type := TServer -> list reply -> run A.

Definition ret {A} (a : A) : M A := fun s rs => Run (Done a) s rs [].

Definition raise {A} (e : exc) : M A := fun s rs => Run (Raised e) s rs [].

Definition bind {A B} (m : M A) (k : A -> M B) : M B := fun s rs =>
  let r := m s rs in
  match res r with
  | Done a =>
      let r' := k a (srv r) (rest r) in
      Run (res r') (srv r') (rest r') (out r ++ out r')
  | Raised e => Run (Raised e) (srv r) (rest r) (out r)
  | Blocked => Run Blocked (srv r) (rest r) (out r)
  end.

Declare Scope server_scope.
Delimit Scope server_scope with server.
Notation "x ← y ; z" := (bind y (fun x => z))
  (at level 20, y at level 100, z at level 200, only parsing) : server_scope.
Notation "x ;; z" := (bind x (fun _ => z))
  (at level 100, z at level 200, only parsing, right associativity)
  : server_scope.
Local Open Scope server_scope.

(** Read an attribute of [self]. *)
Definition attr {A} (f : TServer -> A) : M A := fun s rs => Run (Done (f s)) s rs [].

Definition emit (ev : event) : M unit := fun s rs => Run (Done tt) s rs [ev].

(** The three [close] methods have the same body, [self.closed = True]. *)
Definition TSimpleServer_close : M unit :=
  fun s rs => Run (Done tt) (set_closed true s) rs [].
Definition TThreadedServer_close : M unit :=
  fun s rs => Run (Done tt) (set_closed true s) rs [].
Definition TThreadPoolServer_close : M unit :=
  fun s rs => Run (Done tt) (set_closed true s) rs [].

(** The server after a call answered by [r], and what the call left in
    the trace. *)
Definition answered (r : reply) (s : TServer) : TServer :=
  if close_during r then set_closed true s else s.

Definition seen (ev : event) (r : reply) : list event :=
  if close_during r then [ev; CloseCalled] else [ev].

(** One call on a collaborator.  The call is entered ([ev]); with no
    reply left it has not returned yet.  A [close()] that ran during the
    call has set the flag by the time the call returns or raises. *)
Definition call (ev : event) : M pyval := fun s rs =>
  match rs with
  | [] => Run Blocked s [] [ev]
  | r :: rs' =>
      match outcome_of r with
      | Returns v => Run (Done v) (answered r s) rs' (seen ev r)
      | Raises e => Run (Raised e) (answered r s) rs' (seen ev r)
      end
  end.

(** [try: body  except ...: ...]: [handlers x] is the body of the first
    [except] clause that matches [x], if any. *)
Definition try_except {A} (body : M A) (handlers : exc -> option (M A)) : M A :=
  fun s rs =>
    let r := body s rs in
    match res r with
    | Raised x =>
        match handlers x with
        | Some h =>
            let r' := h (srv r) (rest r) in
            Run (res r') (srv r') (rest r') (out r ++ out r')
        | None => r
        end
    | _ => r
    end.

(** Loops.  The body says whether the loop goes round again ([Next],
    also the effect of [continue]) or ends ([Break]).  [fuel] bounds the
    number of iterations observed. *)
Inductive ctl := Next | Break.

Fixpoint loop (fuel : nat) (body : M ctl) : M unit :=
  match fuel with
  | O => fun s rs => Run Blocked s rs []
  | S n => c ← body; match c with Next => loop n body | Break => ret tt end
  end.

(** [while cond: body] *)
Definition while_ (fuel : nat) (cond : TServer -> bool) (body : M unit) : M unit :=
  loop fuel (c ← attr cond; if c then (body;; ret Next) else ret Break).

(** Every iteration of the loops below makes at least one call, so one
    unit of fuel per pending reply, and one more, lets a loop run until
    the replies end. *)
Definition enough_fuel {A} (f : nat -> M A) : M A :=
  fun s rs => f (S (length rs)) s rs.

(** ** Collaborator calls *)

(** [self.trans.listen()] and [self.trans.accept()] *)
Definition trans_listen : M unit := t ← attr trans; call (Listen t);; ret tt.
Definition trans_accept : M pyval := t ← attr trans; call (Accept t).

(** [factory.get_transport(client)] *)
Definition get_transport (factory : TServer -> pyval) (sd : side)
    (client : pyval) : M stream :=
  f ← attr factory; call (GetTransport f sd client);; ret (sd, client).

(** [factory.get_protocol(trans)] *)
Definition get_protocol (factory : TServer -> pyval) (tr : stream) : M stream :=
  f ← attr factory; call (GetProtocol f tr);; ret tr.

(** [self.processor.process(iprot, oprot)] *)
Definition processor_process (iprot oprot : stream) : M unit :=
  p ← attr processor; call (Process p iprot oprot);; ret tt.

(** [trans.close()] *)
Definition transport_close (tr : stream) : M unit := call (Close tr);; ret tt.

(** [logger.exception(x)] *)
Definition logger_exception (x : exc) : M unit := emit (Log x).

(** [t = threading.Thread(target=...); t.setDaemon(self.daemon); t.start()] *)
Definition start_thread (tg : target) : M unit :=
  d ← attr daemon; call (ThreadStart tg d);; emit (ThreadRunning tg).

(** [self.clients.put(client)]: the queue is unbounded. *)
Definition clients_put (client : pyval) : M unit := fun s rs =>
  Run (Done tt) (set_clients (clients s ++ [client]) s) rs [QueuePut client].

(** [self.clients.get()]: waits while the queue is empty. *)
Definition clients_get : M pyval := fun s rs =>
  match clients s with
  | [] => Run Blocked s rs []
  | c :: q => Run (Done c) (set_clients q s) rs [QueueGet c]
  end.

(** ** The servers *)

(** The [except] clauses of the three pumps:
    [except TTransportException: pass] then
    [except Exception as x: logger.exception(x)]. *)
Definition pump_handlers (x : exc) : option (M unit) :=
  if isinstance_TTransportException x then Some (ret tt)
  else if isinstance_Exception x then Some (logger_exception x)
  else None.

(** [except Exception as x: logger.exception(x)], in a loop body that
    then goes round again, and in a plain statement. *)
Definition log_handlers (x : exc) : option (M ctl) :=
  if isinstance_Exception x then Some (logger_exception x;; ret Next)
  else None.

Definition log_unit_handlers (x : exc) : option (M unit) :=
  if isinstance_Exception x then Some (logger_exception x)
  else None.

(** [except KeyboardInterrupt: raise] then
    [except Exception as x: logger.exception(x)] *)
Definition accept_handlers (x : exc) : option (M unit) :=
  if isinstance_KeyboardInterrupt x then Some (raise x)
  else if isinstance_Exception x then Some (logger_exception x)
  else None.

(** *** TSimpleServer *)

(** The [try] statement of the accept loop of [TSimpleServer.serve]. *)
Definition TSimpleServer_pump_try (iprot oprot : stream) : M unit :=
  try_except
    (enough_fuel (fun n =>
       while_ n (fun self => negb (closed self))
         (processor_process iprot oprot)))
    pump_handlers.

(** The body of the accept loop of [TSimpleServer.serve] once a client
    is accepted: wrap, pump, close. *)
Definition TSimpleServer_pump (client : pyval) : M unit :=
  itrans ← get_transport itrans_factory Input client;
  otrans ← get_transport otrans_factory Output client;
  iprot ← get_protocol iprot_factory itrans;
  oprot ← get_protocol oprot_factory otrans;
  TSimpleServer_pump_try iprot oprot;;
  transport_close itrans;;
  transport_close otrans.

Definition TSimpleServer_serve_loop (fuel : nat) : M unit :=
  while_ fuel (fun self => negb (closed self))
    (client ← trans_accept; TSimpleServer_pump client).

Definition TSimpleServer_serve : M unit :=
  trans_listen;; enough_fuel TSimpleServer_serve_loop.

(** *** TThreadedServer *)

(** The [try] statement of [TThreadedServer.handle]. *)
Definition TThreadedServer_handle_try (iprot oprot : stream) : M unit :=
  try_except
    (enough_fuel (fun n =>
       while_ n (fun _ => true) (processor_process iprot oprot)))
    pump_handlers.

Definition TThreadedServer_handle (client : pyval) : M unit :=
  itrans ← get_transport itrans_factory Input client;
  otrans ← get_transport otrans_factory Output client;
  iprot ← get_protocol iprot_factory itrans;
  oprot ← get_protocol oprot_factory otrans;
  TThreadedServer_handle_try iprot oprot;;
  transport_close itrans;;
  transport_close otrans.

Definition TThreadedServer_serve_loop (fuel : nat) : M unit :=
  while_ fuel (fun self => negb (closed self))
    (try_except
       (client ← trans_accept;
        start_thread (Handle client))
       accept_handlers).

Definition TThreadedServer_serve : M unit :=
  trans_listen;; enough_fuel TThreadedServer_serve_loop.

(** *** TThreadPoolServer *)

(** The [try] statement of [TThreadPoolServer.serveClient]. *)
Definition TThreadPoolServer_serveClient_try (iprot oprot : stream) : M unit :=
  try_except
    (enough_fuel (fun n =>
       loop n
         (c ← attr closed;
          if c then ret Break
          else processor_process iprot oprot;; ret Next)))
    pump_handlers.

Definition TThreadPoolServer_serveClient (client : pyval) : M unit :=
  itrans ← get_transport itrans_factory Input client;
  otrans ← get_transport otrans_factory Output client;
  iprot ← get_protocol iprot_factory itrans;
  oprot ← get_protocol oprot_factory otrans;
  TThreadPoolServer_serveClient_try iprot oprot;;
  transport_close itrans;;
  transport_close otrans.

Definition TThreadPoolServer_serveThread_loop (fuel : nat) : M unit :=
  loop fuel
    (c ← attr closed;
     if c then ret Break
     else
       try_except
         (client ← clients_get;
          TThreadPoolServer_serveClient client;;
          ret Next)
         log_handlers).

Definition TThreadPoolServer_serveThread : M unit :=
  enough_fuel TThreadPoolServer_serveThread_loop.

(** [for i in range(n): try: start a worker  except Exception: log] *)
Fixpoint TThreadPoolServer_start_workers (n : nat) : M unit :=
  match n with
  | O => ret tt
  | S n' =>
      try_except (start_thread ServeThread) log_unit_handlers;;
      TThreadPoolServer_start_workers n'
  end.

Definition TThreadPoolServer_accept_loop (fuel : nat) : M unit :=
  loop fuel
    (c ← attr closed;
     if c then ret Break
     else
       try_except
         (client ← trans_accept;
          if negb (truthy client) then ret Next
          else clients_put client;; ret Next)
         log_handlers).

Definition TThreadPoolServer_serve : M unit :=
  n ← attr threads;
  TThreadPoolServer_start_workers (Z.to_nat n);;
  trans_listen;;
  enough_fuel TThreadPoolServer_accept_loop.

(** *** The three pumps side by side *)

Inductive variant := Simple | Threaded | Pool.

Definition pump (v : variant) : pyval -> M unit :=
  match v with
  | Simple => TSimpleServer_pump
  | Threaded => TThreadedServer_handle
  | Pool => TThreadPoolServer_serveClient
  end.

Definition pump_try (v : variant) : stream -> stream -> M unit :=
  match v with
  | Simple => TSimpleServer_pump_try
  | Threaded => TThreadedServer_handle_try
  | Pool => TThreadPoolServer_serveClient_try
  end.

(** Whether the pump loop of a variant reads [self.closed]. *)
Definition checks_flag (v : variant) : bool :=
  match v with Threaded => false | _ => true end.

(** ** Reading runs *)

(** A run with more events in front. *)
Definition prepend {A} (evs : list event) (r : run A) : run A :=
  Run (res r) (srv r) (rest r) (evs ++ out r).

Definition returns (r : reply) : bool :=
  match outcome_of r with Returns _ => true | Raises _ => false end.

(** Number of times [ev] occurs in a trace. *)
Definition occurrences (ev : event) (tr : list event) : nat :=
  length (filter (λ e, e = ev) tr).

Definition is_Log (ev : event) : bool :=
  match ev with Log _ => true | _ => false end.

Definition is_Process (ev : event) : bool :=
  match ev with Process _ _ _ => true | _ => false end.

Definition is_Accept (ev : event) : bool :=
  match ev with Accept _ => true | _ => false end.

Definition is_Close (ev : event) : bool :=
  match ev with Close _ => true | _ => false end.



(** The events of a trace that satisfy [p], and the trace without the
    [CloseCalled] marks. *)
Definition events_of (p : event -> bool) (tr : list event) : list event :=
  filter (λ e, p e = true) tr.

Definition calls (tr : list event) : list event :=
  filter (λ e, e ≠ CloseCalled) tr.

(** ** How a pump loop ends *)

(** The ways a pump loop can end, in the words of the design: the stop
    flag is observed, the transport disconnects, the processor fails, a
    raised object that is no [Exception] escapes; or the loop is still
    pumping when the replies end. *)
Inductive pump_end :=
| Stopped
| Disconnected
| Failed (x : exc)
| Escaped (x : exc)
| Pumping.

(** The end of a loop that starts with flag [cl] and gets the replies
    [rs] to its [process] calls, with the number of calls answered. *)
Fixpoint pump_exit (checks cl : bool) (rs : list reply) : nat * pump_end :=
  if checks && cl then (0, Stopped)
  else
    match rs with
    | [] => (0, Pumping)
    | r :: rs' =>
        match outcome_of r with
        | Returns _ =>
            let ne := pump_exit checks (cl || close_during r) rs' in
            (S (fst ne), snd ne)
        | Raises x =>
            (1, if isinstance_TTransportException x then Disconnected
                else if isinstance_Exception x then Failed x
                else Escaped x)
        end
    end.

(** The server after the calls answered by [rs]. *)
Fixpoint after (rs : list reply) (s : TServer) : TServer :=
  match rs with
  | [] => s
  | r :: rs' => after rs' (answered r s)
  end.

(** The trace of the call [ev] repeated once per reply. *)
Fixpoint repeated (ev : event) (rs : list reply) : list event :=
  match rs with
  | [] => []
  | r :: rs' => seen ev r ++ repeated ev rs'
  end.

Definition end_result (e : pump_end) : result unit :=
  match e with
  | Escaped x => Raised x
  | Pumping => Blocked
  | _ => Done tt
  end.

Definition end_events (ev : event) (e : pump_end) : list event :=
  match e with
  | Failed x => [Log x]
  | Pumping => [ev]
  | _ => []
  end.

(** The four wrapping calls of a pump. *)
Definition wrap_events (s : TServer) (c : pyval) (w1 w2 w3 w4 : reply)
    : list event :=
  seen (GetTransport (itrans_factory s) Input c) w1
  ++ seen (GetTransport (otrans_factory s) Output c) w2
  ++ seen (GetProtocol (iprot_factory s) (Input, c)) w3
  ++ seen (GetProtocol (oprot_factory s) (Output, c)) w4.

(** The two closing calls of a pump. *)
Definition close_both (c : pyval) : M unit :=
  transport_close (Input, c);; transport_close (Output, c).

(** The loop ended in one of the three ways the design names. *)
Definition normal_end (e : pump_end) : bool :=
  match e with
  | Stopped | Disconnected | Failed _ => true
  | Escaped _ | Pumping => false
  end.

(** ** Sample values *)

Definition sample_processor : pyval := PyObj "processor" true.
Definition sample_socket : pyval := PyObj "server_socket" true.
Definition sample_client : pyval := PyObj "client" true.

Definition sample_server : TServer :=
  TServer_init_body sample_processor sample_socket PyNone PyNone PyNone PyNone.

(** Replies: a plain return, a return during which [close()] ran, the
    return of a value, a raise. *)
Definition ok : reply := Reply (Returns PyNone) false.
Definition ok_closing : reply := Reply (Returns PyNone) true.
Definition gives (v : pyval) : reply := Reply (Returns v) false.
Definition raising (x : exc) : reply := Reply (Raises x) false.

(** What the specification asks of one run of a pump: each
    transport closed exactly once and nothing raised out of the pump. *)
Definition closes_both_once_quietly (c : pyval) (r : run unit) : Prop :=
  occurrences (Close (Input, c)) (out r) = 1 /\
  occurrences (Close (Output, c)) (out r) = 1 /\
  forall x, res r <> Raised x.

(** What the specification asks of a pump whose processor raised
    [x]: the failure is logged and is not raised out of the pump. *)
Definition failure_contained (x : exc) (r : run unit) : Prop :=
  In (Log x) (out r) /\ res r <> Raised x.

(** ** The methods of the module, as one family *)

(** [TServer.serve] and [TServer.close] are [pass]. *)
Definition TServer_serve : M unit := ret tt.
Definition TServer_close : M unit := ret tt.

Inductive method :=
| BaseServe
| BaseClose
| SimpleServe
| SimpleClose
| ThreadedServe
| ThreadedHandle (client : pyval)
| ThreadedClose
| PoolSetNumThreads (num : Z)
| PoolServeThread
| PoolServeClient (client : pyval)
| PoolServe
| PoolClose.

Definition perform (m : method) : M unit :=
  match m with
  | BaseServe => TServer_serve
  | BaseClose => TServer_close
  | SimpleServe => TSimpleServer_serve
  | SimpleClose => TSimpleServer_close
  | ThreadedServe => TThreadedServer_serve
  | ThreadedHandle client => TThreadedServer_handle client
  | ThreadedClose => TThreadedServer_close
  | PoolSetNumThreads num =>
      fun s rs => Run (Done tt) (TThreadPoolServer_setNumThreads num s) rs []
  | PoolServeThread => TThreadPoolServer_serveThread
  | PoolServeClient client => TThreadPoolServer_serveClient client
  | PoolServe => TThreadPoolServer_serve
  | PoolClose => TThreadPoolServer_close
  end.

(** ** Invariants of runs *)

(** [m] keeps the relation [R] between the server before and after,
    and emits only events that satisfy [P]. *)
Definition keeps (R : TServer -> TServer -> Prop) (P : event -> Prop)
    {A} (m : M A) : Prop :=
  forall s rs, R s (srv (m s rs)) /\ Forall P (out (m s rs)).

(** [s'] is [s] later in a run: the configuration is the same and a
    flag that was set is still set. *)
Definition later (s s' : TServer) : Prop :=
  config s' = config s /\ (closed s = true -> closed s' = true).

(** The [close] method of each variant, and a method called [n] times in
    a row. *)
Definition server_close (v : variant) : M unit :=
  match v with
  | Simple => TSimpleServer_close
  | Threaded => TThreadedServer_close
  | Pool => TThreadPoolServer_close
  end.

Fixpoint times (n : nat) (m : M unit) : M unit :=
  match n with
  | O => ret tt
  | S n' => bind m (fun _ => times n' m)
  end.

(** ** Starting the workers of the pool *)

(** The start of a thread returned, or raised an [Exception]: the loop
    of [TThreadPoolServer.serve] goes on to the next start. *)
Definition start_survived (r : reply) : bool :=
  match outcome_of r with
  | Returns _ => true
  | Raises x => isinstance_Exception x
  end.

(** The trace of the starting loop on the replies to its starts. *)
Fixpoint start_events (d : pyval) (starts : list reply) : list event :=
  match starts with
  | [] => []
  | r :: starts' =>
      seen (ThreadStart ServeThread d) r
      ++ match outcome_of r with
         | Returns _ => [ThreadRunning ServeThread]
         | Raises x => [Log x]
         end
      ++ start_events d starts'
  end.





(** ** The accept loops *)

(** What the specification asks of the accept loop of
    [TThreadedServer] when [x] is raised in it: unless [x] is
    [KeyboardInterrupt] it is logged and not raised out of [serve]. *)
Definition survives_accept_failure (x : exc) (r : run unit) : Prop :=
  x <> KeyboardInterrupt -> In (Log x) (out r) /\ res r <> Raised x.

(** A client that may enter the queue of the pool. *)
Definition queueable (c : pyval) : Prop := truthy c = true /\ c <> PyNone.

(** An event that puts nothing but such a client on the queue. *)
Definition puts_client_only (ev : event) : Prop :=
  forall c, ev = QueuePut c -> queueable c.

(** The queue holds nothing but such clients, if it did before. *)
Definition queue_kept_clean (s s' : TServer) : Prop :=
  Forall queueable (clients s) -> Forall queueable (clients s').

(** ** Runs that do not depend on the flag *)

(** Two servers that differ at most in [closed]; two lists of replies
    that differ at most in whether [close()] ran meanwhile. *)
Definition alike (s s' : TServer) : Prop :=
  set_closed false s = set_closed false s'.

Definition same_answers (rs rs' : list reply) : Prop :=
  outcome_of <$> rs = outcome_of <$> rs'.

(** [m] does the same whatever the flag is and whenever [close()] is
    called: same result, same calls on the collaborators, same replies
    left. *)
Definition flag_blind {A} (m : M A) : Prop :=
  forall s s' rs rs', alike s s' -> same_answers rs rs' ->
    res (m s rs) = res (m s' rs') /\
    calls (out (m s rs)) = calls (out (m s' rs')) /\
    alike (srv (m s rs)) (srv (m s' rs')) /\
    same_answers (rest (m s rs)) (rest (m s' rs')).

(** ** Traces and the stop flag *)

Definition is_mark (ev : event) : bool :=
  match ev with CloseCalled => true | _ => false end.

(** A call that takes up new work: an accept or a processor call. *)
Definition serves (ev : event) : bool := is_Accept ev || is_Process ev.

Definition marked (tr : list event) : bool := existsb is_mark tr.

(** [calm cl tr]: no accept and no processor call is entered in [tr]
    once the flag is set, where [cl] is the flag at the start and a
    [CloseCalled] mark sets it. *)
Fixpoint calm (cl : bool) (tr : list event) : bool :=
  match tr with
  | [] => true
  | ev :: tr' =>
      (if cl then negb (serves ev) else true) && calm (cl || is_mark ev) tr'
  end.

(** Started on [s], [m] enters no accept and no processor call once the
    flag is set, and the flag afterwards is set exactly when it was
    before or [close()] was called during a call. *)
Definition heeds_from (s : TServer) {A} (m : M A) : Prop :=
  forall rs,
    calm (closed s) (out (m s rs)) = true /\
    closed (srv (m s rs)) = closed s || marked (out (m s rs)).

Definition heeds {A} (m : M A) : Prop := forall s, heeds_from s m.

(** ** Listening before accepting *)

Definition is_Listen (ev : event) : bool :=
  match ev with Listen _ => true | _ => false end.

(** Among the [listen()] and [accept()] calls of a trace, the first is
    a [listen()] and all the others are [accept()]s. *)
Definition listens_first (tr : list event) : Prop :=
  match events_of (fun ev => is_Listen ev || is_Accept ev) tr with
  | [] => True
  | ev :: tl => is_Listen ev = true /\ Forall (fun e => is_Accept e = true) tl
  end.

(** ** The queue of the pool *)

(** The clients put on the queue and taken from it, read off a trace. *)
Definition put_of (ev : event) : option pyval :=
  match ev with QueuePut c => Some c | _ => None end.

Definition got_of (ev : event) : option pyval :=
  match ev with QueueGet c => Some c | _ => None end.

Definition puts (tr : list event) : list pyval := omap put_of tr.
Definition gets (tr : list event) : list pyval := omap got_of tr.

(** First in, first out: the clients [m] took, followed by those still
    queued, are the clients queued before followed by those [m] put. *)
Definition fifo {A} (m : M A) : Prop :=
  forall s rs,
    gets (out (m s rs)) ++ clients (srv (m s rs))
    = clients s ++ puts (out (m s rs)).

(** The accept results, among the replies [rs], that pass the test
    [if not client: continue]. *)
Definition passes (r : reply) : option pyval :=
  match outcome_of r with
  | Returns v => if truthy v then Some v else None
  | Raises _ => None
  end.

Definition enqueued (rs : list reply) : list pyval := omap passes rs.

(** ** The threads a server starts *)

(** A thread, if [ev] starts one, is given the daemon setting [d]. *)
Definition thread_flag (d : pyval) (ev : event) : Prop :=
  match ev with ThreadStart _ d' => d' = d | _ => True end.

(** Run on a server whose [daemon] attribute is [d], [m] leaves the
    attribute as it is and starts threads with that setting only. *)
Definition steady (d : pyval) {A} (m : M A) : Prop :=
  forall s rs, daemon s = d ->
    daemon (srv (m s rs)) = d /\ Forall (thread_flag d) (out (m s rs)).

(** ** New work and the stop flag, for the three servers *)

Definition is_QueueGet (ev : event) : bool :=
  match ev with QueueGet _ => true | _ => false end.

(** A call that takes up new work: an accept, a processor call, or the
    taking of a client from the queue. *)
Definition takes_work (ev : event) : bool :=
  is_Accept ev || is_Process ev || is_QueueGet ev.

(** [idle cl tr]: no new work is taken up in [tr] once the flag is set,
    where [cl] is the flag at the start and a [CloseCalled] mark sets
    it. *)
Fixpoint idle (cl : bool) (tr : list event) : bool :=
  match tr with
  | [] => true
  | ev :: tr' =>
      (if cl then negb (takes_work ev) else true) && idle (cl || is_mark ev) tr'
  end.

(** Started on [s], [m] takes up no new work once the flag is set, and
    the flag afterwards is set exactly when it was before or [close()]
    was called during a call. *)
Definition stops_from (s : TServer) {A} (m : M A) : Prop :=
  forall rs,
    idle (closed s) (out (m s rs)) = true /\
    closed (srv (m s rs)) = closed s || marked (out (m s rs)).

Definition stops {A} (m : M A) : Prop := forall s, stops_from s m.

(** ** Who calls what *)

(** A call on an accepted connection: wrapping it, handing a request to
    the processor, closing it. *)
Definition on_connection (ev : event) : bool :=
  match ev with
  | GetTransport _ _ _ | GetProtocol _ _ | Process _ _ _ | Close _ => true
  | _ => false
  end.

(** A call of the accepting side: on the listening transport, on a
    thread, on the queue. *)
Definition on_listener (ev : event) : bool :=
  match ev with
  | Listen _ | Accept _ | ThreadStart _ _ | ThreadRunning _
  | QueuePut _ | QueueGet _ => true
  | _ => false
  end.

(** ** One connection at a time *)

Definition is_output_close (ev : event) : bool :=
  match ev with Close (Output, _) => true | _ => false end.

(** After [ev], the simple server may accept: [ev] is the [listen()]
    call or the close of an output transport. *)
Definition frees (ev : event) : bool := is_Listen ev || is_output_close ev.

(** [serial ready tr]: every [accept()] of [tr] comes directly after a
    [listen()] or after the close of an output transport; [ready] says
    whether [tr] may begin with an [accept()]. *)
Fixpoint serial (ready : bool) (tr : list event) : bool :=
  match tr with
  | [] => true
  | ev :: tr' => (if is_Accept ev then ready else true) && serial (frees ev) tr'
  end.

(** Whether an [accept()] may follow [tr]. *)
Definition ready_after (ready : bool) (tr : list event) : bool :=
  match last tr with Some ev => frees ev | None => ready end.

(** ** The configuration at work *)

(** The factory of a server for one side of a connection. *)
Definition transport_factory (s : TServer) (sd : side) : pyval :=
  match sd with Input => itrans_factory s | Output => otrans_factory s end.

Definition protocol_factory (s : TServer) (sd : side) : pyval :=
  match sd with Input => iprot_factory s | Output => oprot_factory s end.

(** A call made for the client [c] with the configuration of [s]: the
    wrappers come from the factory of their side, requests go to the
    processor with the two protocols of [c], and what is closed is a
    transport of [c]. *)
Definition configured (s : TServer) (c : pyval) (ev : event) : Prop :=
  match ev with
  | GetTransport f sd c' => f = transport_factory s sd /\ c' = c
  | GetProtocol f tr => f = protocol_factory s (fst tr) /\ snd tr = c
  | Process p i o => p = processor s /\ i = (Input, c) /\ o = (Output, c)
  | Close tr => snd tr = c
  | _ => True
  end.

(** * Properties *)

(** ** Basic equations *)

Arguments loop : simpl never.

Lemma prepend_prepend {A} (e1 e2 : list event) (r : run A) :
  prepend e1 (prepend e2 r) = prepend (e1 ++ e2) r.
Proof. unfold prepend; simpl. by rewrite app_assoc. Qed.

Lemma bind_eq {A B} (m : M A) (k : A -> M B) s rs :
  bind m k s rs =
  match res (m s rs) with
  | Done a => prepend (out (m s rs)) (k a (srv (m s rs)) (rest (m s rs)))
  | Raised e => Run (Raised e) (srv (m s rs)) (rest (m s rs)) (out (m s rs))
  | Blocked => Run Blocked (srv (m s rs)) (rest (m s rs)) (out (m s rs))
  end.
Proof. unfold bind. by destruct (res (m s rs)). Qed.

Lemma try_except_eq {A} (body : M A) h s rs :
  try_except body h s rs =
  match res (body s rs) with
  | Raised x =>
      match h x with
      | Some k =>
          prepend (out (body s rs)) (k (srv (body s rs)) (rest (body s rs)))
      | None => body s rs
      end
  | _ => body s rs
  end.
Proof. unfold try_except. destruct (res (body s rs)); [done| |done]. by destruct (h e). Qed.

Lemma try_except_prepend {A} (body : M A) h s rs evs (r : run A) :
  body s rs = prepend evs r ->
  try_except body h s rs =
  prepend evs (match res r with
               | Raised x =>
                   match h x with
                   | Some k => prepend (out r) (k (srv r) (rest r))
                   | None => r
                   end
               | _ => r
               end).
Proof.
  intros E. rewrite try_except_eq, E. destruct r as [[a|e|] s' rs' o]; simpl; try done.
  destruct (h e); [|done]. by rewrite prepend_prepend.
Qed.

Lemma loop_S (n : nat) (body : M ctl) s rs :
  loop (S n) body s rs =
  bind body (fun c => match c with Next => loop n body | Break => ret tt end) s rs.
Proof. reflexivity. Qed.

Lemma loop_O (body : M ctl) s rs : loop 0 body s rs = Run Blocked s rs [].
Proof. reflexivity. Qed.

Lemma call_cons ev s r rs :
  call ev s (r :: rs) =
  Run (match outcome_of r with Returns v => Done v | Raises e => Raised e end)
      (answered r s) rs (seen ev r).
Proof. unfold call. by destruct (outcome_of r). Qed.

Lemma answered_closed r s : closed (answered r s) = closed s || close_during r.
Proof. unfold answered. destruct (close_during r); simpl; by destruct (closed s). Qed.

Lemma answered_config r s : config (answered r s) = config s.
Proof. unfold answered. by destruct (close_during r). Qed.

Lemma answered_processor r s : processor (answered r s) = processor s.
Proof. unfold answered. by destruct (close_during r). Qed.

(** ** One step of a pump loop *)

(** A guarded loop whose body makes one call: what one reply does. *)
Lemma guarded_loop_step (B : M ctl) (h : exc -> option (M unit)) ev s r rs :
  B s (r :: rs) =
    Run (match outcome_of r with Returns _ => Done Next | Raises e => Raised e end)
        (answered r s) rs (seen ev r) ->
  try_except (enough_fuel (fun n => loop n B)) h s (r :: rs) =
  match outcome_of r with
  | Returns _ =>
      prepend (seen ev r)
        (try_except (enough_fuel (fun n => loop n B)) h (answered r s) rs)
  | Raises x =>
      match h x with
      | Some k => prepend (seen ev r) (k (answered r s) rs)
      | None => Run (Raised x) (answered r s) rs (seen ev r)
      end
  end.
Proof.
  intros HB.
  assert (E : enough_fuel (fun n => loop n B) s (r :: rs) =
              match outcome_of r with
              | Returns _ =>
                  prepend (seen ev r)
                    (enough_fuel (fun n => loop n B) (answered r s) rs)
              | Raises x => Run (Raised x) (answered r s) rs (seen ev r)
              end).
  { unfold enough_fuel. simpl length. rewrite loop_S, bind_eq, HB.
    destruct (outcome_of r); reflexivity. }
  destruct (outcome_of r) as [w|x].
  - rewrite (try_except_prepend _ _ _ _ _ _ E), try_except_eq.
    reflexivity.
  - rewrite try_except_eq, E. simpl. destruct (h x); reflexivity.
Qed.

Section pump_steps.
Variables (v : variant) (ip op : stream).

Lemma pump_try_stopped s rs :
  checks_flag v = true -> closed s = true ->
  pump_try v ip op s rs = Run (Done tt) s rs [].
Proof.
  intros Hv Hc. destruct v; try discriminate; simpl;
    unfold TSimpleServer_pump_try, TThreadPoolServer_serveClient_try,
      while_, enough_fuel;
    rewrite try_except_eq, loop_S; unfold bind, attr; simpl;
    rewrite Hc; simpl; reflexivity.
Qed.

Lemma pump_try_waiting s :
  checks_flag v && closed s = false ->
  pump_try v ip op s [] = Run Blocked s [] [Process (processor s) ip op].
Proof.
  intros Hc. destruct v; simpl in *;
    unfold TSimpleServer_pump_try, TThreadedServer_handle_try,
      TThreadPoolServer_serveClient_try, while_, enough_fuel;
    rewrite try_except_eq, loop_S; unfold bind, attr, processor_process;
    simpl; rewrite ?Hc; simpl; reflexivity.
Qed.

Lemma pump_try_step s r rs :
  checks_flag v && closed s = false ->
  pump_try v ip op s (r :: rs) =
  match outcome_of r with
  | Returns _ =>
      prepend (seen (Process (processor s) ip op) r)
              (pump_try v ip op (answered r s) rs)
  | Raises x =>
      match pump_handlers x with
      | Some h =>
          prepend (seen (Process (processor s) ip op) r) (h (answered r s) rs)
      | None =>
          Run (Raised x) (answered r s) rs (seen (Process (processor s) ip op) r)
      end
  end.
Proof.
  intros Hc.
  destruct v; simpl in *;
    unfold TSimpleServer_pump_try, TThreadedServer_handle_try,
      TThreadPoolServer_serveClient_try, while_;
    apply guarded_loop_step;
    destruct r as [[w|x] b];
    cbv [bind attr ret call processor_process]; simpl;
    rewrite ?Hc; simpl; rewrite ?app_nil_r; reflexivity.
Qed.
End pump_steps.

Lemma after_closed rs s :
  closed (after rs s) = closed s || existsb close_during rs.
Proof.
  revert s; induction rs as [|r rs IH]; intros s; simpl.
  - by rewrite orb_false_r.
  - by rewrite IH, answered_closed, orb_assoc.
Qed.

Lemma after_config rs s : config (after rs s) = config s.
Proof.
  revert s; induction rs as [|r rs IH]; intros s; simpl; [done|].
  by rewrite IH, answered_config.
Qed.

Lemma after_app rs1 rs2 s : after (rs1 ++ rs2) s = after rs2 (after rs1 s).
Proof. revert s; induction rs1 as [|r rs1 IH]; intros s; simpl; [done|]. apply IH. Qed.

Lemma pump_try_spec v ip op rs s :
  pump_try v ip op s rs =
  let ne := pump_exit (checks_flag v) (closed s) rs in
  Run (end_result (snd ne))
      (after (take (fst ne) rs) s)
      (drop (fst ne) rs)
      (repeated (Process (processor s) ip op) (take (fst ne) rs)
         ++ end_events (Process (processor s) ip op) (snd ne)).
Proof.
  revert s; induction rs as [|r rs IH]; intros s.
  - simpl. destruct (checks_flag v && closed s) eqn:Hc.
    + apply andb_true_iff in Hc as [Hv Hc]. by rewrite pump_try_stopped.
    + by rewrite pump_try_waiting.
  - simpl. destruct (checks_flag v && closed s) eqn:Hc.
    + apply andb_true_iff in Hc as [Hv Hc]. by rewrite pump_try_stopped.
    + rewrite pump_try_step by done.
      destruct (outcome_of r) as [w|x].
      * rewrite IH. rewrite answered_closed, answered_processor.
        simpl. unfold prepend; simpl. by rewrite app_assoc.
      * unfold pump_handlers. simpl.
        destruct (isinstance_TTransportException x);
          [|destruct (isinstance_Exception x)];
          unfold prepend, logger_exception, emit, ret; simpl;
          by rewrite ?app_nil_r.
Qed.

(** ** A whole pump *)

(** The wrapping calls, all returning, followed by any continuation. *)
Lemma wrap_then (K : stream -> stream -> stream -> stream -> M unit)
    c s w1 w2 w3 w4 rs :
  returns w1 = true -> returns w2 = true ->
  returns w3 = true -> returns w4 = true ->
  (itrans ← get_transport itrans_factory Input c;
   otrans ← get_transport otrans_factory Output c;
   iprot ← get_protocol iprot_factory itrans;
   oprot ← get_protocol oprot_factory otrans;
   K itrans otrans iprot oprot) s (w1 :: w2 :: w3 :: w4 :: rs) =
  prepend (wrap_events s c w1 w2 w3 w4)
    (K (Input, c) (Output, c) (Input, c) (Output, c)
       (after [w1; w2; w3; w4] s) rs).
Proof.
  unfold returns. intros H1 H2 H3 H4.
  destruct w1 as [[x1|] b1]; try discriminate.
  destruct w2 as [[x2|] b2]; try discriminate.
  destruct w3 as [[x3|] b3]; try discriminate.
  destruct w4 as [[x4|] b4]; try discriminate.
  destruct b1, b2, b3, b4; reflexivity.
Qed.

Lemma pump_wrapped v c s w1 w2 w3 w4 rs :
  returns w1 = true -> returns w2 = true ->
  returns w3 = true -> returns w4 = true ->
  pump v c s (w1 :: w2 :: w3 :: w4 :: rs) =
  prepend (wrap_events s c w1 w2 w3 w4)
    (bind (pump_try v (Input, c) (Output, c)) (fun _ => close_both c)
       (after [w1; w2; w3; w4] s) rs).
Proof.
  intros H1 H2 H3 H4.
  pose proof (fun T : stream -> stream -> M unit => wrap_then
           (fun it ot ip op =>
              bind (T ip op)
                (fun _ => bind (transport_close it)
                            (fun _ => transport_close ot)))
           c s w1 w2 w3 w4 rs H1 H2 H3 H4) as W.
  unfold close_both.
  destruct v; unfold pump, pump_try, TSimpleServer_pump,
    TThreadedServer_handle, TThreadPoolServer_serveClient; apply W.
Qed.

Lemma close_both_spec c s rs :
  close_both c s rs =
  match rs with
  | [] => Run Blocked s [] [Close (Input, c)]
  | c1 :: t1 =>
      match outcome_of c1 with
      | Raises x => Run (Raised x) (answered c1 s) t1 (seen (Close (Input, c)) c1)
      | Returns _ =>
          match t1 with
          | [] =>
              Run Blocked (answered c1 s) []
                (seen (Close (Input, c)) c1 ++ [Close (Output, c)])
          | c2 :: t2 =>
              Run (match outcome_of c2 with
                   | Returns _ => Done tt
                   | Raises x => Raised x
                   end)
                  (answered c2 (answered c1 s)) t2
                  (seen (Close (Input, c)) c1 ++ seen (Close (Output, c)) c2)
          end
      end
  end.
Proof.
  destruct rs as [|[[x1|x1] b1] [|[[x2|x2] b2] t2]]; try reflexivity;
    cbv [close_both transport_close bind call ret]; simpl;
    by rewrite ?app_nil_r.
Qed.

(** *** Filtering traces *)

Lemma events_of_app p tr1 tr2 :
  events_of p (tr1 ++ tr2) = events_of p tr1 ++ events_of p tr2.
Proof. apply filter_app. Qed.

Lemma events_of_seen p ev r :
  p CloseCalled = false ->
  events_of p (seen ev r) = if p ev then [ev] else [].
Proof.
  intros Hp. unfold seen, events_of.
  destruct (close_during r), (p ev) eqn:E; simpl;
    rewrite ?filter_cons, ?filter_nil; repeat case_decide; congruence.
Qed.

Lemma events_of_repeated_none p ev rs :
  p CloseCalled = false -> p ev = false ->
  events_of p (repeated ev rs) = [].
Proof.
  intros Hc He. induction rs as [|r rs IH]; simpl; [done|].
  by rewrite events_of_app, events_of_seen, He, IH.
Qed.

Lemma events_of_repeated_all p ev rs :
  p CloseCalled = false -> p ev = true ->
  events_of p (repeated ev rs) = replicate (length rs) ev.
Proof.
  intros Hc He. induction rs as [|r rs IH]; simpl; [done|].
  by rewrite events_of_app, events_of_seen, He, IH.
Qed.

Lemma events_of_wrap p s c w1 w2 w3 w4 :
  p CloseCalled = false ->
  (forall f sd x, p (GetTransport f sd x) = false) ->
  (forall f x, p (GetProtocol f x) = false) ->
  events_of p (wrap_events s c w1 w2 w3 w4) = [].
Proof.
  intros Hc Ht Hp. unfold wrap_events.
  by rewrite !events_of_app, !events_of_seen, !Ht, !Hp.
Qed.

Lemma events_of_end_events p ev e :
  p ev = false ->
  (forall x, p (Log x) = false) ->
  events_of p (end_events ev e) = [].
Proof.
  intros He Hl. destruct e; simpl; try done.
  - unfold events_of. rewrite filter_cons. case_decide; [|done].
    by rewrite Hl in *.
  - unfold events_of. rewrite filter_cons. case_decide; [|done].
    by rewrite He in *.
Qed.

Lemma occurrences_events_of p ev tr :
  p ev = true -> occurrences ev (events_of p tr) = occurrences ev tr.
Proof.
  intros Hp. unfold occurrences, events_of.
  induction tr as [|e tr IH]; [done|].
  rewrite !filter_cons. repeat case_decide; subst; simpl;
    rewrite ?filter_cons; repeat case_decide; simpl; congruence.
Qed.

(** *** What a pump does, from its replies *)

Lemma pump_spec v c s w1 w2 w3 w4 rs :
  returns w1 = true -> returns w2 = true ->
  returns w3 = true -> returns w4 = true ->
  let s4 := after [w1; w2; w3; w4] s in
  let ne := pump_exit (checks_flag v) (closed s4) rs in
  let ev := Process (processor s) (Input, c) (Output, c) in
  pump v c s (w1 :: w2 :: w3 :: w4 :: rs) =
  prepend (wrap_events s c w1 w2 w3 w4
             ++ repeated ev (take (fst ne) rs) ++ end_events ev (snd ne))
    (if normal_end (snd ne)
     then close_both c (after (take (fst ne) rs) s4) (drop (fst ne) rs)
     else Run (end_result (snd ne)) (after (take (fst ne) rs) s4)
            (drop (fst ne) rs) []).
Proof.
  intros H1 H2 H3 H4 s4 ne ev.
  rewrite pump_wrapped by done. rewrite bind_eq, pump_try_spec.
  fold s4. fold ne.
  assert (Hp : processor s4 = processor s).
  { pose proof (after_config [w1; w2; w3; w4] s) as E. unfold config in E.
    fold s4 in E. congruence. }
  rewrite Hp. fold ev. simpl res; simpl srv; simpl rest; simpl out.
  destruct (snd ne); simpl; unfold prepend; simpl;
    by rewrite ?app_nil_r, ?app_assoc.
Qed.

Lemma events_of_pump_prefix p s c w1 w2 w3 w4 ev body e :
  p CloseCalled = false ->
  (forall f sd x, p (GetTransport f sd x) = false) ->
  (forall f x, p (GetProtocol f x) = false) ->
  p ev = false ->
  (forall x, p (Log x) = false) ->
  events_of p (wrap_events s c w1 w2 w3 w4 ++ repeated ev body ++ end_events ev e)
  = [].
Proof.
  intros. rewrite !events_of_app, events_of_wrap, events_of_repeated_none,
    events_of_end_events; done.
Qed.

(** ** Closing the transports (C1) *)

(** C1, as stated, fails: when the peer disconnects and [itrans.close()]
    then raises, [TThreadedServer.handle] never calls [otrans.close()] and
    the failure reaches the caller. *)
Lemma C1_close_failure_counterexample :
  let r := TThreadedServer_handle sample_client sample_server
             [ok; ok; ok; ok; raising TTransportException;
              raising RuntimeError; ok] in
  res r = Raised RuntimeError /\
  occurrences (Close (Input, sample_client)) (out r) = 1 /\
  occurrences (Close (Output, sample_client)) (out r) = 0 /\
  ~ closes_both_once_quietly sample_client r.
Proof.
  vm_compute. repeat split; try reflexivity.
  intros (_ & H & _). discriminate H.
Qed.

(** C1, amended.  For each of the three pumps, once the four wrapping
    calls have returned and the pump loop has ended by the stop flag, a
    transport disconnect or a processor failure: [itrans.close()] is
    called exactly once, before anything else is closed; if it raises,
    [otrans.close()] is not called and the failure is raised out of the
    pump; if it returns, [otrans.close()] is called exactly once, and the
    pump returns when that call returns and raises what it raises. *)
Theorem C1_pump_closes_transports v c s w1 w2 w3 w4 rs :
  returns w1 = true -> returns w2 = true ->
  returns w3 = true -> returns w4 = true ->
  let s4 := after [w1; w2; w3; w4] s in
  let ne := pump_exit (checks_flag v) (closed s4) rs in
  normal_end (snd ne) = true ->
  let r := pump v c s (w1 :: w2 :: w3 :: w4 :: rs) in
  match drop (fst ne) rs with
  | [] => res r = Blocked /\ events_of is_Close (out r) = [Close (Input, c)]
  | c1 :: t1 =>
      match outcome_of c1 with
      | Raises x =>
          res r = Raised x /\ rest r = t1 /\
          events_of is_Close (out r) = [Close (Input, c)]
      | Returns _ =>
          events_of is_Close (out r) = [Close (Input, c); Close (Output, c)] /\
          match t1 with
          | [] => res r = Blocked
          | c2 :: t2 =>
              rest r = t2 /\
              res r = match outcome_of c2 with
                      | Returns _ => Done tt
                      | Raises x => Raised x
                      end
          end
      end
  end.
Proof.
  intros H1 H2 H3 H4 s4 ne Hn r. subst r.
  rewrite pump_spec by done. fold s4. fold ne. rewrite Hn.
  rewrite close_both_spec.
  assert (Hpre : forall tl,
    events_of is_Close
      ((wrap_events s c w1 w2 w3 w4
          ++ repeated (Process (processor s) (Input, c) (Output, c))
               (take (fst ne) rs)
          ++ end_events (Process (processor s) (Input, c) (Output, c)) (snd ne))
         ++ tl) = events_of is_Close tl).
  { intros tl. rewrite events_of_app, events_of_pump_prefix; done. }
  destruct (drop (fst ne) rs) as [|c1 t1]; simpl.
  - split; [done|]. by rewrite Hpre.
  - destruct (outcome_of c1) as [y|x]; simpl.
    + destruct t1 as [|c2 t2]; simpl;
        rewrite Hpre, events_of_app, !events_of_seen by done; simpl;
        repeat split; done.
    + rewrite Hpre, events_of_seen by done. done.
Qed.

(** The amended C1 on a run: two requests served, then a failure of the
    processor, then both closes return. *)
Lemma C1_pump_closes_transports_witness :
  let r := pump Simple sample_client sample_server
             [ok; ok; ok; ok; ok; ok; raising (OtherException 7); ok; ok] in
  events_of is_Close (out r)
    = [Close (Input, sample_client); Close (Output, sample_client)] /\
  rest r = [] /\ res r = Done tt.
Proof.
  exact (C1_pump_closes_transports Simple sample_client sample_server
           ok ok ok ok [ok; ok; raising (OtherException 7); ok; ok]
           eq_refl eq_refl eq_refl eq_refl eq_refl).
Defined.

(** ** Steps of the accept loops *)

Lemma while_S n cond (body : M unit) s rs :
  while_ (S n) cond body s rs =
  if cond s then bind body (fun _ => while_ n cond body) s rs
  else Run (Done tt) s rs [].
Proof.
  unfold while_. rewrite loop_S. unfold bind at 1, attr at 1. simpl.
  unfold bind at 1, attr at 1. simpl.
  destruct (cond s); simpl; [|reflexivity].
  unfold bind. destruct (body s rs) as [[[]|e|] s' rs' o]; simpl;
    rewrite ?app_nil_r; reflexivity.
Qed.

Lemma bind_attr {A B} (f : TServer -> A) (k : A -> M B) s rs :
  bind (attr f) k s rs = k (f s) s rs.
Proof. unfold bind, attr. simpl. by destruct (k (f s) s rs). Qed.

Lemma trans_accept_cons s a rs :
  trans_accept s (a :: rs) =
  Run (match outcome_of a with Returns c => Done c | Raises x => Raised x end)
      (answered a s) rs (seen (Accept (trans s)) a).
Proof. destruct a as [[c|x] b]; reflexivity. Qed.

(** One round of [TSimpleServer.serve]: a client is accepted and its
    pump returns. *)
Lemma TSimpleServer_serve_loop_round n s a c rs :
  closed s = false -> outcome_of a = Returns c ->
  res (TSimpleServer_pump c (answered a s) rs) = Done tt ->
  TSimpleServer_serve_loop (S n) s (a :: rs) =
  prepend (seen (Accept (trans s)) a
             ++ out (TSimpleServer_pump c (answered a s) rs))
    (TSimpleServer_serve_loop n
       (srv (TSimpleServer_pump c (answered a s) rs))
       (rest (TSimpleServer_pump c (answered a s) rs))).
Proof.
  intros Hc Ha Hp. unfold TSimpleServer_serve_loop at 1.
  rewrite while_S, Hc. simpl negb. cbv iota.
  rewrite bind_eq, bind_eq, trans_accept_cons, Ha. simpl.
  rewrite Hp. reflexivity.
Qed.

(** One round of a pool worker: a client is taken from the queue and
    its pump returns. *)
Lemma TThreadPoolServer_serveThread_loop_round n s c q rs :
  closed s = false -> clients s = c :: q ->
  res (TThreadPoolServer_serveClient c (set_clients q s) rs) = Done tt ->
  TThreadPoolServer_serveThread_loop (S n) s rs =
  prepend (QueueGet c
             :: out (TThreadPoolServer_serveClient c (set_clients q s) rs))
    (TThreadPoolServer_serveThread_loop n
       (srv (TThreadPoolServer_serveClient c (set_clients q s) rs))
       (rest (TThreadPoolServer_serveClient c (set_clients q s) rs))).
Proof.
  intros Hc Hq Hp.
  assert (G : clients_get s rs = Run (Done c) (set_clients q s) rs [QueueGet c]).
  { unfold clients_get. by rewrite Hq. }
  set (P := TThreadPoolServer_serveClient c (set_clients q s) rs) in *.
  assert (B : bind clients_get
                (fun client =>
                   bind (TThreadPoolServer_serveClient client)
                     (fun _ => ret Next)) s rs
              = Run (Done Next) (srv P) (rest P) (QueueGet c :: out P)).
  { rewrite bind_eq, G. cbn [res srv rest out].
    rewrite bind_eq. fold P. rewrite Hp. unfold prepend, ret.
    cbn [res srv rest out]. by rewrite app_nil_r. }
  unfold TThreadPoolServer_serveThread_loop.
  rewrite loop_S, bind_eq, bind_attr, Hc.
  rewrite try_except_eq, B. cbn [res srv rest out]. reflexivity.
Qed.

(** ** How the pump loop ends (C2) *)

(** What [pump_exit] says about the replies it consumed. *)
Lemma pump_exit_sound checks cl rs :
  let ne := pump_exit checks cl rs in
  let used := take (fst ne) rs in
  match snd ne with
  | Stopped =>
      checks = true /\ forallb returns used = true /\
      cl || existsb close_during used = true
  | Disconnected =>
      exists pre r, used = pre ++ [r] /\ forallb returns pre = true /\
        outcome_of r = Raises TTransportException
  | Failed x =>
      exists pre r, used = pre ++ [r] /\ forallb returns pre = true /\
        outcome_of r = Raises x /\
        isinstance_Exception x = true /\ x <> TTransportException
  | Escaped x =>
      exists pre r, used = pre ++ [r] /\ forallb returns pre = true /\
        outcome_of r = Raises x /\ isinstance_Exception x = false
  | Pumping =>
      used = rs /\ forallb returns rs = true /\
      (checks = true -> cl || existsb close_during rs = false)
  end.
Proof.
  revert cl; induction rs as [|r rs IH]; intros cl; simpl.
  - destruct (checks && cl) eqn:E; simpl.
    + apply andb_true_iff in E as [-> ->]. done.
    + repeat split. intros ->. simpl in E. by rewrite E.
  - destruct (checks && cl) eqn:E; simpl.
    + apply andb_true_iff in E as [-> ->]. done.
    + destruct (outcome_of r) as [w|x] eqn:O; simpl.
      * specialize (IH (cl || close_during r)).
        assert (Hret : returns r = true) by (unfold returns; by rewrite O).
        destruct (pump_exit checks (cl || close_during r) rs) as [n e].
        simpl in *. rewrite Hret. simpl.
        destruct e; simpl in *.
        -- destruct IH as (Hc & Hr & Hf). by rewrite orb_assoc.
        -- destruct IH as (pre & r' & Hu & Hr & Ho).
           exists (r :: pre), r'. rewrite Hu. simpl. by rewrite Hret.
        -- destruct IH as (pre & r' & Hu & Hr & Ho).
           exists (r :: pre), r'. rewrite Hu. simpl. by rewrite Hret.
        -- destruct IH as (pre & r' & Hu & Hr & Ho).
           exists (r :: pre), r'. rewrite Hu. simpl. by rewrite Hret.
        -- destruct IH as (Hu & Hr & Hf). rewrite Hu.
           split; [done|]. split; [done|].
           intros Hc. rewrite orb_assoc. by apply Hf.
      * rewrite take_0.
        destruct x; simpl; exists [], r; repeat split; done.
Qed.

Lemma events_of_Log_pump_try ev used e :
  is_Log ev = false ->
  events_of is_Log (repeated ev used ++ end_events ev e) =
  match e with Failed x => [Log x] | _ => [] end.
Proof.
  intros He. rewrite events_of_app, events_of_repeated_none by done.
  destruct e; simpl; try done.
  unfold events_of. rewrite filter_cons, filter_nil. by rewrite He.
Qed.

(** A pump whose loop ends normally and whose two closes return:
    it returns, having consumed exactly the replies up to the second
    close. *)
Lemma pump_done v c s w1 w2 w3 w4 rs c1 c2 tl :
  returns w1 = true -> returns w2 = true ->
  returns w3 = true -> returns w4 = true ->
  let s4 := after [w1; w2; w3; w4] s in
  let ne := pump_exit (checks_flag v) (closed s4) rs in
  normal_end (snd ne) = true ->
  drop (fst ne) rs = c1 :: c2 :: tl ->
  returns c1 = true -> returns c2 = true ->
  let r := pump v c s (w1 :: w2 :: w3 :: w4 :: rs) in
  res r = Done tt /\ rest r = tl /\
  srv r = after (w1 :: w2 :: w3 :: w4 :: take (fst ne) rs ++ [c1; c2]) s.
Proof.
  intros H1 H2 H3 H4 s4 ne Hn Hd Hc1 Hc2 r. subst r.
  rewrite pump_spec by done. fold s4. fold ne. rewrite Hn, Hd.
  rewrite close_both_spec. unfold returns in Hc1, Hc2.
  destruct (outcome_of c1); [|discriminate].
  destruct (outcome_of c2); [|discriminate].
  simpl. repeat split.
  change (w1 :: w2 :: w3 :: w4 :: take (fst ne) rs ++ [c1; c2])
    with ([w1; w2; w3; w4] ++ take (fst ne) rs ++ [c1; c2]).
  by rewrite !after_app.
Qed.

(** C2, as stated, fails: an interrupt raised while the processor of
    [TSimpleServer] runs is no [Exception]; it is not logged, it is
    raised out of the pump and out of [serve], and the transports stay
    open. *)
Lemma C2_interrupt_counterexample :
  let rs := [ok; ok; ok; ok; raising KeyboardInterrupt; ok; ok] in
  let r := TSimpleServer_pump sample_client sample_server rs in
  res r = Raised KeyboardInterrupt /\
  events_of is_Log (out r) = [] /\
  ~ failure_contained KeyboardInterrupt r /\
  res (TSimpleServer_serve sample_server (ok :: gives sample_client :: rs))
    = Raised KeyboardInterrupt.
Proof.
  vm_compute. repeat split; try reflexivity.
  intros [_ H]. by apply H.
Qed.

(** C2, amended.  For each of the three pumps the loop, with its [try]
    statement, ends in exactly one of these ways, decided by the flag
    and by the replies of the processor: the stop flag is seen set
    before a call (never in [TThreadedServer.handle]); a call raises
    [TTransportException], which is not logged; a call raises another
    [Exception], which is logged; in these three cases nothing is raised
    out of the loop.  A call that raises an object that is no
    [Exception] (an interrupt, an exit request) ends the loop too, but
    the object is not logged and is raised out of the pump.  While every
    call returns and the flag stays clear the loop keeps pumping.
    After a connection of [TSimpleServer] that ended by a disconnect or
    a failure and whose transports closed, the accept loop goes round
    again on the replies that follow. *)
Theorem C2_pump_loop_ends :
  (forall v ip op s rs,
     let ne := pump_exit (checks_flag v) (closed s) rs in
     let used := take (fst ne) rs in
     let r := pump_try v ip op s rs in
     rest r = drop (fst ne) rs /\
     match snd ne with
     | Stopped =>
         checks_flag v = true /\ forallb returns used = true /\
         closed (srv r) = true /\
         res r = Done tt /\ events_of is_Log (out r) = []
     | Disconnected =>
         (exists pre a, used = pre ++ [a] /\ forallb returns pre = true /\
            outcome_of a = Raises TTransportException) /\
         res r = Done tt /\ events_of is_Log (out r) = []
     | Failed x =>
         (exists pre a, used = pre ++ [a] /\ forallb returns pre = true /\
            outcome_of a = Raises x /\
            isinstance_Exception x = true /\ x <> TTransportException) /\
         res r = Done tt /\ events_of is_Log (out r) = [Log x]
     | Escaped x =>
         (exists pre a, used = pre ++ [a] /\ forallb returns pre = true /\
            outcome_of a = Raises x /\ isinstance_Exception x = false) /\
         res r = Raised x /\ events_of is_Log (out r) = []
     | Pumping =>
         used = rs /\ forallb returns rs = true /\
         (checks_flag v = true -> closed (srv r) = false) /\
         res r = Blocked /\ events_of is_Log (out r) = []
     end) /\
  (forall n s a c w1 w2 w3 w4 rs c1 c2 tl,
     closed s = false -> outcome_of a = Returns c ->
     returns w1 = true -> returns w2 = true ->
     returns w3 = true -> returns w4 = true ->
     let s4 := after [a; w1; w2; w3; w4] s in
     let ne := pump_exit true (closed s4) rs in
     (snd ne = Disconnected \/ exists x, snd ne = Failed x) ->
     drop (fst ne) rs = c1 :: c2 :: tl ->
     returns c1 = true -> returns c2 = true ->
     exists evs,
       TSimpleServer_serve_loop (S n) s (a :: w1 :: w2 :: w3 :: w4 :: rs) =
       prepend evs
         (TSimpleServer_serve_loop n
            (after (a :: w1 :: w2 :: w3 :: w4 :: take (fst ne) rs ++ [c1; c2]) s)
            tl)).
Proof.
  split.
  - intros v ip op s rs ne used r. subst r. rewrite pump_try_spec.
    fold ne. fold used. cbn [res srv rest out].
    split; [done|].
    pose proof (pump_exit_sound (checks_flag v) (closed s) rs) as Hs.
    cbv zeta in Hs. fold ne in Hs. fold used in Hs.
    rewrite events_of_Log_pump_try by done.
    rewrite after_closed.
    destruct (snd ne); try done.
    + destruct Hs as (? & ? & ?). done.
    + destruct Hs as (Hu & Hr & Hf). split_and!; try done.
      fold used. by rewrite Hu.
  - intros n s a c w1 w2 w3 w4 rs c1 c2 tl Hc Ha H1 H2 H3 H4 s4 ne He Hd Hc1 Hc2.
    assert (Hn : normal_end (snd ne) = true).
    { destruct He as [->|[x ->]]; reflexivity. }
    destruct (pump_done Simple c (answered a s) w1 w2 w3 w4 rs c1 c2 tl
                H1 H2 H3 H4 Hn Hd Hc1 Hc2) as (Hres & Hrest & Hsrv).
    simpl pump in *.
    eexists. rewrite (TSimpleServer_serve_loop_round n s a c) by done.
    rewrite Hrest, Hsrv. reflexivity.
Qed.

(** The amended C2 on runs: a pool pump whose processor fails on the
    second request, and a simple server that goes on after such a
    connection. *)
Lemma C2_pump_loop_ends_witness :
  (let r := pump_try Pool (Input, sample_client) (Output, sample_client)
              sample_server [ok; raising RuntimeError; ok] in
   rest r = [ok] /\ res r = Done tt /\
   events_of is_Log (out r) = [Log RuntimeError]) /\
  (exists evs,
     TSimpleServer_serve_loop 2 sample_server
       [gives sample_client; ok; ok; ok; ok;
        ok; raising RuntimeError; ok; ok; raising SystemExit] =
     prepend evs
       (TSimpleServer_serve_loop 1 sample_server [raising SystemExit])).
Proof.
  split.
  - destruct (proj1 C2_pump_loop_ends Pool (Input, sample_client)
                (Output, sample_client) sample_server
                [ok; raising RuntimeError; ok]) as (H1 & _ & H2 & H3).
    exact (conj H1 (conj H2 H3)).
  - exact (proj2 C2_pump_loop_ends 1 sample_server (gives sample_client)
             sample_client ok ok ok ok
             [ok; raising RuntimeError; ok; ok; raising SystemExit]
             ok ok [raising SystemExit]
             eq_refl eq_refl eq_refl eq_refl eq_refl eq_refl
             (or_intror (ex_intro _ RuntimeError eq_refl))
             eq_refl eq_refl eq_refl).
Defined.

(** ** Invariants of runs *)

Section invariant.
Variable R : TServer -> TServer -> Prop.
Variable P : event -> Prop.
Hypothesis R_refl : forall s, R s s.
Hypothesis R_trans : forall s1 s2 s3, R s1 s2 -> R s2 s3 -> R s1 s3.
Hypothesis R_close : forall s, R s (set_closed true s).
Hypothesis P_mark : P CloseCalled.

Lemma keeps_ret {A} (a : A) : keeps R P (ret a).
Proof. intros s rs. simpl. auto. Qed.

Lemma keeps_raise {A} (x : exc) : keeps R P (@raise A x).
Proof. intros s rs. simpl. auto. Qed.

Lemma keeps_attr {A} (f : TServer -> A) : keeps R P (attr f).
Proof. intros s rs. simpl. auto. Qed.

Lemma keeps_emit ev : P ev -> keeps R P (emit ev).
Proof. intros H s rs. simpl. auto. Qed.

Lemma keeps_call ev : P ev -> keeps R P (call ev).
Proof.
  intros H s [|[o b] rs]; [simpl; auto|].
  rewrite call_cons. unfold answered, seen. simpl.
  destruct b; auto.
Qed.

Lemma keeps_bind {A B} (m : M A) (k : A -> M B) :
  keeps R P m -> (forall a, keeps R P (k a)) -> keeps R P (bind m k).
Proof.
  intros Hm Hk s rs. rewrite bind_eq. destruct (Hm s rs) as [H1 H2].
  destruct (res (m s rs)) as [a| |]; simpl; auto.
  destruct (Hk a (srv (m s rs)) (rest (m s rs))) as [H3 H4].
  split; [eauto|]. by apply Forall_app.
Qed.

Lemma keeps_try_except {A} (body : M A) h :
  keeps R P body -> (forall x k, h x = Some k -> keeps R P k) ->
  keeps R P (try_except body h).
Proof.
  intros Hm Hh s rs. rewrite try_except_eq. destruct (Hm s rs) as [H1 H2].
  destruct (res (body s rs)) as [|x|]; auto.
  destruct (h x) as [k|] eqn:E; auto.
  destruct (Hh x k E (srv (body s rs)) (rest (body s rs))) as [H3 H4].
  simpl. split; [eauto|]. by apply Forall_app.
Qed.

Lemma keeps_loop n (body : M ctl) : keeps R P body -> keeps R P (loop n body).
Proof.
  intros Hb. induction n as [|n IH]; intros s rs.
  - rewrite loop_O. simpl. auto.
  - rewrite loop_S. apply keeps_bind; [done|].
    intros []; [done|apply keeps_ret].
Qed.

Lemma keeps_while n cond (body : M unit) :
  keeps R P body -> keeps R P (while_ n cond body).
Proof.
  intros Hb. apply keeps_loop, keeps_bind; [apply keeps_attr|].
  intros []; [|apply keeps_ret].
  apply keeps_bind; [done|]. intros _. apply keeps_ret.
Qed.

Lemma keeps_enough_fuel {A} (f : nat -> M A) :
  (forall n, keeps R P (f n)) -> keeps R P (enough_fuel f).
Proof. intros H s rs. apply H. Qed.

(** The collaborator calls that touch neither queue nor threads. *)
Hypothesis P_Listen : forall t, P (Listen t).
Hypothesis P_GetTransport : forall f sd c, P (GetTransport f sd c).
Hypothesis P_GetProtocol : forall f tr, P (GetProtocol f tr).
Hypothesis P_Process : forall p i o, P (Process p i o).
Hypothesis P_Close : forall tr, P (Close tr).
Hypothesis P_Log : forall x, P (Log x).

Lemma keeps_pump_handlers x k : pump_handlers x = Some k -> keeps R P k.
Proof.
  unfold pump_handlers. intros H.
  destruct (isinstance_TTransportException x);
    [|destruct (isinstance_Exception x)]; simplify_eq.
  - apply keeps_ret.
  - by apply keeps_emit.
Qed.

Lemma keeps_log_handlers x k : log_handlers x = Some k -> keeps R P k.
Proof.
  unfold log_handlers. intros H. destruct (isinstance_Exception x); simplify_eq.
  apply keeps_bind; [by apply keeps_emit|]. intros _. apply keeps_ret.
Qed.

Lemma keeps_log_unit_handlers x k :
  log_unit_handlers x = Some k -> keeps R P k.
Proof.
  unfold log_unit_handlers. intros H.
  destruct (isinstance_Exception x); simplify_eq. by apply keeps_emit.
Qed.

Lemma keeps_accept_handlers x k : accept_handlers x = Some k -> keeps R P k.
Proof.
  unfold accept_handlers. intros H.
  destruct (isinstance_KeyboardInterrupt x);
    [|destruct (isinstance_Exception x)]; simplify_eq.
  - apply keeps_raise.
  - by apply keeps_emit.
Qed.

Lemma keeps_get_transport f sd c : keeps R P (get_transport f sd c).
Proof.
  apply keeps_bind; [apply keeps_attr|]. intros a.
  apply keeps_bind; [by apply keeps_call|]. intros _. apply keeps_ret.
Qed.

Lemma keeps_get_protocol f tr : keeps R P (get_protocol f tr).
Proof.
  apply keeps_bind; [apply keeps_attr|]. intros a.
  apply keeps_bind; [by apply keeps_call|]. intros _. apply keeps_ret.
Qed.

Lemma keeps_processor_process i o : keeps R P (processor_process i o).
Proof.
  apply keeps_bind; [apply keeps_attr|]. intros a.
  apply keeps_bind; [by apply keeps_call|]. intros _. apply keeps_ret.
Qed.

Lemma keeps_transport_close tr : keeps R P (transport_close tr).
Proof. apply keeps_bind; [by apply keeps_call|]. intros _. apply keeps_ret. Qed.

Lemma keeps_trans_listen : keeps R P trans_listen.
Proof.
  apply keeps_bind; [apply keeps_attr|]. intros a.
  apply keeps_bind; [by apply keeps_call|]. intros _. apply keeps_ret.
Qed.

Lemma keeps_TSimpleServer_pump_try i o :
  keeps R P (TSimpleServer_pump_try i o).
Proof.
  apply keeps_try_except; [|apply keeps_pump_handlers].
  apply keeps_enough_fuel; intros n.
  apply keeps_while, keeps_processor_process.
Qed.

Lemma keeps_TThreadedServer_handle_try i o :
  keeps R P (TThreadedServer_handle_try i o).
Proof.
  apply keeps_try_except; [|apply keeps_pump_handlers].
  apply keeps_enough_fuel; intros n.
  apply keeps_while, keeps_processor_process.
Qed.

Lemma keeps_TThreadPoolServer_serveClient_try i o :
  keeps R P (TThreadPoolServer_serveClient_try i o).
Proof.
  apply keeps_try_except; [|apply keeps_pump_handlers].
  apply keeps_enough_fuel; intros n.
  apply keeps_loop, keeps_bind; [apply keeps_attr|].
  intros []; [apply keeps_ret|].
  apply keeps_bind; [apply keeps_processor_process|].
  intros _. apply keeps_ret.
Qed.

Lemma keeps_pump v c : keeps R P (pump v c).
Proof.
  assert (H : forall T : stream -> stream -> M unit,
             (forall i o, keeps R P (T i o)) ->
             keeps R P
               (bind (get_transport itrans_factory Input c) (fun itrans =>
                bind (get_transport otrans_factory Output c) (fun otrans =>
                bind (get_protocol iprot_factory itrans) (fun iprot =>
                bind (get_protocol oprot_factory otrans) (fun oprot =>
                bind (T iprot oprot) (fun _ =>
                bind (transport_close itrans) (fun _ =>
                transport_close otrans)))))))).
  { intros T HT.
    apply keeps_bind; [apply keeps_get_transport|]. intros it.
    apply keeps_bind; [apply keeps_get_transport|]. intros ot.
    apply keeps_bind; [apply keeps_get_protocol|]. intros ip.
    apply keeps_bind; [apply keeps_get_protocol|]. intros op.
    apply keeps_bind; [apply HT|]. intros _.
    apply keeps_bind; [apply keeps_transport_close|]. intros _.
    apply keeps_transport_close. }
  destruct v.
  - apply (H TSimpleServer_pump_try), keeps_TSimpleServer_pump_try.
  - apply (H TThreadedServer_handle_try), keeps_TThreadedServer_handle_try.
  - apply (H TThreadPoolServer_serveClient_try),
      keeps_TThreadPoolServer_serveClient_try.
Qed.
End invariant.

(** ** The configuration is kept and the flag is never cleared (C8, C9) *)

Lemma later_refl s : later s s.
Proof. by split. Qed.

Lemma later_trans s1 s2 s3 : later s1 s2 -> later s2 s3 -> later s1 s3.
Proof. intros [E1 H1] [E2 H2]. split; [congruence|auto]. Qed.

Lemma later_close s : later s (set_closed true s).
Proof. by split. Qed.

Lemma keeps_clients_put R P c :
  (forall s, R s (set_clients (clients s ++ [c]) s)) -> P (QueuePut c) ->
  keeps R P (clients_put c).
Proof. intros HR HP s rs. simpl. split; [apply HR|]. by repeat constructor. Qed.

Lemma keeps_clients_get R P :
  (forall s, R s s) ->
  (forall s c q, clients s = c :: q -> R s (set_clients q s)) ->
  (forall c, P (QueueGet c)) ->
  keeps R P clients_get.
Proof.
  intros Hr HR HP s rs. unfold clients_get.
  destruct (clients s) as [|c q] eqn:E; simpl.
  - split; [apply Hr|constructor].
  - split; [by apply (HR s c q)|]. by repeat constructor.
Qed.

(** Follows the syntax of a method, one construct at a time; [side]
    settles what is asked of the relation and of the events. *)
Ltac keeps_step side :=
  cbv beta;
  lazymatch goal with
  | |- keeps _ _ (ret _) => apply keeps_ret
  | |- keeps _ _ (raise _) => apply keeps_raise
  | |- keeps _ _ (attr _) => apply keeps_attr
  | |- keeps _ _ (emit _) => apply keeps_emit
  | |- keeps _ _ (logger_exception _) => apply keeps_emit
  | |- keeps _ _ (call _) => apply keeps_call
  | |- keeps _ _ (clients_put _) => apply keeps_clients_put
  | |- keeps _ _ clients_get => apply keeps_clients_get
  | |- keeps _ _ trans_listen => apply keeps_trans_listen
  | |- keeps _ _ trans_accept => unfold trans_accept
  | |- keeps _ _ (start_thread _) => unfold start_thread
  | |- keeps ?R ?P (TSimpleServer_pump ?c) =>
      change (keeps R P (pump Simple c)); apply keeps_pump
  | |- keeps ?R ?P (TThreadedServer_handle ?c) =>
      change (keeps R P (pump Threaded c)); apply keeps_pump
  | |- keeps ?R ?P (TThreadPoolServer_serveClient ?c) =>
      change (keeps R P (pump Pool c)); apply keeps_pump
  | |- keeps _ _ (enough_fuel _) => apply keeps_enough_fuel
  | |- keeps _ _ (while_ _ _ _) => apply keeps_while
  | |- keeps _ _ (loop _ _) => apply keeps_loop
  | |- keeps _ _ (try_except _ pump_handlers) =>
      apply keeps_try_except; [..| apply keeps_pump_handlers]
  | |- keeps _ _ (try_except _ log_handlers) =>
      apply keeps_try_except; [..| apply keeps_log_handlers]
  | |- keeps _ _ (try_except _ log_unit_handlers) =>
      apply keeps_try_except; [..| apply keeps_log_unit_handlers]
  | |- keeps _ _ (try_except _ accept_handlers) =>
      apply keeps_try_except; [..| apply keeps_accept_handlers]
  | |- keeps _ _ (bind _ _) => apply keeps_bind
  | |- keeps _ _ (if ?b then _ else _) => destruct b eqn:?
  | |- keeps _ _ _ => fail
  | |- forall _, _ => intro
  | |- _ => side
  end.

Ltac later_side :=
  solve [ apply later_refl | eapply later_trans; eassumption
        | apply later_close | exact I | by split ].

Ltac keeps_later := repeat keeps_step later_side.

Lemma keeps_later_start_workers n :
  keeps later (fun _ => True) (TThreadPoolServer_start_workers n).
Proof.
  induction n as [|n IH]; simpl.
  - keeps_later.
  - apply keeps_bind; [exact later_trans| |intros _; exact IH].
    keeps_later.
Qed.

Lemma keeps_later_perform m : keeps later (fun _ => True) (perform m).
Proof.
  destruct m; simpl.
  - unfold TServer_serve. keeps_later.
  - unfold TServer_close. keeps_later.
  - unfold TSimpleServer_serve, TSimpleServer_serve_loop. keeps_later.
  - intros s rs. simpl. split; [apply later_close|constructor].
  - unfold TThreadedServer_serve, TThreadedServer_serve_loop. keeps_later.
  - keeps_later.
  - intros s rs. simpl. split; [apply later_close|constructor].
  - intros s rs. simpl. split; [by split|constructor].
  - unfold TThreadPoolServer_serveThread, TThreadPoolServer_serveThread_loop.
    keeps_later.
  - keeps_later.
  - unfold TThreadPoolServer_serve, TThreadPoolServer_accept_loop.
    apply keeps_bind; [exact later_trans|keeps_later|intros n].
    apply keeps_bind;
      [exact later_trans|apply keeps_later_start_workers|intros _].
    keeps_later.
  - intros s rs. simpl. split; [apply later_close|constructor].
Qed.

(** A pump closes nothing unless its four wrapping calls returned. *)
Lemma pump_unwrapped v c s rs :
  (forall w1 w2 w3 w4 tl, rs = w1 :: w2 :: w3 :: w4 :: tl ->
     forallb returns [w1; w2; w3; w4] = false) ->
  events_of is_Close (out (pump v c s rs)) = [] /\
  res (pump v c s rs) <> Done tt.
Proof.
  intros H.
  destruct rs as [|[[x1|x1] b1] [|[[x2|x2] b2] [|[[x3|x3] b3] [|[[x4|x4] b4] tl]]]];
    try (specialize (H _ _ _ _ _ eq_refl); discriminate H);
    clear H; destruct v;
    repeat match goal with b : bool |- _ => destruct b end;
    (split; [reflexivity|discriminate]).
Qed.

Lemma occurrences_Close_le tr c l :
  l = [] \/ l = [Close (Input, c)] \/ l = [Close (Input, c); Close (Output, c)] ->
  occurrences (Close tr) l <= 1.
Proof.
  unfold occurrences. intros [->|[->| ->]]; simpl; [lia| |].
  - rewrite filter_cons, filter_nil. case_decide; simpl; lia.
  - rewrite !filter_cons, filter_nil. repeat case_decide; simpl; try lia.
    congruence.
Qed.

(** Whatever the collaborators answer, and whenever [close()] is called,
    a pump closes no transport twice. *)
Lemma pump_closes_at_most_once v c s rs tr :
  occurrences (Close tr) (out (pump v c s rs)) <= 1.
Proof.
  rewrite <- (occurrences_events_of is_Close) by done.
  apply occurrences_Close_le with (c := c).
  assert (Hcase : (exists w1 w2 w3 w4 tl, rs = w1 :: w2 :: w3 :: w4 :: tl /\
                      forallb returns [w1; w2; w3; w4] = true) \/
                  (forall w1 w2 w3 w4 tl, rs = w1 :: w2 :: w3 :: w4 :: tl ->
                     forallb returns [w1; w2; w3; w4] = false)).
  { destruct rs as [|w1 [|w2 [|w3 [|w4 tl]]]]; try (right; discriminate).
    destruct (forallb returns [w1; w2; w3; w4]) eqn:E.
    - left. by exists w1, w2, w3, w4, tl.
    - right. intros ? ? ? ? ? [= <- <- <- <- <-]. exact E. }
  destruct Hcase as [(w1 & w2 & w3 & w4 & tl & -> & Hw)|Hn].
  - simpl in Hw. rewrite andb_true_r in Hw.
    apply andb_true_iff in Hw as [H1 Hw].
    apply andb_true_iff in Hw as [H2 Hw].
    apply andb_true_iff in Hw as [H3 H4].
    rewrite pump_spec by done. cbv zeta.
    set (ne := pump_exit _ _ _). set (s4 := after [w1; w2; w3; w4] s).
    unfold prepend. cbn [out]. rewrite events_of_app.
    rewrite events_of_pump_prefix by done. simpl app.
    destruct (normal_end (snd ne)); [|by left].
    rewrite close_both_spec.
    destruct (drop (fst ne) tl) as [|c1 [|c2 t2]]; simpl.
    + right; left. reflexivity.
    + destruct (outcome_of c1); simpl;
        rewrite ?events_of_app, !events_of_seen by done; simpl; auto.
    + destruct (outcome_of c1); simpl;
        rewrite ?events_of_app, !events_of_seen by done; simpl; auto.
  - left. by apply pump_unwrapped.
Qed.

Lemma times_close v n s rs :
  times (S n) (server_close v) s rs = server_close v s rs.
Proof.
  induction n as [|n IH].
  - destruct v; reflexivity.
  - change (times (S (S n)) (server_close v))
      with (bind (server_close v) (fun _ => times (S n) (server_close v))).
    rewrite bind_eq.
    assert (E : server_close v s rs = Run (Done tt) (set_closed true s) rs [])
      by (by destruct v).
    rewrite E. cbn [res srv rest out].
    assert (E' : forall s' rs', times (S n) (server_close v) s' rs'
                   = Run (Done tt) (set_closed true s') rs' []).
    { intros s' rs'. clear IH E. revert s' rs'. induction n as [|n IH]; intros.
      - by destruct v.
      - change (times (S (S n)) (server_close v))
          with (bind (server_close v) (fun _ => times (S n) (server_close v))).
        rewrite bind_eq.
        assert (E : server_close v s' rs'
                    = Run (Done tt) (set_closed true s') rs' [])
          by (by destruct v).
        rewrite E. cbn [res srv rest out]. rewrite IH. reflexivity. }
    rewrite E'. reflexivity.
Qed.

(** C8.  For each variant, [close()] only sets the flag: it returns,
    raises nothing, makes no call on any collaborator (so it closes no
    transport) and consumes nothing.  Calling it any number of times in
    a row is the same as calling it once.  After it, whatever method
    runs and whatever the collaborators answer, the flag is still set;
    and a pump run after two calls closes no transport twice. *)
Theorem C8_close_idempotent v s rs :
  server_close v s rs = Run (Done tt) (set_closed true s) rs [] /\
  (forall n, times (S n) (server_close v) s rs = server_close v s rs) /\
  (forall m rs',
     closed (srv (perform m (srv (server_close v s rs)) rs')) = true) /\
  (forall w c rs' tr,
     occurrences (Close tr)
       (out (pump w c (srv (times 2 (server_close v) s rs)) rs')) <= 1).
Proof.
  split; [by destruct v|]. split; [intros n; apply times_close|].
  split.
  - intros m rs'.
    destruct (keeps_later_perform m (srv (server_close v s rs)) rs')
      as [[_ H] _].
    apply H. by destruct v.
  - intros. apply pump_closes_at_most_once.
Qed.

(** C9.  [TServer.__init__] stores the processor and the listening
    transport as given.  An input factory that is given (and tests
    true) is stored; one that is unset ([None]: it tests false) becomes
    [TBufferedTransportFactory()], respectively
    [TBinaryProtocolFactory()].  An output factory that is given is
    stored; one that is unset becomes the input factory of the same
    kind: the one given, or the default when that is unset too.
    Parameters that the call omits are [None].  No method of the
    module changes these six attributes afterwards. *)
Theorem C9_config_defaults p t itf ipf otf opf :
  let s := TServer_init_body p t itf ipf otf opf in
  (processor s = p /\ trans s = t) /\
  itrans_factory s = (if truthy itf then itf else TBufferedTransportFactory) /\
  iprot_factory s = (if truthy ipf then ipf else TBinaryProtocolFactory) /\
  otrans_factory s
    = (if truthy otf then otf
       else if truthy itf then itf else TBufferedTransportFactory) /\
  oprot_factory s
    = (if truthy opf then opf
       else if truthy ipf then ipf else TBinaryProtocolFactory) /\
  truthy PyNone = false /\
  itrans_factory (TServer_init_body p t PyNone ipf otf opf)
    = TBufferedTransportFactory /\
  iprot_factory (TServer_init_body p t itf PyNone otf opf)
    = TBinaryProtocolFactory /\
  otrans_factory (TServer_init_body p t itf ipf PyNone opf)
    = (if truthy itf then itf else TBufferedTransportFactory) /\
  oprot_factory (TServer_init_body p t itf ipf otf PyNone)
    = (if truthy ipf then ipf else TBinaryProtocolFactory) /\
  config (TServer_init_body p t PyNone PyNone PyNone PyNone)
    = (p, t, (TBufferedTransportFactory, TBinaryProtocolFactory),
       (TBufferedTransportFactory, TBinaryProtocolFactory)) /\
  TServer_init [p; t] ∅
    = inr (TServer_init_body p t PyNone PyNone PyNone PyNone) /\
  TServer_init [p; t; itf; ipf; otf; opf] ∅
    = inr (TServer_init_body p t itf ipf otf opf) /\
  (forall m s0 rs, config (srv (perform m s0 rs)) = config s0).
Proof.
  cbv zeta. unfold TServer_init_body, py_or. cbn [processor trans
    itrans_factory iprot_factory otrans_factory oprot_factory truthy].
  split_and!; try reflexivity.
  intros m s0 rs. by destruct (keeps_later_perform m s0 rs) as [[H _] _].
Qed.

(** ** Keyword arguments of the constructors (C10) *)

Lemma TServer_init_iprot_keyword p t (f : pyval) :
  TServer_init [p; t] {[ "iprot_factory" := f ]} =
  inr (TServer_init_body p t PyNone f PyNone PyNone).
Proof.
  unfold TServer_init. simpl length.
  rewrite map_to_list_singleton. simpl.
  unfold bind_param. simpl.
  rewrite lookup_singleton_eq, !lookup_singleton_ne by done.
  reflexivity.
Qed.

Lemma TThreadPoolServer_init_binds args (kwargs : gmap string pyval) :
  kwargs !! "self" = None ->
  TThreadPoolServer_init args kwargs =
  match TServer_init args ∅ with
  | inl e => inl e
  | inr s =>
      inr (set_closed false
             (set_daemon (default (PyBool false) (kwargs !! "daemon"))
                (set_threads 10 (set_clients [] s))))
  end.
Proof. intros H. unfold TThreadPoolServer_init. by rewrite bool_decide_true. Qed.

Lemma TThreadPoolServer_init_self args (kwargs : gmap string pyval) :
  is_Some (kwargs !! "self") -> TThreadPoolServer_init args kwargs = inl TypeError.
Proof.
  intros [v H]. unfold TThreadPoolServer_init.
  rewrite bool_decide_false; [done|]. by rewrite H.
Qed.

Lemma TThreadPoolServer_init_inr args (kwargs : gmap string pyval) s :
  TThreadPoolServer_init args kwargs = inr s ->
  kwargs !! "self" = None /\
  exists s0,
    TServer_init args ∅ = inr s0 /\
    s = set_closed false
          (set_daemon (default (PyBool false) (kwargs !! "daemon"))
             (set_threads 10 (set_clients [] s0))).
Proof.
  unfold TThreadPoolServer_init. case_bool_decide as Hs; [|done]. simpl.
  destruct (TServer_init args ∅) as [e|s0]; [done|].
  intros [= <-]. split; [done|]. by exists s0.
Qed.

(** C10, as stated, fails for one keyword: [self] is not ignored.  It
    clashes with the first parameter of the constructor, so the call
    raises [TypeError], where the call without it builds a server. *)
Lemma C10_self_keyword_counterexample :
  TThreadPoolServer_init [sample_processor; sample_socket]
    {[ "self" := PyNone ]} = inl TypeError /\
  exists s, TThreadPoolServer_init [sample_processor; sample_socket] ∅ = inr s.
Proof.
  split.
  - apply TThreadPoolServer_init_self. rewrite lookup_singleton_eq. by eexists.
  - eexists. by rewrite TThreadPoolServer_init_binds.
Qed.

(** C10, amended.  [TThreadPoolServer.__init__] passes only its
    positional arguments to [TServer.__init__]: whatever keywords the
    call binds, the server it builds is the one built without
    keywords, except that [daemon] is read from the keyword of that
    name.  The one keyword that is not ignored is [self], which makes
    the call raise [TypeError].  So [iprot_factory=f] has no effect on
    a pool: the server is the one built without it, with the default
    protocol factories.  The other two variants do not ignore the
    keyword: with [TThreadedServer] the factory [f] becomes the input
    protocol factory and, no output factory being given, the output
    protocol factory too (unless [f] tests false, which leaves the
    default); and [TSimpleServer.__init__], which takes no keywords,
    raises [TypeError]. *)
Theorem C10_pool_ignores_keywords args kwargs p t f :
  (kwargs !! "self" = None ->
   TThreadPoolServer_init args kwargs =
     match TThreadPoolServer_init args ∅ with
     | inl e => inl e
     | inr s =>
         inr (set_daemon (default (PyBool false) (kwargs !! "daemon")) s)
     end) /\
  (is_Some (kwargs !! "self") ->
   TThreadPoolServer_init args kwargs = inl TypeError) /\
  (exists s,
     TThreadPoolServer_init [p; t] {[ "iprot_factory" := f ]} = inr s /\
     TThreadPoolServer_init [p; t] ∅ = inr s /\
     iprot_factory s = TBinaryProtocolFactory /\
     oprot_factory s = TBinaryProtocolFactory) /\
  (exists s,
     TThreadedServer_init [p; t] {[ "iprot_factory" := f ]} = inr s /\
     iprot_factory s = (if truthy f then f else TBinaryProtocolFactory) /\
     oprot_factory s = (if truthy f then f else TBinaryProtocolFactory)) /\
  TSimpleServer_init [p; t] {[ "iprot_factory" := f ]} = inl TypeError.
Proof.
  split_and!.
  - intros H. rewrite !TThreadPoolServer_init_binds by done.
    rewrite lookup_empty. by destruct (TServer_init args ∅).
  - apply TThreadPoolServer_init_self.
  - eexists. rewrite !TThreadPoolServer_init_binds by done.
    rewrite lookup_singleton_ne, lookup_empty by done.
    split_and!; reflexivity.
  - eexists. unfold TThreadedServer_init.
    rewrite lookup_singleton_ne, delete_singleton_ne by done.
    rewrite TServer_init_iprot_keyword. split; [reflexivity|].
    simpl. unfold py_or. by destruct (truthy f).
  - unfold TSimpleServer_init.
    rewrite bool_decide_false; [done|].
    intros H. apply (f_equal (lookup "iprot_factory")) in H.
    by rewrite lookup_singleton_eq, lookup_empty in H.
Qed.

(** The amended C10 on a call: [TThreadPoolServer(processor, trans,
    timeout=3)] builds the server that
    [TThreadPoolServer(processor, trans)] builds. *)
Lemma C10_pool_ignores_keywords_witness :
  let kwargs : gmap string pyval := {[ "timeout" := PyInt 3 ]} in
  kwargs !! "self" = None /\
  TThreadPoolServer_init [sample_processor; sample_socket] kwargs =
    match TThreadPoolServer_init [sample_processor; sample_socket] ∅ with
    | inl e => inl e
    | inr s =>
        inr (set_daemon (default (PyBool false) (kwargs !! "daemon")) s)
    end.
Proof.
  assert (H : ({[ "timeout" := PyInt 3 ]} : gmap string pyval) !! "self" = None)
    by (by apply lookup_singleton_ne).
  split; [exact H|].
  exact (proj1 (C10_pool_ignores_keywords [sample_processor; sample_socket]
                  {[ "timeout" := PyInt 3 ]}
                  sample_processor sample_socket PyNone) H).
Defined.

(** ** The workers of the pool (C3) *)

Lemma answered_daemon r s : daemon (answered r s) = daemon s.
Proof. unfold answered. by destruct (close_during r). Qed.

Lemma start_workers_spec starts s tl :
  forallb start_survived starts = true ->
  TThreadPoolServer_start_workers (length starts) s (starts ++ tl) =
  Run (Done tt) (after starts s) tl (start_events (daemon s) starts).
Proof.
  revert s; induction starts as [|r starts IH]; intros s Hs; [reflexivity|].
  simpl in Hs. apply andb_true_iff in Hs as [Hr Hs].
  simpl length. simpl app.
  change (TThreadPoolServer_start_workers (S (length starts)))
    with (bind (try_except (start_thread ServeThread) log_unit_handlers)
            (fun _ => TThreadPoolServer_start_workers (length starts))).
  assert (E : try_except (start_thread ServeThread) log_unit_handlers s
                (r :: starts ++ tl)
              = Run (Done tt) (answered r s) (starts ++ tl)
                  (seen (ThreadStart ServeThread (daemon s)) r
                     ++ match outcome_of r with
                        | Returns _ => [ThreadRunning ServeThread]
                        | Raises x => [Log x]
                        end)).
  { unfold start_survived in Hr. destruct r as [[w|x] b]; simpl in *.
    - reflexivity.
    - rewrite try_except_eq. unfold log_unit_handlers.
      cbn. rewrite Hr. reflexivity. }
  rewrite bind_eq, E. cbn [res srv rest out]. rewrite IH by done.
  unfold prepend. cbn [res srv rest out]. rewrite answered_daemon.
  simpl. by rewrite <- app_assoc.
Qed.




Lemma events_of_none p tr :
  Forall (λ ev, p ev = false) tr -> events_of p tr = [].
Proof.
  induction 1 as [|ev tr H _ IH]; [done|].
  unfold events_of in *. rewrite filter_cons, IH.
  case_decide; [congruence|done].
Qed.



Lemma TThreadPoolServer_serve_spec s starts tl :
  length starts = Z.to_nat (threads s) ->
  forallb start_survived starts = true ->
  TThreadPoolServer_serve s (starts ++ tl) =
  prepend (start_events (daemon s) starts)
    (bind trans_listen (fun _ => enough_fuel TThreadPoolServer_accept_loop)
       (after starts s) tl).
Proof.
  intros Hl Hs. unfold TThreadPoolServer_serve.
  rewrite bind_attr, <- Hl, bind_eq, start_workers_spec by done.
  reflexivity.
Qed.






(** ** The accept loop of the threaded server (C6) *)

Lemma start_thread_cons tg s t rs :
  start_thread tg s (t :: rs) =
  match outcome_of t with
  | Returns _ =>
      Run (Done tt) (answered t s) rs
        (seen (ThreadStart tg (daemon s)) t ++ [ThreadRunning tg])
  | Raises x =>
      Run (Raised x) (answered t s) rs (seen (ThreadStart tg (daemon s)) t)
  end.
Proof. destruct t as [[w|x] b]; reflexivity. Qed.

Lemma accept_handlers_spec x :
  forall s rs,
    match accept_handlers x with
    | Some h =>
        h s rs = if isinstance_Exception x
                 then Run (Done tt) s rs [Log x]
                 else Run (Raised x) s rs []
    | None => isinstance_Exception x = false
    end.
Proof. intros s rs. by destruct x. Qed.

(** A raise inside the [try] of the accept loop, after the events
    [evs]: logged if it is an [Exception], raised further if not. *)
Lemma TThreadedServer_round_raised n s rs x s' rs' evs :
  closed s = false ->
  (client ← trans_accept; start_thread (Handle client)) s rs
    = Run (Raised x) s' rs' evs ->
  TThreadedServer_serve_loop (S n) s rs =
  if isinstance_Exception x
  then prepend (evs ++ [Log x]) (TThreadedServer_serve_loop n s' rs')
  else Run (Raised x) s' rs' evs.
Proof.
  intros Hc Hb. unfold TThreadedServer_serve_loop.
  rewrite while_S, Hc. simpl negb. cbv iota.
  rewrite bind_eq, try_except_eq, Hb. cbn [res srv rest out].
  pose proof (accept_handlers_spec x s' rs') as Hh.
  destruct (accept_handlers x) as [h|].
  - rewrite Hh. destruct (isinstance_Exception x); simpl;
      by rewrite ?app_nil_r.
  - by rewrite Hh.
Qed.

(** C6, as stated, fails: [SystemExit] raised while accepting is not
    [KeyboardInterrupt], yet it is not logged and it ends [serve]. *)
Lemma C6_exit_request_counterexample :
  let r := TThreadedServer_serve sample_server
             [ok; raising SystemExit; gives sample_client; ok] in
  res r = Raised SystemExit /\
  events_of is_Log (out r) = [] /\
  rest r = [gives sample_client; ok] /\
  ~ survives_accept_failure SystemExit r.
Proof.
  vm_compute. repeat split; try reflexivity.
  intros H. destruct H as [_ H]; [discriminate|]. by apply H.
Qed.

(** C6, amended.  In the accept loop of [TThreadedServer], with the
    flag clear: when accepting a connection, or starting the worker for
    an accepted one, raises an instance of [Exception], it is logged
    and the loop goes round again on the replies that follow; when it
    raises an object that is no [Exception] -- [KeyboardInterrupt],
    which its own clause raises again, and likewise [SystemExit] --
    nothing is logged and the object is raised out of the loop. *)
Theorem C6_accept_loop_failures n s a rs x :
  closed s = false ->
  (outcome_of a = Raises x ->
   TThreadedServer_serve_loop (S n) s (a :: rs) =
   if isinstance_Exception x
   then prepend (seen (Accept (trans s)) a ++ [Log x])
          (TThreadedServer_serve_loop n (answered a s) rs)
   else Run (Raised x) (answered a s) rs (seen (Accept (trans s)) a)) /\
  (forall c t rs',
     outcome_of a = Returns c -> rs = t :: rs' -> outcome_of t = Raises x ->
     TThreadedServer_serve_loop (S n) s (a :: rs) =
     if isinstance_Exception x
     then prepend (seen (Accept (trans s)) a
                     ++ seen (ThreadStart (Handle c) (daemon s)) t ++ [Log x])
            (TThreadedServer_serve_loop n (after [a; t] s) rs')
     else Run (Raised x) (after [a; t] s) rs'
            (seen (Accept (trans s)) a
               ++ seen (ThreadStart (Handle c) (daemon s)) t)) /\
  isinstance_Exception KeyboardInterrupt = false.
Proof.
  intros Hc. split; [|split; [|reflexivity]].
  - intros Ha.
    apply TThreadedServer_round_raised; [done|].
    rewrite bind_eq, trans_accept_cons, Ha. reflexivity.
  - intros c t rs' Ha -> Ht.
    rewrite (TThreadedServer_round_raised n s _ x (after [a; t] s) rs'
               (seen (Accept (trans s)) a
                  ++ seen (ThreadStart (Handle c) (daemon s)) t)); [|done|].
    + destruct (isinstance_Exception x); [|done].
      by rewrite <- !app_assoc.
    + rewrite bind_eq, trans_accept_cons, Ha. cbn [res srv rest out].
      rewrite start_thread_cons, Ht, answered_daemon. reflexivity.
Qed.

(** The amended C6 on a run: a failed accept is logged and the next
    connection gets its worker; an interrupt stops the loop. *)
Lemma C6_accept_loop_failures_witness :
  TThreadedServer_serve_loop 2 sample_server
    [raising RuntimeError; raising KeyboardInterrupt] =
  prepend ([Accept sample_socket] ++ [Log RuntimeError])
    (TThreadedServer_serve_loop 1 sample_server [raising KeyboardInterrupt]) /\
  TThreadedServer_serve_loop 1 sample_server [raising KeyboardInterrupt] =
  Run (Raised KeyboardInterrupt) sample_server [] [Accept sample_socket].
Proof.
  split.
  - exact (proj1 (C6_accept_loop_failures 1 sample_server
                    (raising RuntimeError) [raising KeyboardInterrupt]
                    RuntimeError eq_refl) eq_refl).
  - exact (proj1 (C6_accept_loop_failures 0 sample_server
                    (raising KeyboardInterrupt) [] KeyboardInterrupt eq_refl)
             eq_refl).
Defined.

(** ** The accept loop of the pool (C7) *)

Lemma answered_clients r s : clients (answered r s) = clients s.
Proof. unfold answered. by destruct (close_during r). Qed.

Lemma out_bind_prefix {A B} (m : M A) (k : A -> M B) s rs :
  exists tl, out (bind m k s rs) = out (m s rs) ++ tl.
Proof.
  rewrite bind_eq. destruct (res (m s rs)); simpl.
  - eexists. reflexivity.
  - exists []. by rewrite app_nil_r.
  - exists []. by rewrite app_nil_r.
Qed.

Lemma out_try_except_prefix {A} (body : M A) h s rs :
  exists tl, out (try_except body h s rs) = out (body s rs) ++ tl.
Proof.
  rewrite try_except_eq.
  destruct (res (body s rs)) as [|x|]; try (exists []; by rewrite app_nil_r).
  destruct (h x); [|exists []; by rewrite app_nil_r].
  simpl. eexists. reflexivity.
Qed.

Lemma out_trans_accept s rs :
  exists tl, out (trans_accept s rs) = Accept (trans s) :: tl.
Proof.
  destruct rs as [|a rs]; [by exists []|].
  rewrite trans_accept_cons. unfold seen. simpl.
  destruct (close_during a); eexists; reflexivity.
Qed.

Lemma TThreadPoolServer_accept_loop_begins n s rs :
  closed s = false ->
  exists tl, out (TThreadPoolServer_accept_loop (S n) s rs)
             = Accept (trans s) :: tl.
Proof.
  intros Hc. unfold TThreadPoolServer_accept_loop.
  rewrite loop_S.
  match goal with
  | |- context [bind ?m ?k s rs] =>
      destruct (out_bind_prefix m k s rs) as [t1 ->]
  end.
  rewrite bind_attr, Hc.
  match goal with
  | |- context [try_except ?b ?h s rs] =>
      destruct (out_try_except_prefix b h s rs) as [t2 ->]
  end.
  match goal with
  | |- context [bind ?m ?k s rs] =>
      destruct (out_bind_prefix m k s rs) as [t3 ->]
  end.
  destruct (out_trans_accept s rs) as [t4 ->].
  simpl. eexists. reflexivity.
Qed.

Lemma TThreadPoolServer_accept_loop_skip n s a v rs :
  closed s = false -> outcome_of a = Returns v -> truthy v = false ->
  TThreadPoolServer_accept_loop (S n) s (a :: rs) =
  prepend (seen (Accept (trans s)) a)
    (TThreadPoolServer_accept_loop n (answered a s) rs).
Proof.
  intros Hc Ha Hv. unfold TThreadPoolServer_accept_loop.
  rewrite loop_S, bind_eq, bind_attr, Hc.
  rewrite try_except_eq, bind_eq, trans_accept_cons, Ha.
  cbn [res srv rest out]. rewrite Hv. simpl.
  unfold prepend. simpl. by rewrite ?app_nil_r.
Qed.

Lemma TThreadPoolServer_accept_loop_put n s a v rs :
  closed s = false -> outcome_of a = Returns v -> truthy v = true ->
  TThreadPoolServer_accept_loop (S n) s (a :: rs) =
  prepend (seen (Accept (trans s)) a ++ [QueuePut v])
    (TThreadPoolServer_accept_loop n
       (set_clients (clients s ++ [v]) (answered a s)) rs).
Proof.
  intros Hc Ha Hv. unfold TThreadPoolServer_accept_loop.
  rewrite loop_S, bind_eq, bind_attr, Hc.
  rewrite try_except_eq, bind_eq, trans_accept_cons, Ha.
  cbn [res srv rest out]. rewrite Hv. simpl.
  unfold prepend. simpl. by rewrite ?app_nil_r, answered_clients.
Qed.

Lemma queueable_truthy c : truthy c = true -> queueable c.
Proof. intros H. split; [done|]. by intros ->. Qed.

Lemma keeps_start_workers R P n :
  (forall s, R s s) -> (forall s1 s2 s3, R s1 s2 -> R s2 s3 -> R s1 s3) ->
  (forall s, R s (set_closed true s)) -> P CloseCalled ->
  (forall tg d, P (ThreadStart tg d)) -> (forall tg, P (ThreadRunning tg)) ->
  (forall x, P (Log x)) ->
  keeps R P (TThreadPoolServer_start_workers n).
Proof.
  intros H1 H2 H3 H4 H5 H6 H7. induction n as [|n IH]; simpl.
  - by apply keeps_ret.
  - apply keeps_bind; [done| |intros _; exact IH].
    repeat keeps_step ltac:(solve [eauto]).
Qed.

Lemma TThreadPoolServer_serve_queue :
  keeps queue_kept_clean puts_client_only TThreadPoolServer_serve.
Proof.
  assert (Hr : forall s, queue_kept_clean s s) by (by intros s H).
  assert (Ht : forall s1 s2 s3, queue_kept_clean s1 s2 ->
                 queue_kept_clean s2 s3 -> queue_kept_clean s1 s3)
    by (intros s1 s2 s3 H1 H2 H; auto).
  assert (Hc : forall s, queue_kept_clean s (set_closed true s))
    by (by intros s H).
  unfold TThreadPoolServer_serve, TThreadPoolServer_accept_loop.
  apply keeps_bind; [done|by apply keeps_attr|intros n].
  apply keeps_bind; [done| |intros _].
  { apply keeps_start_workers; try done; by intros; intros c' [=]. }
  repeat keeps_step ltac:(
    solve [ done | eauto | by intros c' [=]
          | match goal with
            | H : negb (truthy ?c) = false |- _ =>
                apply negb_false_iff in H;
                first [ by intros c' [= <-]; apply queueable_truthy
                      | intros Hq; simpl; apply Forall_app; split;
                        [done | by repeat constructor; apply queueable_truthy] ]
            end ]).
Qed.

(** C7.  In the accept loop of [TThreadPoolServer], with the flag
    clear, an [accept()] that returns [None] (or any object that tests
    false) puts nothing on the queue: the round consists of the accept
    call alone, the queue is as it was, and the loop goes round again,
    where, the flag being still clear, the next thing it does is to
    call [accept()].  In every run of [serve], whatever is put on the
    queue is a client that tests true, hence not [None], and a queue
    of such clients stays one. *)
Theorem C7_pool_skips_null n s a v rs :
  closed s = false -> outcome_of a = Returns v -> truthy v = false ->
  TThreadPoolServer_accept_loop (S n) s (a :: rs) =
    prepend (seen (Accept (trans s)) a)
      (TThreadPoolServer_accept_loop n (answered a s) rs) /\
  clients (answered a s) = clients s /\
  (forall n', closed (answered a s) = false ->
     exists tl, out (TThreadPoolServer_accept_loop (S n') (answered a s) rs)
                = Accept (trans (answered a s)) :: tl) /\
  (forall s0 rs0,
     Forall puts_client_only (out (TThreadPoolServer_serve s0 rs0)) /\
     queue_kept_clean s0 (srv (TThreadPoolServer_serve s0 rs0))).
Proof.
  intros Hc Ha Hv. split_and!.
  - by apply TThreadPoolServer_accept_loop_skip with (v := v).
  - apply answered_clients.
  - intros n' Hc'. by apply TThreadPoolServer_accept_loop_begins.
  - intros s0 rs0. destruct (TThreadPoolServer_serve_queue s0 rs0). done.
Qed.

(** C7 on a run: [None], then a client, then [None] again. *)
Lemma C7_pool_skips_null_witness :
  TThreadPoolServer_accept_loop 3 sample_server
    [gives PyNone; gives sample_client; gives PyNone] =
  prepend [Accept sample_socket]
    (TThreadPoolServer_accept_loop 2 sample_server
       [gives sample_client; gives PyNone]) /\
  clients (srv (TThreadPoolServer_accept_loop 3 sample_server
                  [gives PyNone; gives sample_client; gives PyNone]))
    = [sample_client].
Proof.
  split.
  - exact (proj1 (C7_pool_skips_null 2 sample_server (gives PyNone) PyNone
                    [gives sample_client; gives PyNone]
                    eq_refl eq_refl eq_refl)).
  - reflexivity.
Defined.

(** ** The worker of the threaded server does not read the flag (C4) *)

Lemma calls_app tr1 tr2 : calls (tr1 ++ tr2) = calls tr1 ++ calls tr2.
Proof. apply filter_app. Qed.

Lemma calls_seen ev r : ev <> CloseCalled -> calls (seen ev r) = [ev].
Proof.
  intros H. unfold calls, seen. destruct (close_during r);
    rewrite !filter_cons, ?filter_nil; repeat case_decide; congruence.
Qed.

Lemma alike_answered r r' s s' : alike s s' -> alike (answered r s) (answered r' s').
Proof.
  unfold alike, answered. intros H.
  destruct (close_during r), (close_during r'); exact H.
Qed.

Lemma blind_ret {A} (a : A) : flag_blind (ret a).
Proof. by intros s s' rs rs' Hs Hr. Qed.

Lemma blind_raise {A} x : flag_blind (@raise A x).
Proof. by intros s s' rs rs' Hs Hr. Qed.

Lemma blind_emit ev : flag_blind (emit ev).
Proof. by intros s s' rs rs' Hs Hr. Qed.

Lemma blind_attr {A} (f : TServer -> A) :
  (forall s, f (set_closed false s) = f s) -> flag_blind (attr f).
Proof.
  intros Hf s s' rs rs' Hs Hr. simpl. split_and!; try done.
  by rewrite <- (Hf s), <- (Hf s'), Hs.
Qed.

Lemma blind_call ev : ev <> CloseCalled -> flag_blind (call ev).
Proof.
  intros He s s' [|r rs] [|r' rs'] Hs Hr; try discriminate.
  - simpl. split_and!; try done.
  - injection Hr as Ho Hr. rewrite !call_cons, Ho. cbn [res srv rest out].
    rewrite !calls_seen by done. split_and!; try done.
    by apply alike_answered.
Qed.

Lemma blind_bind {A B} (m : M A) (k : A -> M B) :
  flag_blind m -> (forall a, flag_blind (k a)) -> flag_blind (bind m k).
Proof.
  intros Hm Hk s s' rs rs' Hs Hr. rewrite !bind_eq.
  destruct (Hm s s' rs rs' Hs Hr) as (E1 & E2 & E3 & E4).
  rewrite <- E1. destruct (res (m s rs)) as [a| |]; try done.
  destruct (Hk a _ _ _ _ E3 E4) as (F1 & F2 & F3 & F4).
  unfold prepend. cbn [res srv rest out]. rewrite !calls_app.
  split_and!; congruence.
Qed.

Lemma blind_try_except {A} (body : M A) h :
  flag_blind body -> (forall x k, h x = Some k -> flag_blind k) ->
  flag_blind (try_except body h).
Proof.
  intros Hm Hh s s' rs rs' Hs Hr. rewrite !try_except_eq.
  destruct (Hm s s' rs rs' Hs Hr) as (E1 & E2 & E3 & E4).
  rewrite <- E1. destruct (res (body s rs)) as [a|x|] eqn:E.
  - rewrite E. by split_and!.
  - destruct (h x) as [k|] eqn:Ek.
    + destruct (Hh x k Ek _ _ _ _ E3 E4) as (F1 & F2 & F3 & F4).
      unfold prepend. cbn [res srv rest out]. rewrite !calls_app.
      split_and!; congruence.
    + rewrite E. by split_and!.
  - rewrite E. by split_and!.
Qed.

Lemma blind_loop n (body : M ctl) : flag_blind body -> flag_blind (loop n body).
Proof.
  intros Hb. induction n as [|n IH].
  - by intros s s' rs rs' Hs Hr.
  - intros s s' rs rs' Hs Hr. rewrite !loop_S.
    apply blind_bind; try done. intros []; [done|apply blind_ret].
Qed.

Lemma blind_enough_fuel {A} (f : nat -> M A) :
  (forall n, flag_blind (f n)) -> flag_blind (enough_fuel f).
Proof.
  intros H s s' rs rs' Hs Hr. unfold enough_fuel.
  assert (E : length rs = length rs').
  { by rewrite <- (length_fmap outcome_of rs), Hr, length_fmap. }
  rewrite E. by apply H.
Qed.

Lemma blind_pump_handlers x k : pump_handlers x = Some k -> flag_blind k.
Proof.
  unfold pump_handlers. intros H.
  destruct (isinstance_TTransportException x);
    [|destruct (isinstance_Exception x)]; simplify_eq.
  - apply blind_ret.
  - apply blind_emit.
Qed.

Lemma blind_handle c : flag_blind (TThreadedServer_handle c).
Proof.
  unfold TThreadedServer_handle, TThreadedServer_handle_try, get_transport,
    get_protocol, transport_close, while_, processor_process.
  repeat first
    [ apply blind_ret
    | apply blind_attr; reflexivity
    | apply blind_call; discriminate
    | apply blind_try_except; [|apply blind_pump_handlers]
    | apply blind_enough_fuel; intros ?
    | apply blind_loop
    | apply blind_bind; [|intros ?]
    | match goal with |- flag_blind (if ?b then _ else _) => destruct b end ].
Qed.

Lemma pump_exit_unchecked_returns cl rs :
  forallb returns rs = true -> pump_exit false cl rs = (length rs, Pumping).
Proof.
  revert cl; induction rs as [|r rs IH]; intros cl; simpl; [done|].
  intros [Hr H]%andb_true_iff. unfold returns in Hr.
  destruct (outcome_of r); [|discriminate]. by rewrite IH.
Qed.

(** While every call returns, the worker is still pumping. *)
Lemma handle_keeps_pumping c s rs :
  forallb returns rs = true -> res (TThreadedServer_handle c s rs) = Blocked.
Proof.
  intros H.
  destruct rs as [|w1 [|w2 [|w3 [|w4 tl]]]].
  4: { simpl in H. apply andb_true_iff in H as [H1 H].
       apply andb_true_iff in H as [H2 H]. apply andb_true_iff in H as [H3 _].
       unfold returns in *.
       destruct w1 as [[|] []], w2 as [[|] []], w3 as [[|] []];
         try discriminate; reflexivity. }
  3: { simpl in H. apply andb_true_iff in H as [H1 H].
       apply andb_true_iff in H as [H2 _]. unfold returns in *.
       destruct w1 as [[|] []], w2 as [[|] []]; try discriminate; reflexivity. }
  2: { simpl in H. apply andb_true_iff in H as [H1 _]. unfold returns in *.
       destruct w1 as [[|] []]; try discriminate; reflexivity. }
  1: reflexivity.
  simpl in H. apply andb_true_iff in H as [H1 H].
  apply andb_true_iff in H as [H2 H]. apply andb_true_iff in H as [H3 H].
  apply andb_true_iff in H as [H4 H].
  change (TThreadedServer_handle c) with (pump Threaded c).
  rewrite pump_spec by done. cbv zeta. simpl checks_flag.
  rewrite pump_exit_unchecked_returns by done. reflexivity.
Qed.

Lemma pump_exit_unchecked_raise cl reqs q tl x :
  forallb returns reqs = true -> outcome_of q = Raises x ->
  pump_exit false cl (reqs ++ q :: tl)
  = (length (reqs ++ [q]),
     if isinstance_TTransportException x then Disconnected
     else if isinstance_Exception x then Failed x else Escaped x).
Proof.
  intros Hr Hq. revert cl.
  induction reqs as [|r reqs IH]; intros cl; simpl.
  - by rewrite Hq.
  - simpl in Hr. apply andb_true_iff in Hr as [H1 Hr]. unfold returns in H1.
    destruct (outcome_of r); [|discriminate]. by rewrite IH.
Qed.

(** The worker on a connection whose wrapping calls return and whose
    requests [reqs] are all answered: it has handed each of them to
    the processor, and one more that is pending. *)
Lemma handle_pumping c s w1 w2 w3 w4 reqs :
  returns w1 = true -> returns w2 = true ->
  returns w3 = true -> returns w4 = true ->
  forallb returns reqs = true ->
  let r := TThreadedServer_handle c s (w1 :: w2 :: w3 :: w4 :: reqs) in
  res r = Blocked /\
  events_of is_Process (out r)
    = replicate (S (length reqs))
        (Process (processor s) (Input, c) (Output, c)) /\
  events_of is_Close (out r) = [].
Proof.
  intros H1 H2 H3 H4 Hr. cbv zeta.
  change (TThreadedServer_handle c) with (pump Threaded c).
  rewrite pump_spec by done. cbv zeta. simpl checks_flag.
  rewrite pump_exit_unchecked_returns by done.
  cbn [fst snd normal_end end_result end_events]. rewrite firstn_all.
  unfold prepend. cbn [res srv rest out]. split; [done|].
  rewrite app_nil_r, !events_of_app, !events_of_wrap by done.
  rewrite (events_of_repeated_all is_Process),
    (events_of_repeated_none is_Close) by done.
  split; [|done]. simpl app.
  change (events_of is_Process [Process (processor s) (Input, c) (Output, c)])
    with [Process (processor s) (Input, c) (Output, c)].
  by rewrite <- replicate_S_end.
Qed.

(** The worker on a connection whose requests [reqs] are answered and
    whose next request raises an [Exception]: every one of these
    requests was handed to the processor, the failure is logged unless
    it is a disconnect, both transports are closed and the worker
    returns. *)
Lemma handle_serves_until_raise c s w1 w2 w3 w4 reqs q x c1 c2 tl :
  returns w1 = true -> returns w2 = true ->
  returns w3 = true -> returns w4 = true ->
  forallb returns reqs = true ->
  outcome_of q = Raises x -> isinstance_Exception x = true ->
  returns c1 = true -> returns c2 = true ->
  let r := TThreadedServer_handle c s
             (w1 :: w2 :: w3 :: w4 :: reqs ++ q :: c1 :: c2 :: tl) in
  res r = Done tt /\ rest r = tl /\
  events_of is_Process (out r)
    = replicate (S (length reqs))
        (Process (processor s) (Input, c) (Output, c)) /\
  events_of is_Log (out r)
    = (if isinstance_TTransportException x then [] else [Log x]) /\
  events_of is_Close (out r) = [Close (Input, c); Close (Output, c)].
Proof.
  intros H1 H2 H3 H4 Hr Hq Hx Hc1 Hc2. cbv zeta.
  change (TThreadedServer_handle c) with (pump Threaded c).
  rewrite pump_spec by done. cbv zeta. simpl checks_flag.
  rewrite (pump_exit_unchecked_raise _ reqs q (c1 :: c2 :: tl) x) by done.
  cbn [fst snd].
  assert (E : reqs ++ q :: c1 :: c2 :: tl = (reqs ++ [q]) ++ c1 :: c2 :: tl)
    by (by rewrite <- app_assoc).
  rewrite E, take_app_length, drop_app_length, close_both_spec.
  unfold returns in Hc1, Hc2.
  destruct (outcome_of c1); [|discriminate].
  destruct (outcome_of c2); [|discriminate].
  rewrite Hx.
  destruct (isinstance_TTransportException x);
    cbn [normal_end end_events]; unfold prepend; cbn [res srv rest out];
    (split; [done|]); (split; [done|]);
    rewrite !events_of_app, !events_of_wrap, !events_of_seen by done;
    rewrite (events_of_repeated_all is_Process),
      (events_of_repeated_none is_Log),
      (events_of_repeated_none is_Close) by done;
    rewrite length_app; simpl;
    replace (length reqs + 1) with (S (length reqs)) by lia;
    rewrite ?app_nil_r; done.
Qed.

(** C4.  [TThreadedServer.handle] does not read the flag: started on
    servers that differ only in [closed], and given answers that differ
    only in whether [close()] was called meanwhile, it makes the same
    calls, ends the same way and leaves as many replies.  Whatever the
    flag is and whenever [close()] is called, the worker pumps its
    connection: as long as the requests are answered it hands the next
    one to the processor, and it ends only when the connection does;
    at a disconnect, or a failure of the processor, it has handed every
    request to the processor, it logs the failure (not the disconnect),
    closes both transports and returns.  [close()] stops the accept
    loop: run after it, the loop returns at once, accepting nothing and
    starting no worker. *)
Theorem C4_worker_ignores_flag c s b :
  (forall rs rs',
     outcome_of <$> rs = outcome_of <$> rs' ->
     let r := TThreadedServer_handle c s rs in
     let r' := TThreadedServer_handle c (set_closed b s) rs' in
     res r' = res r /\ calls (out r') = calls (out r) /\
     length (rest r') = length (rest r)) /\
  (forall rs,
     forallb returns rs = true ->
     res (TThreadedServer_handle c (set_closed b s) rs) = Blocked) /\
  (forall w1 w2 w3 w4 reqs,
     forallb returns (w1 :: w2 :: w3 :: w4 :: reqs) = true ->
     let r := TThreadedServer_handle c (set_closed b s)
                (w1 :: w2 :: w3 :: w4 :: reqs) in
     res r = Blocked /\
     events_of is_Process (out r)
       = replicate (S (length reqs))
           (Process (processor s) (Input, c) (Output, c)) /\
     events_of is_Close (out r) = []) /\
  (forall w1 w2 w3 w4 reqs q x c1 c2 tl,
     forallb returns (w1 :: w2 :: w3 :: w4 :: reqs) = true ->
     outcome_of q = Raises x -> isinstance_Exception x = true ->
     returns c1 = true -> returns c2 = true ->
     let r := TThreadedServer_handle c (set_closed b s)
                (w1 :: w2 :: w3 :: w4 :: reqs ++ q :: c1 :: c2 :: tl) in
     res r = Done tt /\ rest r = tl /\
     events_of is_Process (out r)
       = replicate (S (length reqs))
           (Process (processor s) (Input, c) (Output, c)) /\
     events_of is_Log (out r)
       = (if isinstance_TTransportException x then [] else [Log x]) /\
     events_of is_Close (out r) = [Close (Input, c); Close (Output, c)]) /\
  (forall n rs rs0,
     TThreadedServer_serve_loop (S n) (srv (TThreadedServer_close s rs0)) rs
     = Run (Done tt) (set_closed true s) rs []).
Proof.
  split_and!.
  - intros rs rs' Hr r r'.
    assert (Ha : alike s (set_closed b s)) by reflexivity.
    destruct (blind_handle c s (set_closed b s) rs rs' Ha Hr)
      as (E1 & E2 & _ & E4).
    fold r in E1, E2, E4. fold r' in E1, E2, E4.
    split; [by symmetry|]. split; [by symmetry|].
    by rewrite <- (length_fmap outcome_of (rest r')), <- E4, length_fmap.
  - intros rs. apply handle_keeps_pumping.
  - intros w1 w2 w3 w4 reqs Hw. simpl in Hw.
    apply andb_true_iff in Hw as [H1 Hw].
    apply andb_true_iff in Hw as [H2 Hw].
    apply andb_true_iff in Hw as [H3 Hw].
    apply andb_true_iff in Hw as [H4 Hw].
    by apply (handle_pumping c (set_closed b s)).
  - intros w1 w2 w3 w4 reqs q x c1 c2 tl Hw Hq Hx Hc1 Hc2. simpl in Hw.
    apply andb_true_iff in Hw as [H1 Hw].
    apply andb_true_iff in Hw as [H2 Hw].
    apply andb_true_iff in Hw as [H3 Hw].
    apply andb_true_iff in Hw as [H4 Hw].
    by apply (handle_serves_until_raise c (set_closed b s)).
  - intros n rs rs0. unfold TThreadedServer_serve_loop.
    by rewrite while_S.
Qed.

(** C4 on a run: the flag set from the start and [close()] called
    during the first request change nothing for the worker, which
    serves the second request too, and the third, at which the client
    disconnects; then it closes both transports and returns. *)
Lemma C4_worker_ignores_flag_witness :
  let quiet := [ok; ok; ok; ok; ok; ok; raising TTransportException; ok; ok] in
  let noisy := [ok; ok; ok; ok; ok_closing; ok;
                raising TTransportException; ok; ok] in
  let r := TThreadedServer_handle sample_client sample_server quiet in
  let r' := TThreadedServer_handle sample_client
              (set_closed true sample_server) noisy in
  (res r' = res r /\ calls (out r') = calls (out r) /\
   length (rest r') = length (rest r)) /\
  (res r' = Done tt /\ rest r' = [] /\
   events_of is_Process (out r')
     = replicate 3 (Process sample_processor (Input, sample_client)
                      (Output, sample_client)) /\
   events_of is_Log (out r') = [] /\
   events_of is_Close (out r')
     = [Close (Input, sample_client); Close (Output, sample_client)]).
Proof.
  pose proof (C4_worker_ignores_flag sample_client sample_server true)
    as (H1 & _ & _ & H4 & _).
  split.
  - exact (H1 [ok; ok; ok; ok; ok; ok; raising TTransportException; ok; ok]
             [ok; ok; ok; ok; ok_closing; ok;
              raising TTransportException; ok; ok] eq_refl).
  - exact (H4 ok ok ok ok [ok_closing; ok] (raising TTransportException)
             TTransportException ok ok []
             eq_refl eq_refl eq_refl eq_refl eq_refl).
Defined.

(** ** The simple server and the stop flag (C5) *)

Lemma calm_app cl tr1 tr2 :
  calm cl (tr1 ++ tr2) = calm cl tr1 && calm (cl || marked tr1) tr2.
Proof.
  revert cl; induction tr1 as [|ev tr1 IH]; intros cl; simpl.
  - by rewrite orb_false_r.
  - by rewrite IH, andb_assoc, orb_assoc.
Qed.

Lemma marked_app tr1 tr2 : marked (tr1 ++ tr2) = marked tr1 || marked tr2.
Proof. apply existsb_app. Qed.

Lemma calm_true tr :
  calm true tr = true ->
  Forall (fun ev => is_Accept ev = false /\ is_Process ev = false) tr.
Proof.
  induction tr as [|ev tr IH]; simpl; [constructor|].
  intros [Hs Ht]%andb_true_iff. constructor; [|by apply IH].
  apply negb_true_iff in Hs. by apply orb_false_iff in Hs.
Qed.

Lemma calm_after_mark cl pre post :
  calm cl (pre ++ CloseCalled :: post) = true ->
  Forall (fun ev => is_Accept ev = false /\ is_Process ev = false) post.
Proof.
  rewrite calm_app. intros [_ H]%andb_true_iff. simpl in H.
  apply andb_true_iff in H as [_ H]. rewrite orb_true_r in H.
  by apply calm_true.
Qed.

Lemma heeds_ret {A} (a : A) : heeds (ret a).
Proof. intros s rs. simpl. by rewrite orb_false_r. Qed.

Lemma heeds_attr {A} (f : TServer -> A) : heeds (attr f).
Proof. intros s rs. simpl. by rewrite orb_false_r. Qed.

Lemma heeds_emit ev : serves ev = false -> is_mark ev = false -> heeds (emit ev).
Proof.
  intros H1 H2 s rs. simpl. rewrite H1, H2, !orb_false_r.
  by destruct (closed s).
Qed.

Lemma heeds_from_call s ev :
  is_mark ev = false -> (closed s = true -> serves ev = false) ->
  heeds_from s (call ev).
Proof.
  intros Hm Hs [|[o b] rs].
  - simpl. rewrite Hm, !orb_false_r.
    destruct (closed s); [by rewrite Hs|done].
  - rewrite call_cons. unfold seen, answered. simpl.
    destruct b; simpl; rewrite Hm, ?orb_false_r, ?orb_true_r;
      (destruct (closed s); [by rewrite Hs|done]).
Qed.

Lemma heeds_from_bind_at {A B} s (m : M A) (k : A -> M B) :
  heeds_from s m ->
  (forall a rs, res (m s rs) = Done a -> heeds_from (srv (m s rs)) (k a)) ->
  heeds_from s (bind m k).
Proof.
  intros Hm Hk rs. rewrite bind_eq. destruct (Hm rs) as [H1 H2].
  destruct (res (m s rs)) as [a| |] eqn:E; simpl; try done.
  destruct (Hk a rs E (rest (m s rs))) as [H3 H4].
  rewrite calm_app, marked_app, H1, H4, <- H2, H3. simpl.
  by rewrite H2, orb_assoc.
Qed.

Lemma heeds_from_bind {A B} s (m : M A) (k : A -> M B) :
  heeds_from s m -> (forall a, heeds (k a)) -> heeds_from s (bind m k).
Proof. intros Hm Hk. apply heeds_from_bind_at; [done|]. intros a rs _. apply Hk. Qed.

(** Reading an attribute and then making a call with it. *)
Lemma heeds_from_attr_call {A} s (f : TServer -> pyval) (ev : pyval -> event)
    (k : pyval -> M A) :
  (forall v, is_mark (ev v) = false) ->
  (closed s = true -> forall v, serves (ev v) = false) ->
  (forall v, heeds (k v)) ->
  heeds_from s (bind (attr f) (fun v => bind (call (ev v)) k)).
Proof.
  intros Hm Hs Hk. apply heeds_from_bind_at; [apply heeds_attr|].
  intros v rs _. simpl srv.
  apply heeds_from_bind; [|done].
  apply heeds_from_call; [done|]. intros Hc. by apply Hs.
Qed.

Lemma heeds_from_try_except {A} s (body : M A) h :
  heeds_from s body -> (forall x k, h x = Some k -> heeds k) ->
  heeds_from s (try_except body h).
Proof.
  intros Hm Hh rs. rewrite try_except_eq. destruct (Hm rs) as [H1 H2].
  destruct (res (body s rs)) as [|x|]; try done.
  destruct (h x) as [k|] eqn:E; [|done].
  destruct (Hh x k E (srv (body s rs)) (rest (body s rs))) as [H3 H4].
  simpl. rewrite calm_app, marked_app, H1, H4, <- H2, H3. simpl.
  by rewrite H2, orb_assoc.
Qed.

(** [while not self.closed: body], where [body] may enter an accept or
    a processor call: it is entered with the flag clear. *)
Lemma heeds_while n (body : M unit) :
  (forall s, closed s = false -> heeds_from s body) ->
  heeds (while_ n (fun self => negb (closed self)) body).
Proof.
  intros Hb. induction n as [|n IH]; intros s rs.
  - unfold while_. rewrite loop_O. simpl. by rewrite orb_false_r.
  - rewrite while_S. destruct (closed s) eqn:Hc; simpl.
    + done.
    + pose proof (heeds_from_bind s body (fun _ => while_ n _ body)
                    (Hb s Hc) (fun _ => IH) rs) as H.
      by rewrite Hc in H.
Qed.

Lemma heeds_pump_handlers x k : pump_handlers x = Some k -> heeds k.
Proof.
  unfold pump_handlers. intros H.
  destruct (isinstance_TTransportException x);
    [|destruct (isinstance_Exception x)]; simplify_eq.
  - apply heeds_ret.
  - by apply heeds_emit.
Qed.

Lemma heeds_TSimpleServer_pump c : heeds (TSimpleServer_pump c).
Proof.
  intros s. unfold TSimpleServer_pump, get_transport, get_protocol.
  apply heeds_from_bind.
  { apply heeds_from_attr_call; try done. intros _. apply heeds_ret. }
  intros itrans s1. apply heeds_from_bind.
  { apply heeds_from_attr_call; try done. intros _. apply heeds_ret. }
  intros otrans s2. apply heeds_from_bind.
  { apply heeds_from_attr_call; try done. intros _. apply heeds_ret. }
  intros iprot s3. apply heeds_from_bind.
  { apply heeds_from_attr_call; try done. intros _. apply heeds_ret. }
  intros oprot s4. apply heeds_from_bind.
  { apply heeds_from_try_except; [|apply heeds_pump_handlers].
    intros rs. unfold enough_fuel. apply heeds_while. clear.
    intros s Hc. unfold processor_process.
    apply heeds_from_attr_call; try done; [congruence|].
    intros _. apply heeds_ret. }
  intros _ s5. unfold transport_close. apply heeds_from_bind.
  { apply heeds_from_bind; [by apply heeds_from_call|]. intros _.
    apply heeds_ret. }
  intros _ s6.
  apply heeds_from_bind; [by apply heeds_from_call|]. intros _.
  apply heeds_ret.
Qed.

Lemma heeds_TSimpleServer_serve_loop n : heeds (TSimpleServer_serve_loop n).
Proof.
  apply heeds_while. intros s Hc.
  apply heeds_from_bind; [|apply heeds_TSimpleServer_pump].
  unfold trans_accept.
  apply heeds_from_bind_at; [apply heeds_attr|]. intros t rs _. simpl srv.
  apply heeds_from_call; [done|congruence].
Qed.

Lemma heeds_TSimpleServer_serve : heeds TSimpleServer_serve.
Proof.
  intros s. unfold TSimpleServer_serve, trans_listen.
  apply heeds_from_bind.
  { apply heeds_from_attr_call; try done. intros _. apply heeds_ret. }
  intros _ s' rs. apply heeds_TSimpleServer_serve_loop.
Qed.

(** The last round of [TSimpleServer.serve]: a client is accepted, the
    flag is seen set by its pump, both transports close, and the loop
    ends without another accept. *)
Lemma TSimpleServer_last_round n s a c w1 w2 w3 w4 rs c1 c2 tl :
  closed s = false -> outcome_of a = Returns c ->
  returns w1 = true -> returns w2 = true ->
  returns w3 = true -> returns w4 = true ->
  let s4 := after [a; w1; w2; w3; w4] s in
  let ne := pump_exit true (closed s4) rs in
  snd ne = Stopped ->
  drop (fst ne) rs = c1 :: c2 :: tl ->
  returns c1 = true -> returns c2 = true ->
  let r := TSimpleServer_serve_loop (S (S n)) s
             (a :: w1 :: w2 :: w3 :: w4 :: rs) in
  res r = Done tt /\ rest r = tl /\
  events_of is_Accept (out r) = [Accept (trans s)] /\
  events_of is_Process (out r)
    = replicate (fst ne) (Process (processor s) (Input, c) (Output, c)) /\
  events_of is_Close (out r) = [Close (Input, c); Close (Output, c)].
Proof.
  intros Hc Ha H1 H2 H3 H4 s4 ne He Hd Hc1 Hc2 r.
  set (P := TSimpleServer_pump c (answered a s) (w1 :: w2 :: w3 :: w4 :: rs)).
  assert (Hlen : length (take (fst ne) rs) = fst ne).
  { apply length_take_le. apply Nat.lt_le_incl.
    apply (lookup_lt_is_Some_1 rs (fst ne)).
    rewrite <- (take_drop (fst ne) rs) at 1.
    destruct (decide (fst ne <= length rs)) as [Hle|Hgt].
    - rewrite lookup_app_r by (rewrite length_take; lia).
      rewrite length_take, Hd.
      replace (fst ne - fst ne `min` length rs) with 0 by lia. by eexists.
    - rewrite drop_ge in Hd by lia. discriminate. }
  assert (HP : P = Run (Done tt)
                 (after (w1 :: w2 :: w3 :: w4 :: take (fst ne) rs ++ [c1; c2])
                    (answered a s)) tl
                 (wrap_events (answered a s) c w1 w2 w3 w4
                    ++ repeated (Process (processor s) (Input, c) (Output, c))
                         (take (fst ne) rs)
                    ++ seen (Close (Input, c)) c1
                    ++ seen (Close (Output, c)) c2)).
  { unfold P. change (TSimpleServer_pump c) with (pump Simple c).
    rewrite pump_spec by done. cbv zeta. simpl checks_flag.
    change (after [w1; w2; w3; w4] (answered a s)) with s4. fold ne.
    rewrite He, Hd, close_both_spec. simpl normal_end. cbv iota.
    unfold returns in Hc1, Hc2.
    destruct (outcome_of c1); [|discriminate].
    destruct (outcome_of c2); [|discriminate].
    unfold prepend. cbn [res srv rest out]. rewrite answered_processor.
    simpl end_events. rewrite app_nil_r, <- !app_assoc. f_equal.
    change (w1 :: w2 :: w3 :: w4 :: take (fst ne) rs ++ [c1; c2])
      with ([w1; w2; w3; w4] ++ take (fst ne) rs ++ [c1; c2]).
    rewrite !after_app. reflexivity. }
  assert (Hcl : closed (srv P) = true).
  { rewrite HP. cbn [srv].
    change (w1 :: w2 :: w3 :: w4 :: take (fst ne) rs ++ [c1; c2])
      with ([w1; w2; w3; w4] ++ take (fst ne) rs ++ [c1; c2]).
    rewrite !after_app. change (after [w1; w2; w3; w4] (answered a s)) with s4.
    rewrite after_closed, after_closed.
    pose proof (pump_exit_sound true (closed s4) rs) as Hs.
    cbv zeta in Hs. fold ne in Hs. rewrite He in Hs.
    destruct Hs as (_ & _ & ->). reflexivity. }
  assert (Hr : r = prepend (seen (Accept (trans s)) a ++ out P)
                     (Run (Done tt) (srv P) (rest P) [])).
  { unfold r. rewrite (TSimpleServer_serve_loop_round (S n) s a c) by
      (try done; fold P; by rewrite HP).
    fold P. f_equal. unfold TSimpleServer_serve_loop.
    by rewrite while_S, Hcl. }
  rewrite Hr, HP. unfold prepend. cbn [res srv rest out].
  rewrite app_nil_r. split; [done|]. split; [done|].
  rewrite !events_of_app, !events_of_wrap, !events_of_seen by done.
  rewrite (events_of_repeated_none is_Accept),
    (events_of_repeated_none is_Close),
    (events_of_repeated_all is_Process) by done.
  rewrite Hlen. simpl. by rewrite app_nil_r.
Qed.

(** C5.  In every run of [TSimpleServer.serve], after a call during
    which [close()] was called, no connection is accepted and no
    request is handed to the processor; started with the flag set, the
    accept loop returns at once.  The call in progress is not cut
    short: when [close()] is called while a connection is accepted,
    wrapped or served, that call is answered, the requests answered so
    far are all that are served, both transports are closed, and
    [serve] returns without another accept. *)
Theorem C5_simple_server_stops :
  (forall s rs pre post,
     out (TSimpleServer_serve s rs) = pre ++ CloseCalled :: post ->
     Forall (fun ev => is_Accept ev = false /\ is_Process ev = false) post) /\
  (forall n s rs,
     closed s = true ->
     TSimpleServer_serve_loop (S n) s rs = Run (Done tt) s rs []) /\
  (forall n s a c w1 w2 w3 w4 rs c1 c2 tl,
     closed s = false -> outcome_of a = Returns c ->
     returns w1 = true -> returns w2 = true ->
     returns w3 = true -> returns w4 = true ->
     let s4 := after [a; w1; w2; w3; w4] s in
     let ne := pump_exit true (closed s4) rs in
     snd ne = Stopped ->
     drop (fst ne) rs = c1 :: c2 :: tl ->
     returns c1 = true -> returns c2 = true ->
     let r := TSimpleServer_serve_loop (S (S n)) s
                (a :: w1 :: w2 :: w3 :: w4 :: rs) in
     res r = Done tt /\ rest r = tl /\
     events_of is_Accept (out r) = [Accept (trans s)] /\
     events_of is_Process (out r)
       = replicate (fst ne) (Process (processor s) (Input, c) (Output, c)) /\
     events_of is_Close (out r) = [Close (Input, c); Close (Output, c)]).
Proof.
  split; [|split].
  - intros s rs pre post E.
    destruct (heeds_TSimpleServer_serve s rs) as [H _].
    rewrite E in H. by apply calm_after_mark in H.
  - intros n s rs Hc. unfold TSimpleServer_serve_loop.
    by rewrite while_S, Hc.
  - apply TSimpleServer_last_round.
Qed.

(** C5 on a run: [close()] is called during the second request of a
    connection; that request is answered, no third one is read, the
    transports are closed and the loop ends without accepting the
    client that waits. *)
Lemma C5_simple_server_stops_witness :
  let r := TSimpleServer_serve_loop 2 sample_server
             [gives sample_client; ok; ok; ok; ok;
              ok; ok_closing; ok; ok; gives sample_client] in
  res r = Done tt /\ rest r = [gives sample_client] /\
  events_of is_Accept (out r) = [Accept sample_socket] /\
  events_of is_Process (out r)
    = replicate 2 (Process sample_processor (Input, sample_client)
                     (Output, sample_client)) /\
  events_of is_Close (out r)
    = [Close (Input, sample_client); Close (Output, sample_client)].
Proof.
  exact (proj2 (proj2 C5_simple_server_stops) 0 sample_server
           (gives sample_client) sample_client ok ok ok ok
           [ok; ok_closing; ok; ok; gives sample_client]
           ok ok [gives sample_client]
           eq_refl eq_refl eq_refl eq_refl eq_refl eq_refl
           eq_refl eq_refl eq_refl eq_refl).
Defined.

(** * Further properties of the servers *)

(** ** Failures that no handler covers *)

(** [TSimpleServer.serve] has no [try] around [accept()] nor around the
    wrapping and closing of a connection: with the flag clear, whatever
    [accept()] raises, and whatever the serving of an accepted
    connection raises, is raised out of the accept loop at once; it is
    not logged and no further connection is accepted. *)
Theorem simple_serve_unprotected n s a rs x :
  closed s = false ->
  (outcome_of a = Raises x ->
   TSimpleServer_serve_loop (S n) s (a :: rs)
   = Run (Raised x) (answered a s) rs (seen (Accept (trans s)) a)) /\
  (forall c,
     outcome_of a = Returns c ->
     res (TSimpleServer_pump c (answered a s) rs) = Raised x ->
     TSimpleServer_serve_loop (S n) s (a :: rs)
     = Run (Raised x)
         (srv (TSimpleServer_pump c (answered a s) rs))
         (rest (TSimpleServer_pump c (answered a s) rs))
         (seen (Accept (trans s)) a
            ++ out (TSimpleServer_pump c (answered a s) rs))).
Proof.
  intros Hc. split.
  - intros Ha. unfold TSimpleServer_serve_loop.
    rewrite while_S, Hc. simpl negb. cbv iota.
    rewrite bind_eq, bind_eq, trans_accept_cons, Ha. reflexivity.
  - intros c Ha Hp. unfold TSimpleServer_serve_loop.
    rewrite while_S, Hc. simpl negb. cbv iota.
    rewrite bind_eq, bind_eq, trans_accept_cons, Ha. simpl.
    rewrite Hp. reflexivity.
Qed.

(** On a run: a disconnect reported by [accept()] ends the simple
    server, and so does a failing [get_transport]. *)
Lemma simple_serve_unprotected_witness :
  TSimpleServer_serve_loop 2 sample_server
    [raising TTransportException; gives sample_client]
  = Run (Raised TTransportException) sample_server [gives sample_client]
      [Accept sample_socket] /\
  res (TSimpleServer_serve_loop 2 sample_server
         [gives sample_client; raising RuntimeError; gives sample_client])
  = Raised RuntimeError.
Proof.
  destruct (simple_serve_unprotected 1 sample_server
              (raising TTransportException) [gives sample_client]
              TTransportException eq_refl) as [H1 _].
  destruct (simple_serve_unprotected 1 sample_server
              (gives sample_client) [raising RuntimeError; gives sample_client]
              RuntimeError eq_refl) as [_ H2].
  split.
  - exact (H1 eq_refl).
  - exact (f_equal res (H2 sample_client eq_refl eq_refl)).
Defined.

(** In each of the three pumps the four wrapping calls come before the
    [try]: when one of them raises, the pump raises it at once, without
    a processor call, without a log entry and without closing anything,
    the wrappers already made included. *)
Theorem wrap_failure_closes_nothing v c s ws w rs x :
  length ws < 4 -> forallb returns ws = true -> outcome_of w = Raises x ->
  let r := pump v c s (ws ++ w :: rs) in
  res r = Raised x /\ rest r = rs /\
  Forall (fun ev => is_Process ev = false /\ is_Close ev = false /\
                    is_Log ev = false) (out r).
Proof.
  intros Hl Hw Hx.
  destruct w as [[?|x'] b]; simpl in Hx; [discriminate|].
  injection Hx as ->.
  destruct ws as [|[[?|?] b1] [|[[?|?] b2] [|[[?|?] b3] [|? ?]]]];
    simpl in Hl, Hw; try discriminate; try lia;
    destruct v, b; try destruct b1; try destruct b2; try destruct b3;
    repeat split; repeat constructor.
Qed.

(** On a run of the pool's pump: the output transport cannot be made,
    the input transport made before it is not closed. *)
Lemma wrap_failure_closes_nothing_witness :
  let r := TThreadPoolServer_serveClient sample_client sample_server
             ([ok] ++ raising RuntimeError :: [ok; ok]) in
  res r = Raised RuntimeError /\ rest r = [ok; ok] /\
  Forall (fun ev => is_Process ev = false /\ is_Close ev = false /\
                    is_Log ev = false) (out r).
Proof.
  apply (wrap_failure_closes_nothing Pool sample_client sample_server
           [ok] (raising RuntimeError) [ok; ok] RuntimeError);
    [simpl; lia|reflexivity|reflexivity].
Defined.

(** A pool worker outlives the connections it cannot serve.  When
    [serveClient] raises an [Exception] (a wrapping or closing call
    failed), [serveThread] logs it and goes round its loop again, on to
    the next queued client; the client that failed has left the queue
    and is not retried.  An object that is no [Exception] is raised out
    of [serveThread], unlogged: that worker ends. *)
Theorem worker_outlives_connection n s c q rs x :
  closed s = false -> clients s = c :: q ->
  let p := TThreadPoolServer_serveClient c (set_clients q s) rs in
  res p = Raised x ->
  TThreadPoolServer_serveThread_loop (S n) s rs =
  if isinstance_Exception x
  then prepend (QueueGet c :: out p ++ [Log x])
         (TThreadPoolServer_serveThread_loop n (srv p) (rest p))
  else Run (Raised x) (srv p) (rest p) (QueueGet c :: out p).
Proof.
  intros Hc Hq p Hp. subst p.
  assert (G : clients_get s rs = Run (Done c) (set_clients q s) rs [QueueGet c]).
  { unfold clients_get. by rewrite Hq. }
  set (P := TThreadPoolServer_serveClient c (set_clients q s) rs) in *.
  assert (B : bind clients_get
                (fun client =>
                   bind (TThreadPoolServer_serveClient client)
                     (fun _ => ret Next)) s rs
              = Run (Raised x) (srv P) (rest P) (QueueGet c :: out P)).
  { rewrite bind_eq, G. cbn [res srv rest out].
    rewrite bind_eq. fold P. rewrite Hp. reflexivity. }
  unfold TThreadPoolServer_serveThread_loop.
  rewrite loop_S, bind_eq, bind_attr, Hc.
  rewrite try_except_eq, B. cbn [res srv rest out].
  unfold log_handlers. destruct (isinstance_Exception x); [|reflexivity].
  unfold prepend. cbn. rewrite <- !app_assoc. reflexivity.
Qed.

(** On a run: the first client's input transport cannot be closed; the
    failure is logged and the second client is served. *)
Lemma worker_outlives_connection_witness :
  let s := set_clients [sample_client; PyObj "client2" true] sample_server in
  let rs := [ok; ok; ok; ok; raising TTransportException; raising RuntimeError;
             ok; ok; ok; ok; raising TTransportException; ok; ok_closing] in
  let p := TThreadPoolServer_serveClient sample_client
             (set_clients [PyObj "client2" true] s) rs in
  TThreadPoolServer_serveThread_loop 3 s rs =
  prepend (QueueGet sample_client :: out p ++ [Log RuntimeError])
    (TThreadPoolServer_serveThread_loop 2 (srv p) (rest p)).
Proof.
  exact (worker_outlives_connection 2
           (set_clients [sample_client; PyObj "client2" true] sample_server)
           sample_client [PyObj "client2" true]
           [ok; ok; ok; ok; raising TTransportException; raising RuntimeError;
            ok; ok; ok; ok; raising TTransportException; ok; ok_closing]
           RuntimeError eq_refl eq_refl eq_refl).
Defined.

(** ** The accept loops, round by round *)

Lemma TThreadPoolServer_accept_loop_raised n s a x rs :
  closed s = false -> outcome_of a = Raises x ->
  TThreadPoolServer_accept_loop (S n) s (a :: rs) =
  if isinstance_Exception x
  then prepend (seen (Accept (trans s)) a ++ [Log x])
         (TThreadPoolServer_accept_loop n (answered a s) rs)
  else Run (Raised x) (answered a s) rs (seen (Accept (trans s)) a).
Proof.
  intros Hc Ha. unfold TThreadPoolServer_accept_loop.
  rewrite loop_S, bind_eq, bind_attr, Hc.
  rewrite try_except_eq, bind_eq, trans_accept_cons, Ha.
  cbn [res srv rest out]. unfold log_handlers.
  destruct (isinstance_Exception x); [|reflexivity].
  unfold prepend. cbn. rewrite <- !app_assoc. reflexivity.
Qed.

(** In the accept loop of [TThreadPoolServer], with the flag clear, an
    [Exception] raised by [accept()] is logged and the loop goes round
    again.  There is no clause for [KeyboardInterrupt] here: it is
    raised out of [serve] like any object that is no [Exception],
    because [except Exception] does not match it. *)
Theorem pool_accept_failure n s a x rs :
  closed s = false -> outcome_of a = Raises x ->
  TThreadPoolServer_accept_loop (S n) s (a :: rs) =
  if isinstance_Exception x
  then prepend (seen (Accept (trans s)) a ++ [Log x])
         (TThreadPoolServer_accept_loop n (answered a s) rs)
  else Run (Raised x) (answered a s) rs (seen (Accept (trans s)) a).
Proof. apply TThreadPoolServer_accept_loop_raised. Qed.

(** On a run: a disconnect reported by [accept()] is logged and the
    next connection is queued. *)
Lemma pool_accept_failure_witness :
  TThreadPoolServer_accept_loop 3 sample_server
    [raising TTransportException; gives sample_client] =
  prepend [Accept sample_socket; Log TTransportException]
    (TThreadPoolServer_accept_loop 2 sample_server [gives sample_client]).
Proof.
  exact (pool_accept_failure 2 sample_server (raising TTransportException)
           TTransportException [gives sample_client] eq_refl eq_refl).
Defined.

(** [TThreadedServer.serve] tests neither the client nor the flag
    between [accept()] and the start of the thread: with the flag clear
    at the top of the loop, whatever [accept()] returns ([None]
    included, and also when [close()] was called while it waited) gets
    one thread that runs [handle] on it, with the server's [daemon]
    setting; then the loop goes round again. *)
Theorem threaded_thread_per_accept n s a c t w rs :
  closed s = false -> outcome_of a = Returns c -> outcome_of t = Returns w ->
  TThreadedServer_serve_loop (S n) s (a :: t :: rs) =
  prepend (seen (Accept (trans s)) a
             ++ seen (ThreadStart (Handle c) (daemon s)) t
             ++ [ThreadRunning (Handle c)])
    (TThreadedServer_serve_loop n (after [a; t] s) rs).
Proof.
  intros Hc Ha Ht. unfold TThreadedServer_serve_loop.
  rewrite while_S, Hc. simpl negb. cbv iota.
  rewrite bind_eq, try_except_eq, bind_eq, trans_accept_cons, Ha.
  cbn [res srv rest out]. rewrite start_thread_cons, Ht, answered_daemon.
  unfold prepend. cbn. rewrite <- !app_assoc. reflexivity.
Qed.

(** On a run: [accept()] returns [None] while [close()] is called; the
    thread is started all the same, and the loop ends after it. *)
Lemma threaded_thread_per_accept_witness :
  TThreadedServer_serve_loop 2 sample_server
    [Reply (Returns PyNone) true; ok; gives sample_client] =
  Run (Done tt) (set_closed true sample_server) [gives sample_client]
    [Accept sample_socket; CloseCalled;
     ThreadStart (Handle PyNone) (PyBool false);
     ThreadRunning (Handle PyNone)].
Proof.
  rewrite (threaded_thread_per_accept 1 sample_server
             (Reply (Returns PyNone) true) PyNone ok PyNone
             [gives sample_client] eq_refl eq_refl eq_refl).
  reflexivity.
Defined.

(** ** Listening, and serving a server that is closed *)

Lemma trans_listen_cons s l rs :
  trans_listen s (l :: rs) =
  Run (match outcome_of l with Returns _ => Done tt | Raises x => Raised x end)
      (answered l s) rs (seen (Listen (trans s)) l).
Proof. destruct l as [[w|x] [|]]; reflexivity. Qed.

Lemma after_trans rs s : trans (after rs s) = trans s.
Proof. pose proof (after_config rs s) as H. unfold config in H. congruence. Qed.

Lemma after_daemon rs s : daemon (after rs s) = daemon s.
Proof.
  revert s; induction rs as [|r rs IH]; intros s; simpl; [done|].
  by rewrite IH, answered_daemon.
Qed.

Lemma after_snoc rs r s : after (rs ++ [r]) s = answered r (after rs s).
Proof. by rewrite after_app. Qed.

(** No server protects [listen()]: when it raises, [serve] raises the
    same object at once, unlogged, and accepts nothing.  In the pool
    this happens after the workers were started. *)
Theorem listen_failure_ends_serve s l x rs :
  outcome_of l = Raises x ->
  TSimpleServer_serve s (l :: rs)
    = Run (Raised x) (answered l s) rs (seen (Listen (trans s)) l) /\
  TThreadedServer_serve s (l :: rs)
    = Run (Raised x) (answered l s) rs (seen (Listen (trans s)) l) /\
  (forall starts,
     length starts = Z.to_nat (threads s) ->
     forallb start_survived starts = true ->
     TThreadPoolServer_serve s (starts ++ l :: rs)
     = Run (Raised x) (after (starts ++ [l]) s) rs
         (start_events (daemon s) starts ++ seen (Listen (trans s)) l)).
Proof.
  intros Hl. split_and!.
  - unfold TSimpleServer_serve. by rewrite bind_eq, trans_listen_cons, Hl.
  - unfold TThreadedServer_serve. by rewrite bind_eq, trans_listen_cons, Hl.
  - intros starts Hn Hs. rewrite TThreadPoolServer_serve_spec by done.
    rewrite bind_eq, trans_listen_cons, Hl. unfold prepend.
    cbn [res srv rest out]. by rewrite after_snoc, after_trans.
Qed.

(** On a run: the port is taken. *)
Lemma listen_failure_ends_serve_witness :
  TThreadedServer_serve sample_server
    [raising (OtherException 98); gives sample_client]
  = Run (Raised (OtherException 98)) sample_server [gives sample_client]
      [Listen sample_socket].
Proof.
  exact (proj1 (proj2 (listen_failure_ends_serve sample_server
                         (raising (OtherException 98)) (OtherException 98)
                         [gives sample_client] eq_refl))).
Defined.

(** [serve()] called on a server that is already closed: the simple and
    the threaded server listen and return without accepting; the pool
    starts its workers all the same, listens and returns; and a pool
    worker returns at once, leaving the queue as it is. *)
Theorem serve_when_closed s l w rs :
  closed s = true -> outcome_of l = Returns w ->
  TSimpleServer_serve s (l :: rs)
    = Run (Done tt) (answered l s) rs (seen (Listen (trans s)) l) /\
  TThreadedServer_serve s (l :: rs)
    = Run (Done tt) (answered l s) rs (seen (Listen (trans s)) l) /\
  (forall starts,
     length starts = Z.to_nat (threads s) ->
     forallb start_survived starts = true ->
     TThreadPoolServer_serve s (starts ++ l :: rs)
     = Run (Done tt) (after (starts ++ [l]) s) rs
         (start_events (daemon s) starts ++ seen (Listen (trans s)) l)) /\
  TThreadPoolServer_serveThread s rs = Run (Done tt) s rs [].
Proof.
  intros Hc Hl.
  assert (Ha : forall s', closed s' = true -> closed (answered l s') = true).
  { intros s' H. by rewrite answered_closed, H. }
  split_and!.
  - unfold TSimpleServer_serve.
    rewrite bind_eq, trans_listen_cons, Hl. cbn [res srv rest out].
    unfold enough_fuel, TSimpleServer_serve_loop.
    rewrite while_S, (Ha s Hc). unfold prepend. cbn. by rewrite app_nil_r.
  - unfold TThreadedServer_serve.
    rewrite bind_eq, trans_listen_cons, Hl. cbn [res srv rest out].
    unfold enough_fuel, TThreadedServer_serve_loop.
    rewrite while_S, (Ha s Hc). unfold prepend. cbn. by rewrite app_nil_r.
  - intros starts Hn Hs. rewrite TThreadPoolServer_serve_spec by done.
    rewrite bind_eq, trans_listen_cons, Hl. cbn [res srv rest out].
    unfold enough_fuel, TThreadPoolServer_accept_loop.
    rewrite loop_S, bind_eq, bind_attr, Ha.
    + unfold prepend. cbn. by rewrite app_nil_r, after_snoc, after_trans.
    + by rewrite after_closed, Hc.
  - unfold TThreadPoolServer_serveThread, enough_fuel,
      TThreadPoolServer_serveThread_loop.
    by rewrite loop_S, bind_eq, bind_attr, Hc.
Qed.

(** On a run: a closed pool with two threads asked for. *)
Lemma serve_when_closed_witness :
  let s := set_closed true (TThreadPoolServer_setNumThreads 2 sample_server) in
  TThreadPoolServer_serve s ([ok; ok] ++ ok :: [gives sample_client])
  = Run (Done tt) s [gives sample_client]
      [ThreadStart ServeThread (PyBool false); ThreadRunning ServeThread;
       ThreadStart ServeThread (PyBool false); ThreadRunning ServeThread;
       Listen sample_socket].
Proof.
  exact (proj1 (proj2 (proj2
           (serve_when_closed
              (set_closed true (TThreadPoolServer_setNumThreads 2 sample_server))
              ok PyNone [gives sample_client] eq_refl eq_refl)))
           [ok; ok] eq_refl eq_refl).
Defined.

(** *** [serve] returns only once the flag is set *)

Lemma loop_done_closed n (body : M ctl) :
  (forall s rs, res (body s rs) = Done Break ->
                closed (srv (body s rs)) = true) ->
  forall s rs, res (loop n body s rs) = Done tt ->
               closed (srv (loop n body s rs)) = true.
Proof.
  intros Hb. induction n as [|n IH]; intros s rs; [by rewrite loop_O|].
  rewrite loop_S, bind_eq. specialize (Hb s rs).
  destruct (res (body s rs)) as [[|]| |]; cbn [res srv rest out prepend];
    try done.
  - apply IH.
  - intros _. by apply Hb.
Qed.

Lemma while_done_closed n (body : M unit) s rs :
  res (while_ n (fun self => negb (closed self)) body s rs) = Done tt ->
  closed (srv (while_ n (fun self => negb (closed self)) body s rs)) = true.
Proof.
  apply loop_done_closed. clear. intros s rs. rewrite bind_attr.
  destruct (closed s) eqn:Hc; simpl; [done|].
  rewrite bind_eq. by destruct (res (body s rs)).
Qed.

(** A guarded round of the pool's loops ends the loop only on the flag. *)
Lemma guarded_round_break (body : M ctl) s rs :
  (forall s' rs', res (body s' rs') <> Done Break) ->
  res (bind (attr closed)
         (fun c => if c then ret Break else try_except body log_handlers) s rs)
    = Done Break ->
  closed (srv (bind (attr closed)
                 (fun c => if c then ret Break
                           else try_except body log_handlers) s rs)) = true.
Proof.
  intros Hb. rewrite bind_attr. destruct (closed s) eqn:Hc; [done|].
  rewrite try_except_eq. specialize (Hb s rs).
  destruct (res (body s rs)) as [c|x|] eqn:E; rewrite ?E; try done.
  unfold log_handlers. destruct (isinstance_Exception x); [|by rewrite E].
  done.
Qed.

Lemma bind_done_inv {A B} (m : M A) (k : A -> M B) s rs b :
  res (bind m k s rs) = Done b ->
  exists a, res (m s rs) = Done a /\
            res (k a (srv (m s rs)) (rest (m s rs))) = Done b /\
            srv (bind m k s rs) = srv (k a (srv (m s rs)) (rest (m s rs))).
Proof.
  rewrite bind_eq. destruct (res (m s rs)) as [a| |]; try done.
  intros H. by exists a.
Qed.

Lemma TThreadPoolServer_accept_loop_done n s rs :
  res (TThreadPoolServer_accept_loop n s rs) = Done tt ->
  closed (srv (TThreadPoolServer_accept_loop n s rs)) = true.
Proof.
  apply loop_done_closed. clear. intros s rs. apply guarded_round_break.
  clear. intros s rs. rewrite bind_eq.
  destruct (res (trans_accept s rs)) as [c| |]; try done.
  destruct (negb (truthy c)); [done|].
  cbn [res srv rest out prepend]. rewrite bind_eq. done.
Qed.

Lemma TThreadPoolServer_serveThread_loop_done n s rs :
  res (TThreadPoolServer_serveThread_loop n s rs) = Done tt ->
  closed (srv (TThreadPoolServer_serveThread_loop n s rs)) = true.
Proof.
  apply loop_done_closed. clear. intros s rs. apply guarded_round_break.
  clear. intros s rs. rewrite bind_eq.
  destruct (res (clients_get s rs)) as [c| |]; try done.
  cbn [res srv rest out prepend]. rewrite bind_eq.
  by destruct (res (TThreadPoolServer_serveClient c _ _)).
Qed.

(** None of the serving loops has another way out than the flag: when
    [serve] (of any of the three servers) or a pool worker returns, the
    flag is set, so [close()] was called.  Short of that they keep
    running or end by raising. *)
Theorem serve_returns_only_closed s rs :
  (res (TSimpleServer_serve s rs) = Done tt ->
   closed (srv (TSimpleServer_serve s rs)) = true) /\
  (res (TThreadedServer_serve s rs) = Done tt ->
   closed (srv (TThreadedServer_serve s rs)) = true) /\
  (res (TThreadPoolServer_serve s rs) = Done tt ->
   closed (srv (TThreadPoolServer_serve s rs)) = true) /\
  (res (TThreadPoolServer_serveThread s rs) = Done tt ->
   closed (srv (TThreadPoolServer_serveThread s rs)) = true).
Proof.
  split_and!.
  - unfold TSimpleServer_serve. intros H.
    apply bind_done_inv in H as (a & _ & H & ->).
    by apply while_done_closed.
  - unfold TThreadedServer_serve. intros H.
    apply bind_done_inv in H as (a & _ & H & ->).
    by apply while_done_closed.
  - unfold TThreadPoolServer_serve. intros H.
    apply bind_done_inv in H as (n & _ & H & ->).
    apply bind_done_inv in H as (a & _ & H & ->).
    apply bind_done_inv in H as (a' & _ & H & ->).
    by apply TThreadPoolServer_accept_loop_done.
  - apply TThreadPoolServer_serveThread_loop_done.
Qed.

(** On a run of the simple server that returns. *)
Lemma serve_returns_only_closed_witness :
  let rs := [ok; gives sample_client; ok; ok; ok; ok; ok_closing; ok; ok] in
  res (TSimpleServer_serve sample_server rs) = Done tt /\
  closed (srv (TSimpleServer_serve sample_server rs)) = true.
Proof.
  split; [reflexivity|].
  exact (proj1 (serve_returns_only_closed sample_server
                  [ok; gives sample_client; ok; ok; ok; ok; ok_closing; ok; ok])
           eq_refl).
Defined.

(** *** One [listen()], before the first [accept()] *)

Lemma listens_first_none tr :
  Forall (fun ev => is_Listen ev = false /\ is_Accept ev = false) tr ->
  listens_first tr.
Proof.
  intros H. unfold listens_first. rewrite events_of_none; [done|].
  eapply Forall_impl; [exact H|]. by intros ev [-> ->].
Qed.

Lemma listens_first_intro pre t post :
  Forall (fun ev => is_Listen ev = false /\ is_Accept ev = false) pre ->
  Forall (fun ev => is_Listen ev = false) post ->
  listens_first (pre ++ Listen t :: post).
Proof.
  intros Hpre Hpost. unfold listens_first.
  rewrite events_of_app, events_of_none.
  2: { eapply Forall_impl; [exact Hpre|]. by intros ev [-> ->]. }
  unfold events_of. rewrite filter_cons. simpl. split; [done|].
  apply Forall_forall. intros ev [Hp Hin]%list_elem_of_filter.
  rewrite Forall_forall in Hpost. rewrite (Hpost ev Hin) in Hp. done.
Qed.

Lemma out_listen_then {A} (k : unit -> M A) (P : event -> Prop) s rs :
  P CloseCalled -> (forall s' rs', Forall P (out (k tt s' rs'))) ->
  exists tl, out (bind trans_listen k s rs) = Listen (trans s) :: tl /\
             Forall P tl.
Proof.
  intros Hm Hk. destruct rs as [|l rs].
  - exists []. split; [reflexivity|constructor].
  - rewrite bind_eq, trans_listen_cons. unfold seen.
    destruct (outcome_of l) as [w|x], (close_during l);
      cbn [res srv rest out prepend app];
      eexists; (split; [reflexivity|]); repeat constructor; auto.
Qed.

Lemma accept_loops_never_listen :
  keeps (fun _ _ => True) (fun ev => is_Listen ev = false)
    (enough_fuel TSimpleServer_serve_loop) /\
  keeps (fun _ _ => True) (fun ev => is_Listen ev = false)
    (enough_fuel TThreadedServer_serve_loop) /\
  keeps (fun _ _ => True) (fun ev => is_Listen ev = false)
    (enough_fuel TThreadPoolServer_accept_loop).
Proof.
  unfold TSimpleServer_serve_loop, TThreadedServer_serve_loop,
    TThreadPoolServer_accept_loop.
  split_and!; repeat keeps_step ltac:(solve [done | eauto]).
Qed.

(** Each [serve] calls [listen()] once, and before any [accept()]: in
    every run, the first of its [listen()] and [accept()] calls is a
    [listen()] and all the later ones are [accept()]s. *)
Theorem serve_listens_once_first s rs :
  listens_first (out (TSimpleServer_serve s rs)) /\
  listens_first (out (TThreadedServer_serve s rs)) /\
  listens_first (out (TThreadPoolServer_serve s rs)).
Proof.
  destruct accept_loops_never_listen as (H1 & H2 & H3).
  split_and!.
  - destruct (out_listen_then (fun _ => enough_fuel TSimpleServer_serve_loop)
                (fun ev => is_Listen ev = false) s rs) as (tl & E & Htl);
      [done|intros; apply H1|].
    unfold TSimpleServer_serve. rewrite E.
    by apply (listens_first_intro []).
  - destruct (out_listen_then (fun _ => enough_fuel TThreadedServer_serve_loop)
                (fun ev => is_Listen ev = false) s rs) as (tl & E & Htl);
      [done|intros; apply H2|].
    unfold TThreadedServer_serve. rewrite E.
    by apply (listens_first_intro []).
  - unfold TThreadPoolServer_serve. rewrite bind_attr, bind_eq.
    set (w := TThreadPoolServer_start_workers _ s rs).
    assert (Hw : Forall (fun ev => is_Listen ev = false /\ is_Accept ev = false)
                   (out w)).
    { apply (keeps_start_workers (fun _ _ => True)); by auto. }
    destruct (res w); [|by apply listens_first_none..].
    destruct (out_listen_then
                (fun _ => enough_fuel TThreadPoolServer_accept_loop)
                (fun ev => is_Listen ev = false) (srv w) (rest w))
      as (tl & E & Htl); [done|intros; apply H3|].
    unfold prepend. cbn [out]. rewrite E.
    by apply listens_first_intro.
Qed.

(** ** The queue of the pool *)

Lemma puts_app tr1 tr2 : puts (tr1 ++ tr2) = puts tr1 ++ puts tr2.
Proof. apply omap_app. Qed.

Lemma gets_app tr1 tr2 : gets (tr1 ++ tr2) = gets tr1 ++ gets tr2.
Proof. apply omap_app. Qed.

Lemma puts_seen ev r : put_of ev = None -> puts (seen ev r) = [].
Proof. intros H. unfold seen, puts. destruct (close_during r); simpl; by rewrite H. Qed.

Lemma gets_seen ev r : got_of ev = None -> gets (seen ev r) = [].
Proof. intros H. unfold seen, gets. destruct (close_during r); simpl; by rewrite H. Qed.

Lemma fifo_ret {A} (a : A) : fifo (ret a).
Proof. intros s rs. simpl. by rewrite app_nil_r. Qed.

Lemma fifo_raise {A} x : fifo (@raise A x).
Proof. intros s rs. simpl. by rewrite app_nil_r. Qed.

Lemma fifo_attr {A} (f : TServer -> A) : fifo (attr f).
Proof. intros s rs. simpl. by rewrite app_nil_r. Qed.

Lemma fifo_emit ev : put_of ev = None -> got_of ev = None -> fifo (emit ev).
Proof.
  intros Hp Hg s rs. unfold gets, puts. simpl. rewrite Hp, Hg. simpl.
  by rewrite app_nil_r.
Qed.

Lemma fifo_call ev : put_of ev = None -> got_of ev = None -> fifo (call ev).
Proof.
  intros Hp Hg s [|r rs].
  - unfold gets, puts. simpl. rewrite Hp, Hg. simpl. by rewrite app_nil_r.
  - rewrite call_cons. cbn [res srv rest out].
    by rewrite puts_seen, gets_seen, answered_clients, app_nil_r.
Qed.

Lemma fifo_clients_put c : fifo (clients_put c).
Proof. intros s rs. reflexivity. Qed.

Lemma fifo_clients_get : fifo clients_get.
Proof.
  intros s rs. unfold clients_get.
  destruct (clients s) as [|c q] eqn:E; simpl; by rewrite ?E, ?app_nil_r.
Qed.

Lemma fifo_bind {A B} (m : M A) (k : A -> M B) :
  fifo m -> (forall a, fifo (k a)) -> fifo (bind m k).
Proof.
  intros Hm Hk s rs. rewrite bind_eq. specialize (Hm s rs).
  destruct (res (m s rs)) as [a| |]; try done.
  specialize (Hk a (srv (m s rs)) (rest (m s rs))).
  unfold prepend. cbn [res srv rest out].
  rewrite gets_app, puts_app, <- app_assoc, Hk, !app_assoc. by rewrite Hm.
Qed.

Lemma fifo_try_except {A} (body : M A) h :
  fifo body -> (forall x k, h x = Some k -> fifo k) -> fifo (try_except body h).
Proof.
  intros Hm Hh s rs. rewrite try_except_eq. specialize (Hm s rs).
  destruct (res (body s rs)) as [|x|]; try done.
  destruct (h x) as [k|] eqn:E; [|done].
  specialize (Hh x k E (srv (body s rs)) (rest (body s rs))).
  unfold prepend. cbn [res srv rest out].
  rewrite gets_app, puts_app, <- app_assoc, Hh, !app_assoc. by rewrite Hm.
Qed.

Lemma fifo_loop n (body : M ctl) : fifo body -> fifo (loop n body).
Proof.
  intros Hb. induction n as [|n IH]; intros s rs.
  - rewrite loop_O. simpl. by rewrite app_nil_r.
  - rewrite loop_S. apply fifo_bind; [done|].
    intros []; [done|apply fifo_ret].
Qed.

Lemma fifo_while n cond (body : M unit) : fifo body -> fifo (while_ n cond body).
Proof.
  intros Hb. apply fifo_loop, fifo_bind; [apply fifo_attr|].
  intros []; [|apply fifo_ret].
  apply fifo_bind; [done|]. intros _. apply fifo_ret.
Qed.

Lemma fifo_enough_fuel {A} (f : nat -> M A) :
  (forall n, fifo (f n)) -> fifo (enough_fuel f).
Proof. intros H s rs. apply H. Qed.

Lemma fifo_pump_handlers x k : pump_handlers x = Some k -> fifo k.
Proof.
  unfold pump_handlers. intros H.
  destruct (isinstance_TTransportException x);
    [|destruct (isinstance_Exception x)]; simplify_eq.
  - apply fifo_ret.
  - by apply fifo_emit.
Qed.

Lemma fifo_log_handlers x k : log_handlers x = Some k -> fifo k.
Proof.
  unfold log_handlers. intros H. destruct (isinstance_Exception x); simplify_eq.
  apply fifo_bind; [by apply fifo_emit|]. intros _. apply fifo_ret.
Qed.

Lemma fifo_log_unit_handlers x k : log_unit_handlers x = Some k -> fifo k.
Proof.
  unfold log_unit_handlers. intros H.
  destruct (isinstance_Exception x); simplify_eq. by apply fifo_emit.
Qed.

Lemma fifo_accept_handlers x k : accept_handlers x = Some k -> fifo k.
Proof.
  unfold accept_handlers. intros H.
  destruct (isinstance_KeyboardInterrupt x);
    [|destruct (isinstance_Exception x)]; simplify_eq.
  - apply fifo_raise.
  - by apply fifo_emit.
Qed.

(** Follows the syntax of a method, as [keeps_step] does. *)
Ltac fifo_step :=
  cbv beta;
  lazymatch goal with
  | |- fifo (ret _) => apply fifo_ret
  | |- fifo (raise _) => apply fifo_raise
  | |- fifo (attr _) => apply fifo_attr
  | |- fifo (emit _) => apply fifo_emit; reflexivity
  | |- fifo (logger_exception _) => apply fifo_emit; reflexivity
  | |- fifo (call _) => apply fifo_call; reflexivity
  | |- fifo (clients_put _) => apply fifo_clients_put
  | |- fifo clients_get => apply fifo_clients_get
  | |- fifo (enough_fuel _) => apply fifo_enough_fuel
  | |- fifo (while_ _ _ _) => apply fifo_while
  | |- fifo (loop _ _) => apply fifo_loop
  | |- fifo (try_except _ pump_handlers) =>
      apply fifo_try_except; [|apply fifo_pump_handlers]
  | |- fifo (try_except _ log_handlers) =>
      apply fifo_try_except; [|apply fifo_log_handlers]
  | |- fifo (try_except _ log_unit_handlers) =>
      apply fifo_try_except; [|apply fifo_log_unit_handlers]
  | |- fifo (try_except _ accept_handlers) =>
      apply fifo_try_except; [|apply fifo_accept_handlers]
  | |- fifo (bind _ _) => apply fifo_bind
  | |- fifo (if ?b then _ else _) => destruct b
  | |- forall _, _ => intro
  end.

Lemma fifo_pump v c : fifo (pump v c).
Proof.
  destruct v; simpl;
    unfold TSimpleServer_pump, TThreadedServer_handle,
      TThreadPoolServer_serveClient, TSimpleServer_pump_try,
      TThreadedServer_handle_try, TThreadPoolServer_serveClient_try,
      get_transport, get_protocol, processor_process, transport_close;
    repeat fifo_step.
Qed.

Lemma fifo_start_workers n : fifo (TThreadPoolServer_start_workers n).
Proof.
  induction n as [|n IH]; simpl; [apply fifo_ret|].
  apply fifo_bind; [|intros _; exact IH].
  unfold start_thread. repeat fifo_step.
Qed.

Lemma fifo_perform m : fifo (perform m).
Proof.
  destruct m; simpl;
    try (intros s rs; simpl; by rewrite app_nil_r).
  - unfold TSimpleServer_serve, TSimpleServer_serve_loop, trans_listen,
      trans_accept.
    repeat first [apply (fifo_pump Simple) | fifo_step].
  - unfold TThreadedServer_serve, TThreadedServer_serve_loop, trans_listen,
      trans_accept, start_thread.
    repeat fifo_step.
  - apply (fifo_pump Threaded).
  - unfold TThreadPoolServer_serveThread, TThreadPoolServer_serveThread_loop.
    repeat first [apply (fifo_pump Pool) | fifo_step].
  - apply (fifo_pump Pool).
  - unfold TThreadPoolServer_serve, TThreadPoolServer_accept_loop,
      trans_listen, trans_accept.
    repeat first [apply fifo_start_workers | fifo_step].
Qed.

Lemma gets_none tr : Forall (fun ev => got_of ev = None) tr -> gets tr = [].
Proof.
  induction 1 as [|ev tr H _ IH]; [done|].
  change (gets (ev :: tr))
    with (match got_of ev with Some c => c :: gets tr | None => gets tr end).
  by rewrite H.
Qed.

Lemma puts_none tr : Forall (fun ev => put_of ev = None) tr -> puts tr = [].
Proof.
  induction 1 as [|ev tr H _ IH]; [done|].
  change (puts (ev :: tr))
    with (match put_of ev with Some c => c :: puts tr | None => puts tr end).
  by rewrite H.
Qed.

Lemma TThreadPoolServer_serve_takes_nothing s rs :
  gets (out (TThreadPoolServer_serve s rs)) = [].
Proof.
  apply gets_none.
  assert (H : keeps (fun _ _ => True) (fun ev => got_of ev = None)
                TThreadPoolServer_serve); [|apply H].
  unfold TThreadPoolServer_serve, TThreadPoolServer_accept_loop.
  apply keeps_bind; [done|by apply keeps_attr|intros n].
  apply keeps_bind; [done| |intros _].
  { by apply keeps_start_workers. }
  repeat keeps_step ltac:(solve [done | eauto]).
Qed.

Lemma TThreadPoolServer_serveThread_puts_nothing s rs :
  puts (out (TThreadPoolServer_serveThread s rs)) = [].
Proof.
  apply puts_none.
  assert (H : keeps (fun _ _ => True) (fun ev => put_of ev = None)
                TThreadPoolServer_serveThread); [|apply H].
  unfold TThreadPoolServer_serveThread, TThreadPoolServer_serveThread_loop.
  repeat keeps_step ltac:(solve [done | eauto]).
Qed.

(** The client queue is first in, first out, whatever method runs and
    whatever the collaborators answer: the clients taken during the
    run, followed by those still queued, are the clients queued before
    followed by those put during the run.  [serve] takes nothing from
    the queue and a worker puts nothing on it. *)
Theorem queue_first_in_first_out m s rs :
  gets (out (perform m s rs)) ++ clients (srv (perform m s rs))
    = clients s ++ puts (out (perform m s rs)) /\
  gets (out (TThreadPoolServer_serve s rs)) = [] /\
  puts (out (TThreadPoolServer_serveThread s rs)) = [].
Proof.
  split_and!.
  - apply fifo_perform.
  - apply TThreadPoolServer_serve_takes_nothing.
  - apply TThreadPoolServer_serveThread_puts_nothing.
Qed.

Lemma TThreadPoolServer_accept_loop_closed n s rs :
  closed s = true ->
  TThreadPoolServer_accept_loop (S n) s rs = Run (Done tt) s rs [].
Proof.
  intros Hc. unfold TThreadPoolServer_accept_loop.
  by rewrite loop_S, bind_eq, bind_attr, Hc.
Qed.

Lemma TThreadPoolServer_accept_loop_waiting n s :
  closed s = false ->
  TThreadPoolServer_accept_loop (S n) s [] = Run Blocked s [] [Accept (trans s)].
Proof.
  intros Hc. unfold TThreadPoolServer_accept_loop.
  by rewrite loop_S, bind_eq, bind_attr, Hc.
Qed.

Lemma enqueued_cons r rs :
  enqueued (r :: rs)
  = match passes r with Some v => v :: enqueued rs | None => enqueued rs end.
Proof. reflexivity. Qed.

(** What the accept loop of the pool puts on the queue: of the replies
    it consumed, which are the answers to its [accept()] calls, the
    clients that were returned and test true, in the order accepted;
    they are appended to the queue. *)
Theorem pool_accept_loop_enqueues n s rs :
  let r := TThreadPoolServer_accept_loop n s rs in
  exists used,
    rs = used ++ rest r /\
    puts (out r) = enqueued used /\
    clients (srv r) = clients s ++ enqueued used.
Proof.
  revert s rs. induction n as [|n IH]; intros s rs; cbv zeta.
  { exists []. unfold TThreadPoolServer_accept_loop. rewrite loop_O. simpl.
    by rewrite app_nil_r. }
  destruct (closed s) eqn:Hc.
  { rewrite TThreadPoolServer_accept_loop_closed by done.
    exists []. simpl. by rewrite app_nil_r. }
  destruct rs as [|a rs].
  { rewrite TThreadPoolServer_accept_loop_waiting by done.
    exists []. simpl. by rewrite app_nil_r. }
  destruct (outcome_of a) as [v|x] eqn:Ha; [destruct (truthy v) eqn:Hv|].
  - rewrite (TThreadPoolServer_accept_loop_put n s a v rs) by done.
    destruct (IH (set_clients (clients s ++ [v]) (answered a s)) rs)
      as (used & E1 & E2 & E3).
    assert (Hp : passes a = Some v) by (unfold passes; by rewrite Ha, Hv).
    exists (a :: used). unfold prepend. cbn [res srv rest out].
    rewrite enqueued_cons, Hp, !puts_app, puts_seen, E2, E3 by done.
    simpl. split_and!; [by rewrite <- E1|done|by rewrite <- app_assoc].
  - rewrite (TThreadPoolServer_accept_loop_skip n s a v rs) by done.
    destruct (IH (answered a s) rs) as (used & E1 & E2 & E3).
    assert (Hp : passes a = None) by (unfold passes; by rewrite Ha, Hv).
    exists (a :: used). unfold prepend. cbn [res srv rest out].
    rewrite enqueued_cons, Hp, !puts_app, puts_seen, E2, E3, answered_clients
      by done.
    simpl. split_and!; [by rewrite <- E1|done|done].
  - rewrite (TThreadPoolServer_accept_loop_raised n s a x rs) by done.
    assert (Hp : passes a = None) by (unfold passes; by rewrite Ha).
    destruct (isinstance_Exception x).
    + destruct (IH (answered a s) rs) as (used & E1 & E2 & E3).
      exists (a :: used). unfold prepend. cbn [res srv rest out].
      rewrite enqueued_cons, Hp, !puts_app, puts_seen, E2, E3, answered_clients
        by done.
      simpl. split_and!; [by rewrite <- E1|done|done].
    + exists [a]. cbn [res srv rest out].
      rewrite enqueued_cons, Hp, puts_seen, answered_clients by done.
      simpl. by rewrite app_nil_r.
Qed.

(** Clients are served in the order they were accepted: when a worker
    runs on the queue that [serve] left, having started with an empty
    queue, the clients the worker takes, followed by those it leaves,
    are the clients [serve] put, in that order. *)
Theorem served_in_accept_order s rs rs' :
  clients s = [] ->
  let r := TThreadPoolServer_serve s rs in
  let r' := TThreadPoolServer_serveThread (srv r) rs' in
  gets (out r') ++ clients (srv r') = puts (out r).
Proof.
  intros Hq r r'.
  assert (H1 : gets (out r) ++ clients (srv r) = clients s ++ puts (out r))
    by exact (fifo_perform PoolServe s rs).
  assert (H2 : gets (out r') ++ clients (srv r')
               = clients (srv r) ++ puts (out r'))
    by exact (fifo_perform PoolServeThread (srv r) rs').
  rewrite H2. unfold r'.
  rewrite TThreadPoolServer_serveThread_puts_nothing, app_nil_r.
  unfold r in *.
  by rewrite TThreadPoolServer_serve_takes_nothing, Hq in H1.
Qed.

(** On a run: two clients are accepted, with a null result between
    them; the worker serves the first and is closed during the last
    call of that connection, the second is left on the queue. *)
Lemma served_in_accept_order_witness :
  let c2 := PyObj "client2" true in
  let r := TThreadPoolServer_serve sample_server
             [ok; gives sample_client; gives PyNone; gives c2] in
  let r' := TThreadPoolServer_serveThread (srv r)
              [ok; ok; ok; ok; raising TTransportException; ok; ok_closing] in
  clients sample_server = [] /\
  gets (out r') ++ clients (srv r') = puts (out r) /\
  gets (out r') = [sample_client] /\ clients (srv r') = [c2].
Proof.
  split; [reflexivity|]. split; [|split; reflexivity].
  exact (served_in_accept_order sample_server
           [ok; gives sample_client; gives PyNone;
            gives (PyObj "client2" true)]
           [ok; ok; ok; ok; raising TTransportException; ok; ok_closing]
           eq_refl).
Defined.

(** ** The daemon setting of the threads *)

Section daemon_setting.
Variable d : pyval.

Lemma steady_ret {A} (a : A) : steady d (ret a).
Proof. intros s rs H. simpl. auto. Qed.

Lemma steady_raise {A} x : steady d (@raise A x).
Proof. intros s rs H. simpl. auto. Qed.

Lemma steady_attr {A} (f : TServer -> A) : steady d (attr f).
Proof. intros s rs H. simpl. auto. Qed.

Lemma steady_emit ev : thread_flag d ev -> steady d (emit ev).
Proof. intros He s rs H. simpl. auto. Qed.

Lemma steady_call ev : thread_flag d ev -> steady d (call ev).
Proof.
  intros He s [|r rs] H; [simpl; auto|].
  rewrite call_cons. cbn [res srv rest out]. rewrite answered_daemon.
  split; [done|]. unfold seen. destruct (close_during r); repeat constructor; done.
Qed.

Lemma steady_bind {A B} (m : M A) (k : A -> M B) :
  steady d m -> (forall a, steady d (k a)) -> steady d (bind m k).
Proof.
  intros Hm Hk s rs H. rewrite bind_eq. destruct (Hm s rs H) as [H1 H2].
  destruct (res (m s rs)) as [a| |]; try done.
  destruct (Hk a (srv (m s rs)) (rest (m s rs)) H1) as [H3 H4].
  unfold prepend. cbn [res srv rest out]. split; [done|]. by apply Forall_app.
Qed.

Lemma steady_try_except {A} (body : M A) h :
  steady d body -> (forall x k, h x = Some k -> steady d k) ->
  steady d (try_except body h).
Proof.
  intros Hm Hh s rs H. rewrite try_except_eq. destruct (Hm s rs H) as [H1 H2].
  destruct (res (body s rs)) as [|x|]; try done.
  destruct (h x) as [k|] eqn:E; [|done].
  destruct (Hh x k E (srv (body s rs)) (rest (body s rs)) H1) as [H3 H4].
  unfold prepend. cbn [res srv rest out]. split; [done|]. by apply Forall_app.
Qed.

Lemma steady_loop n (body : M ctl) : steady d body -> steady d (loop n body).
Proof.
  intros Hb. induction n as [|n IH]; intros s rs H.
  - rewrite loop_O. simpl. auto.
  - rewrite loop_S. revert s rs H. apply steady_bind; [done|].
    intros []; [done|apply steady_ret].
Qed.

Lemma steady_while n cond (body : M unit) :
  steady d body -> steady d (while_ n cond body).
Proof.
  intros Hb. apply steady_loop, steady_bind; [apply steady_attr|].
  intros []; [|apply steady_ret].
  apply steady_bind; [done|]. intros _. apply steady_ret.
Qed.

(** The thread is given [self.daemon] as it is when the thread is
    made. *)
Lemma steady_start_thread tg : steady d (start_thread tg).
Proof.
  intros s rs H. unfold start_thread. rewrite bind_attr. revert s rs H.
  intros s rs H.
  assert (S : steady d (bind (call (ThreadStart tg (daemon s)))
                          (fun _ => emit (ThreadRunning tg)))).
  { apply steady_bind; [by apply steady_call|].
    intros _. by apply steady_emit. }
  by apply S.
Qed.

Lemma steady_trans_listen : steady d trans_listen.
Proof.
  apply steady_bind; [apply steady_attr|]. intros t.
  apply steady_bind; [by apply steady_call|]. intros _. apply steady_ret.
Qed.

Lemma steady_trans_accept : steady d trans_accept.
Proof. apply steady_bind; [apply steady_attr|]. intros t. by apply steady_call. Qed.

Lemma steady_accept_handlers x k : accept_handlers x = Some k -> steady d k.
Proof.
  unfold accept_handlers. intros H.
  destruct (isinstance_KeyboardInterrupt x);
    [|destruct (isinstance_Exception x)]; simplify_eq.
  - apply steady_raise.
  - by apply steady_emit.
Qed.

Lemma steady_log_handlers x k : log_handlers x = Some k -> steady d k.
Proof.
  unfold log_handlers. intros H. destruct (isinstance_Exception x); simplify_eq.
  apply steady_bind; [by apply steady_emit|]. intros _. apply steady_ret.
Qed.

Lemma steady_log_unit_handlers x k : log_unit_handlers x = Some k -> steady d k.
Proof.
  unfold log_unit_handlers. intros H.
  destruct (isinstance_Exception x); simplify_eq. by apply steady_emit.
Qed.

Lemma steady_clients_put c : steady d (clients_put c).
Proof. intros s rs H. simpl. split; [done|]. by repeat constructor. Qed.

Lemma steady_start_workers n : steady d (TThreadPoolServer_start_workers n).
Proof.
  induction n as [|n IH]; simpl; [apply steady_ret|].
  apply steady_bind; [|intros _; exact IH].
  apply steady_try_except;
    [apply steady_start_thread|apply steady_log_unit_handlers].
Qed.

Lemma steady_TThreadedServer_serve : steady d TThreadedServer_serve.
Proof.
  apply steady_bind; [apply steady_trans_listen|]. intros _ s rs.
  apply steady_while, steady_try_except; [|apply steady_accept_handlers].
  apply steady_bind; [apply steady_trans_accept|]. intros c.
  apply steady_start_thread.
Qed.

Lemma steady_TThreadPoolServer_serve : steady d TThreadPoolServer_serve.
Proof.
  apply steady_bind; [apply steady_attr|]. intros n.
  apply steady_bind; [apply steady_start_workers|]. intros _.
  apply steady_bind; [apply steady_trans_listen|]. intros _ s rs.
  apply steady_loop, steady_bind; [apply steady_attr|].
  intros []; [apply steady_ret|].
  apply steady_try_except; [|apply steady_log_handlers].
  apply steady_bind; [apply steady_trans_accept|]. intros c.
  destruct (negb (truthy c)); [apply steady_ret|].
  apply steady_bind; [apply steady_clients_put|]. intros _. apply steady_ret.
Qed.
End daemon_setting.

(** Every thread a server starts is given the server's [daemon]
    attribute, which the constructor takes from the keyword [daemon]
    and sets to [False] without it: [TThreadedServer] for the thread of
    each connection, [TThreadPoolServer] for each worker. *)
Theorem threads_get_daemon_setting args kwargs s rs :
  (TThreadedServer_init args kwargs = inr s ->
   Forall (thread_flag (default (PyBool false) (kwargs !! "daemon")))
     (out (TThreadedServer_serve s rs))) /\
  (TThreadPoolServer_init args kwargs = inr s ->
   Forall (thread_flag (default (PyBool false) (kwargs !! "daemon")))
     (out (TThreadPoolServer_serve s rs))).
Proof.
  split; intros H.
  - apply steady_TThreadedServer_serve.
    unfold TThreadedServer_init in H.
    destruct (TServer_init args _); by simplify_eq.
  - apply steady_TThreadPoolServer_serve.
    by apply TThreadPoolServer_init_inr in H as (_ & s0 & _ & ->).
Qed.

(** On a run: a pool built with [daemon=True] and two threads. *)
Lemma threads_get_daemon_setting_witness :
  let kwargs : gmap string pyval := {[ "daemon" := PyBool true ]} in
  let s := set_closed false
             (set_daemon (PyBool true)
                (set_threads 10 (set_clients [] sample_server))) in
  TThreadPoolServer_init [sample_processor; sample_socket] kwargs = inr s /\
  Forall (thread_flag (default (PyBool false) (kwargs !! "daemon")))
    (out (TThreadPoolServer_serve s [ok; raising RuntimeError; ok])).
Proof.
  assert (E : TThreadPoolServer_init [sample_processor; sample_socket]
                {[ "daemon" := PyBool true ]}
              = inr (set_closed false
                       (set_daemon (PyBool true)
                          (set_threads 10 (set_clients [] sample_server))))).
  { rewrite TThreadPoolServer_init_binds by (by apply lookup_singleton_ne).
    by rewrite lookup_singleton_eq. }
  split; [exact E|].
  exact (proj2 (threads_get_daemon_setting
                  [sample_processor; sample_socket]
                  {[ "daemon" := PyBool true ]} _
                  [ok; raising RuntimeError; ok]) E).
Defined.

(** ** Calls that the constructors refuse *)

Lemma keyword_refused args (kwargs : gmap string pyval) name v :
  kwargs !! name = Some v -> keyword_ok (length args) name = false ->
  TServer_init args kwargs = inl TypeError.
Proof.
  intros Hk Hn. unfold TServer_init.
  destruct (negb (bool_decide (length args <= 6))); [done|].
  destruct (forallb _ _) eqn:E; [|done]. exfalso.
  rewrite forallb_forall in E.
  assert (Hin : In name (map_to_list kwargs).*1).
  { apply list_elem_of_In, list_elem_of_fmap. exists (name, v).
    split; [done|]. by apply elem_of_map_to_list. }
  rewrite (E name Hin) in Hn. discriminate.
Qed.

Lemma parameter_missing args (kwargs : gmap string pyval) i :
  i < 2 -> bind_param args kwargs i = None ->
  TServer_init args kwargs = inl TypeError.
Proof.
  intros Hi Hb. unfold TServer_init.
  destruct (negb _); [done|]. destruct (negb _); [done|].
  destruct i as [|[|i]]; [| |lia]; rewrite Hb; [done|].
  by destruct (bind_param args kwargs 0).
Qed.

(** The calls [TServer.__init__] does not accept raise [TypeError]:
    more than six positional arguments; a keyword that names no
    parameter; a keyword for a parameter that a positional argument
    already fills; no [trans], or no [processor], given either way.
    [TThreadedServer] passes its keywords on, [daemon] apart, so an
    unknown keyword is refused there too.  The constructor of
    [TThreadPoolServer] passes no keyword on: a keyword makes it fail
    only when it is named [self], the name of its first parameter
    (which [TThreadedServer] refuses as well); with any other keywords
    it fails exactly when the call without keywords fails.  Every
    keyword makes the constructor of [TSimpleServer] fail. *)
Theorem constructors_refuse args (kwargs : gmap string pyval) :
  (6 < length args -> TServer_init args kwargs = inl TypeError) /\
  (forall name v,
     kwargs !! name = Some v -> param_index name = None ->
     TServer_init args kwargs = inl TypeError) /\
  (forall name v i,
     kwargs !! name = Some v -> param_index name = Some i -> i < length args ->
     TServer_init args kwargs = inl TypeError) /\
  (length args < 2 -> kwargs !! "trans" = None ->
   TServer_init args kwargs = inl TypeError) /\
  (args = [] -> kwargs !! "processor" = None ->
   TServer_init args kwargs = inl TypeError) /\
  (forall name v,
     kwargs !! name = Some v -> name <> "daemon" -> param_index name = None ->
     TThreadedServer_init args kwargs = inl TypeError) /\
  (kwargs !! "self" = None ->
   forall e, TThreadPoolServer_init args kwargs = inl e <->
             TServer_init args ∅ = inl e) /\
  (is_Some (kwargs !! "self") ->
   TThreadPoolServer_init args kwargs = inl TypeError /\
   TThreadedServer_init args kwargs = inl TypeError) /\
  (kwargs <> ∅ -> TSimpleServer_init args kwargs = inl TypeError).
Proof.
  split_and!.
  - intros H. unfold TServer_init.
    rewrite bool_decide_false by lia. done.
  - intros name v Hk Hp. apply (keyword_refused _ _ name v); [done|].
    unfold keyword_ok. by rewrite Hp.
  - intros name v i Hk Hp Hi. apply (keyword_refused _ _ name v); [done|].
    unfold keyword_ok. rewrite Hp. apply bool_decide_false. lia.
  - intros Hl Hk. apply (parameter_missing _ _ 1); [lia|].
    unfold bind_param. rewrite lookup_ge_None_2 by lia. simpl. by rewrite Hk.
  - intros -> Hk. apply (parameter_missing _ _ 0); [lia|].
    unfold bind_param. simpl. by rewrite Hk.
  - intros name v Hk Hd Hp. unfold TThreadedServer_init.
    rewrite (keyword_refused args (delete "daemon" kwargs) name v); [done| |].
    + by rewrite lookup_delete_ne.
    + unfold keyword_ok. by rewrite Hp.
  - intros Hs e. rewrite TThreadPoolServer_init_binds by done.
    destruct (TServer_init args ∅); split; intros H; by simplify_eq.
  - intros Hs. split; [by apply TThreadPoolServer_init_self|].
    destruct Hs as [v Hk]. unfold TThreadedServer_init.
    rewrite (keyword_refused args (delete "daemon" kwargs) "self" v); [done| |].
    + by rewrite lookup_delete_ne.
    + reflexivity.
  - intros H. unfold TSimpleServer_init. by rewrite bool_decide_false.
Qed.

(** On calls: [TThreadedServer(processor, trans, timeout=3)] and
    [TThreadedServer(processor)]. *)
Lemma constructors_refuse_witness :
  TThreadedServer_init [sample_processor; sample_socket]
    {[ "timeout" := PyInt 3 ]} = inl TypeError /\
  TServer_init [sample_processor] ∅ = inl TypeError.
Proof.
  split.
  - apply (proj1 (proj2 (proj2 (proj2 (proj2 (proj2
             (constructors_refuse [sample_processor; sample_socket]
                {[ "timeout" := PyInt 3 ]}))))))
             "timeout" (PyInt 3)).
    + apply lookup_singleton_eq.
    + discriminate.
    + reflexivity.
  - apply (proj1 (proj2 (proj2 (proj2
             (constructors_refuse [sample_processor] ∅))))).
    + simpl. lia.
    + apply lookup_empty.
Defined.

(** ** A pool as the constructor leaves it *)



(** ** The stop flag in the threaded server and in the pool *)

Lemma idle_app cl tr1 tr2 :
  idle cl (tr1 ++ tr2) = idle cl tr1 && idle (cl || marked tr1) tr2.
Proof.
  revert cl; induction tr1 as [|ev tr1 IH]; intros cl; simpl.
  - by rewrite orb_false_r.
  - by rewrite IH, andb_assoc, orb_assoc.
Qed.

Lemma idle_true tr :
  idle true tr = true -> Forall (fun ev => takes_work ev = false) tr.
Proof.
  induction tr as [|ev tr IH]; simpl; [constructor|].
  intros [Hs Ht]%andb_true_iff. constructor; [|by apply IH].
  by apply negb_true_iff in Hs.
Qed.

Lemma idle_after_mark cl pre post :
  idle cl (pre ++ CloseCalled :: post) = true ->
  Forall (fun ev => takes_work ev = false) post.
Proof.
  rewrite idle_app. intros [_ H]%andb_true_iff. simpl in H.
  apply andb_true_iff in H as [_ H]. rewrite orb_true_r in H.
  by apply idle_true.
Qed.

Lemma stops_ret {A} (a : A) : stops (ret a).
Proof. intros s rs. simpl. by rewrite orb_false_r. Qed.

Lemma stops_raise {A} x : stops (@raise A x).
Proof. intros s rs. simpl. by rewrite orb_false_r. Qed.

Lemma stops_attr {A} (f : TServer -> A) : stops (attr f).
Proof. intros s rs. simpl. by rewrite orb_false_r. Qed.

Lemma stops_emit ev :
  takes_work ev = false -> is_mark ev = false -> stops (emit ev).
Proof.
  intros H1 H2 s rs. simpl. rewrite H1, H2, !orb_false_r.
  by destruct (closed s).
Qed.

Lemma stops_from_call s ev :
  is_mark ev = false -> (closed s = true -> takes_work ev = false) ->
  stops_from s (call ev).
Proof.
  intros Hm Hs [|[o b] rs].
  - simpl. rewrite Hm, !orb_false_r.
    destruct (closed s); [by rewrite Hs|done].
  - rewrite call_cons. unfold seen, answered. simpl.
    destruct b; simpl; rewrite Hm, ?orb_false_r, ?orb_true_r;
      (destruct (closed s); [by rewrite Hs|done]).
Qed.

Lemma stops_call ev :
  is_mark ev = false -> takes_work ev = false -> stops (call ev).
Proof. intros Hm Hw s. by apply stops_from_call. Qed.

Lemma stops_from_bind_at {A B} s (m : M A) (k : A -> M B) :
  stops_from s m ->
  (forall a rs, res (m s rs) = Done a -> stops_from (srv (m s rs)) (k a)) ->
  stops_from s (bind m k).
Proof.
  intros Hm Hk rs. rewrite bind_eq. destruct (Hm rs) as [H1 H2].
  destruct (res (m s rs)) as [a| |] eqn:E; simpl; try done.
  destruct (Hk a rs E (rest (m s rs))) as [H3 H4].
  rewrite idle_app, marked_app, H1, H4, <- H2, H3. simpl.
  by rewrite H2, orb_assoc.
Qed.

Lemma stops_from_bind {A B} s (m : M A) (k : A -> M B) :
  stops_from s m -> (forall a, stops (k a)) -> stops_from s (bind m k).
Proof. intros Hm Hk. apply stops_from_bind_at; [done|]. intros a rs _. apply Hk. Qed.

Lemma stops_bind {A B} (m : M A) (k : A -> M B) :
  stops m -> (forall a, stops (k a)) -> stops (bind m k).
Proof. intros Hm Hk s. by apply stops_from_bind. Qed.

Lemma stops_from_try_except {A} s (body : M A) h :
  stops_from s body -> (forall x k, h x = Some k -> stops k) ->
  stops_from s (try_except body h).
Proof.
  intros Hm Hh rs. rewrite try_except_eq. destruct (Hm rs) as [H1 H2].
  destruct (res (body s rs)) as [|x|]; try done.
  destruct (h x) as [k|] eqn:E; [|done].
  destruct (Hh x k E (srv (body s rs)) (rest (body s rs))) as [H3 H4].
  simpl. rewrite idle_app, marked_app, H1, H4, <- H2, H3. simpl.
  by rewrite H2, orb_assoc.
Qed.

(** [while not self.closed: body]: the body is entered with the flag
    clear. *)
Lemma stops_while n (body : M unit) :
  (forall s, closed s = false -> stops_from s body) ->
  stops (while_ n (fun self => negb (closed self)) body).
Proof.
  intros Hb. induction n as [|n IH]; intros s rs.
  - unfold while_. rewrite loop_O. simpl. by rewrite orb_false_r.
  - rewrite while_S. destruct (closed s) eqn:Hc; simpl.
    + done.
    + pose proof (stops_from_bind s body (fun _ => while_ n _ body)
                    (Hb s Hc) (fun _ => IH) rs) as H.
      by rewrite Hc in H.
Qed.

(** [while True: if self.closed: break; body] *)
Lemma stops_guarded_loop n (body : M ctl) :
  (forall s, closed s = false -> stops_from s body) ->
  stops (loop n (bind (attr closed)
                   (fun c => if c then ret Break else body))).
Proof.
  intros Hb. induction n as [|n IH]; intros s rs.
  - rewrite loop_O. simpl. by rewrite orb_false_r.
  - rewrite loop_S, bind_eq, bind_attr. destruct (closed s) eqn:Hc.
    + done.
    + pose proof (stops_from_bind s body
                    (fun c => match c with
                              | Next => loop n _
                              | Break => ret tt
                              end)
                    (Hb s Hc)
                    (fun c => match c with
                              | Next => IH
                              | Break => stops_ret tt
                              end) rs) as H.
      rewrite bind_eq, Hc in H. exact H.
Qed.

Lemma stops_pump_handlers x k : pump_handlers x = Some k -> stops k.
Proof.
  unfold pump_handlers. intros H.
  destruct (isinstance_TTransportException x);
    [|destruct (isinstance_Exception x)]; simplify_eq.
  - apply stops_ret.
  - by apply stops_emit.
Qed.

Lemma stops_log_handlers x k : log_handlers x = Some k -> stops k.
Proof.
  unfold log_handlers. intros H. destruct (isinstance_Exception x); simplify_eq.
  apply stops_bind; [by apply stops_emit|]. intros _. apply stops_ret.
Qed.

Lemma stops_log_unit_handlers x k : log_unit_handlers x = Some k -> stops k.
Proof.
  unfold log_unit_handlers. intros H.
  destruct (isinstance_Exception x); simplify_eq. by apply stops_emit.
Qed.

Lemma stops_accept_handlers x k : accept_handlers x = Some k -> stops k.
Proof.
  unfold accept_handlers. intros H.
  destruct (isinstance_KeyboardInterrupt x);
    [|destruct (isinstance_Exception x)]; simplify_eq.
  - apply stops_raise.
  - by apply stops_emit.
Qed.

(** Reading an attribute and making with it a call that takes up no
    work. *)
Lemma stops_attr_call {A B} (f : TServer -> A) (ev : A -> event)
    (k : pyval -> M B) :
  (forall v, is_mark (ev v) = false) -> (forall v, takes_work (ev v) = false) ->
  (forall v, stops (k v)) ->
  stops (bind (attr f) (fun v => bind (call (ev v)) k)).
Proof.
  intros Hm Hw Hk. apply stops_bind; [apply stops_attr|]. intros v.
  apply stops_bind; [by apply stops_call|done].
Qed.

Lemma stops_trans_listen : stops trans_listen.
Proof. apply stops_attr_call; try done. intros _. apply stops_ret. Qed.

Lemma stops_from_trans_accept s : closed s = false -> stops_from s trans_accept.
Proof.
  intros Hc. apply stops_from_bind_at; [apply stops_attr|].
  intros t rs _. simpl srv. apply stops_from_call; [done|congruence].
Qed.

Lemma stops_start_thread tg : stops (start_thread tg).
Proof. apply stops_attr_call; try done. intros _. by apply stops_emit. Qed.

Lemma stops_clients_put c : stops (clients_put c).
Proof. intros s rs. simpl. rewrite !orb_false_r. by destruct (closed s). Qed.

Lemma stops_from_clients_get s : closed s = false -> stops_from s clients_get.
Proof.
  intros Hc rs. unfold clients_get.
  destruct (clients s); simpl; by rewrite Hc.
Qed.

Lemma stops_start_workers n : stops (TThreadPoolServer_start_workers n).
Proof.
  induction n as [|n IH]; simpl; [apply stops_ret|].
  apply stops_bind; [|intros _; exact IH].
  intros s. apply stops_from_try_except;
    [apply stops_start_thread|apply stops_log_unit_handlers].
Qed.

Lemma stops_TThreadedServer_serve : stops TThreadedServer_serve.
Proof.
  apply stops_bind; [apply stops_trans_listen|]. intros _ s rs.
  apply stops_while. clear. intros s Hc.
  apply stops_from_try_except; [|apply stops_accept_handlers].
  apply stops_from_bind; [by apply stops_from_trans_accept|].
  intros c. apply stops_start_thread.
Qed.

Lemma stops_TThreadPoolServer_serve : stops TThreadPoolServer_serve.
Proof.
  apply stops_bind; [apply stops_attr|]. intros n.
  apply stops_bind; [apply stops_start_workers|]. intros _.
  apply stops_bind; [apply stops_trans_listen|]. intros _ s rs.
  apply stops_guarded_loop. clear. intros s Hc.
  apply stops_from_try_except; [|apply stops_log_handlers].
  apply stops_from_bind; [by apply stops_from_trans_accept|].
  intros c. destruct (negb (truthy c)); [apply stops_ret|].
  apply stops_bind; [apply stops_clients_put|]. intros _. apply stops_ret.
Qed.

Lemma stops_get_transport f sd c : stops (get_transport f sd c).
Proof. apply stops_attr_call; try done. intros _. apply stops_ret. Qed.

Lemma stops_get_protocol f tr : stops (get_protocol f tr).
Proof. apply stops_attr_call; try done. intros _. apply stops_ret. Qed.

Lemma stops_transport_close tr : stops (transport_close tr).
Proof. apply stops_bind; [by apply stops_call|]. intros _. apply stops_ret. Qed.

Lemma stops_from_processor_process s i o :
  closed s = false -> stops_from s (processor_process i o).
Proof.
  intros Hc. apply stops_from_bind_at; [apply stops_attr|].
  intros p rs _. simpl srv.
  apply stops_from_bind; [|intros _; apply stops_ret].
  apply stops_from_call; [done|congruence].
Qed.

Lemma stops_TThreadPoolServer_serveClient c :
  stops (TThreadPoolServer_serveClient c).
Proof.
  apply stops_bind; [apply stops_get_transport|]. intros itrans.
  apply stops_bind; [apply stops_get_transport|]. intros otrans.
  apply stops_bind; [apply stops_get_protocol|]. intros iprot.
  apply stops_bind; [apply stops_get_protocol|]. intros oprot.
  apply stops_bind.
  { intros s. apply stops_from_try_except; [|apply stops_pump_handlers].
    intros rs. apply stops_guarded_loop. clear. intros s Hc.
    apply stops_from_bind; [|intros _; apply stops_ret].
    by apply stops_from_processor_process. }
  intros _. apply stops_bind; [apply stops_transport_close|].
  intros _. apply stops_transport_close.
Qed.

Lemma stops_TThreadPoolServer_serveThread : stops TThreadPoolServer_serveThread.
Proof.
  intros s rs. apply stops_guarded_loop. clear. intros s Hc.
  apply stops_from_try_except; [|apply stops_log_handlers].
  apply stops_from_bind; [by apply stops_from_clients_get|].
  intros c. apply stops_bind; [apply stops_TThreadPoolServer_serveClient|].
  intros _. apply stops_ret.
Qed.

Lemma takes_work_false ev :
  takes_work ev = false ->
  is_Accept ev = false /\ is_Process ev = false /\ is_QueueGet ev = false.
Proof.
  unfold takes_work. intros [[? ?]%orb_false_iff ?]%orb_false_iff. done.
Qed.

(** In every run of [TThreadedServer.serve] and of
    [TThreadPoolServer.serve], no [accept()] is entered after a call
    during which [close()] was called.  (What that call brought is
    still dealt with: the thread is started, the client is queued.) *)
Theorem accept_loops_stop_on_close s rs pre post :
  (out (TThreadedServer_serve s rs) = pre ++ CloseCalled :: post ->
   Forall (fun ev => is_Accept ev = false) post) /\
  (out (TThreadPoolServer_serve s rs) = pre ++ CloseCalled :: post ->
   Forall (fun ev => is_Accept ev = false) post).
Proof.
  split; intros E.
  - destruct (stops_TThreadedServer_serve s rs) as [H _].
    rewrite E in H. apply idle_after_mark in H.
    eapply Forall_impl; [exact H|]. intros ev Hw.
    by apply takes_work_false in Hw as (? & _).
  - destruct (stops_TThreadPoolServer_serve s rs) as [H _].
    rewrite E in H. apply idle_after_mark in H.
    eapply Forall_impl; [exact H|]. intros ev Hw.
    by apply takes_work_false in Hw as (? & _).
Qed.

(** On a run of the threaded server: [close()] is called while the
    first connection is accepted; its thread is started, the second
    connection is not accepted. *)
Lemma accept_loops_stop_on_close_witness :
  out (TThreadedServer_serve sample_server
         [ok; Reply (Returns sample_client) true; ok; gives sample_client])
  = [Listen sample_socket; Accept sample_socket] ++ CloseCalled
      :: [ThreadStart (Handle sample_client) (PyBool false);
          ThreadRunning (Handle sample_client)] /\
  Forall (fun ev => is_Accept ev = false)
    [ThreadStart (Handle sample_client) (PyBool false);
     ThreadRunning (Handle sample_client)].
Proof.
  split; [reflexivity|].
  exact (proj1 (accept_loops_stop_on_close sample_server
                  [ok; Reply (Returns sample_client) true; ok;
                   gives sample_client]
                  [Listen sample_socket; Accept sample_socket]
                  [ThreadStart (Handle sample_client) (PyBool false);
                   ThreadRunning (Handle sample_client)])
           eq_refl).
Defined.

(** In every run of a pool worker ([TThreadPoolServer.serveThread]),
    after a call during which [close()] was called no client is taken
    from the queue and no request is handed to the processor: the
    clients still queued stay there. *)
Theorem pool_worker_stops_on_close s rs pre post :
  out (TThreadPoolServer_serveThread s rs) = pre ++ CloseCalled :: post ->
  Forall (fun ev => is_QueueGet ev = false /\ is_Process ev = false) post.
Proof.
  intros E. destruct (stops_TThreadPoolServer_serveThread s rs) as [H _].
  rewrite E in H. apply idle_after_mark in H.
  eapply Forall_impl; [exact H|]. intros ev Hw.
  by apply takes_work_false in Hw as (_ & ? & ?).
Qed.

(** On a run: [close()] is called during the second request of the
    first client; the transports are closed and the second client is
    left on the queue. *)
Lemma pool_worker_stops_on_close_witness :
  let s := set_clients [sample_client; PyObj "client2" true] sample_server in
  let r := TThreadPoolServer_serveThread s
             [ok; ok; ok; ok; ok; ok_closing; ok; ok; ok] in
  res r = Done tt /\ clients (srv r) = [PyObj "client2" true] /\
  Forall (fun ev => is_QueueGet ev = false /\ is_Process ev = false)
    [Close (Input, sample_client); Close (Output, sample_client)].
Proof.
  split; [reflexivity|]. split; [reflexivity|].
  apply (pool_worker_stops_on_close
           (set_clients [sample_client; PyObj "client2" true] sample_server)
           [ok; ok; ok; ok; ok; ok_closing; ok; ok; ok]
           [QueueGet sample_client;
            GetTransport TBufferedTransportFactory Input sample_client;
            GetTransport TBufferedTransportFactory Output sample_client;
            GetProtocol TBinaryProtocolFactory (Input, sample_client);
            GetProtocol TBinaryProtocolFactory (Output, sample_client);
            Process sample_processor (Input, sample_client)
              (Output, sample_client);
            Process sample_processor (Input, sample_client)
              (Output, sample_client)]).
  reflexivity.
Defined.

(** ** Who calls what *)

Lemma accept_side_leaves_connections :
  keeps (fun _ _ => True) (fun ev => on_connection ev = false)
    TThreadedServer_serve /\
  keeps (fun _ _ => True) (fun ev => on_connection ev = false)
    TThreadPoolServer_serve.
Proof.
  split.
  - unfold TThreadedServer_serve, TThreadedServer_serve_loop.
    repeat keeps_step ltac:(solve [done | eauto]).
  - unfold TThreadPoolServer_serve, TThreadPoolServer_accept_loop.
    apply keeps_bind; [done|by apply keeps_attr|intros n].
    apply keeps_bind; [done| |intros _].
    { by apply keeps_start_workers. }
    repeat keeps_step ltac:(solve [done | eauto]).
Qed.

(** The accepting threads and the serving threads keep to their own
    calls.  [serve] of the threaded server and of the pool makes no call
    on an accepted connection: no wrapping, no processor call, no
    close; so a slow client never holds up the accept loop.  And a pump
    never listens, accepts, starts a thread or touches the queue. *)
Theorem roles_kept_apart s rs :
  Forall (fun ev => on_connection ev = false)
    (out (TThreadedServer_serve s rs)) /\
  Forall (fun ev => on_connection ev = false)
    (out (TThreadPoolServer_serve s rs)) /\
  (forall v c, Forall (fun ev => on_listener ev = false) (out (pump v c s rs))).
Proof.
  destruct accept_side_leaves_connections as [H1 H2].
  split_and!; [apply H1|apply H2|].
  intros v c.
  by apply (keeps_pump (fun _ _ => True) (fun ev => on_listener ev = false)).
Qed.

(** ** What a pump logs *)

Lemma pump_unwrapped_quiet v c s rs :
  (forall w1 w2 w3 w4 tl, rs = w1 :: w2 :: w3 :: w4 :: tl ->
     forallb returns [w1; w2; w3; w4] = false) ->
  events_of is_Log (out (pump v c s rs)) = [].
Proof.
  intros H.
  destruct rs as [|[[x1|x1] b1] [|[[x2|x2] b2] [|[[x3|x3] b3] [|[[x4|x4] b4] tl]]]];
    try (specialize (H _ _ _ _ _ eq_refl); discriminate H);
    clear H; destruct v;
    repeat match goal with b : bool |- _ => destruct b end;
    reflexivity.
Qed.

Lemma events_of_close_both p c s rs :
  p CloseCalled = false -> (forall tr, p (Close tr) = false) ->
  events_of p (out (close_both c s rs)) = [].
Proof.
  intros Hm Hc. rewrite close_both_spec.
  destruct rs as [|c1 [|c2 t2]]; simpl.
  - unfold events_of. rewrite filter_cons, filter_nil. by rewrite Hc.
  - destruct (outcome_of c1); simpl;
      rewrite ?events_of_app, !events_of_seen, ?Hc by done; [|done].
    unfold events_of. rewrite filter_cons, filter_nil. by rewrite Hc.
  - destruct (outcome_of c1); simpl;
      by rewrite ?events_of_app, !events_of_seen, ?Hc.
Qed.

Lemma pump_exit_failed checks cl rs x :
  snd (pump_exit checks cl rs) = Failed x ->
  isinstance_Exception x = true /\ isinstance_TTransportException x = false.
Proof.
  intros H. pose proof (pump_exit_sound checks cl rs) as S. cbv zeta in S.
  rewrite H in S. destruct S as (pre & r & _ & _ & _ & He & Hx).
  split; [done|]. by destruct x.
Qed.

Lemma pump_log v c s rs :
  events_of is_Log (out (pump v c s rs)) = [] \/
  exists x, events_of is_Log (out (pump v c s rs)) = [Log x] /\
            isinstance_Exception x = true /\
            isinstance_TTransportException x = false.
Proof.
  assert (Hcase : (exists w1 w2 w3 w4 tl, rs = w1 :: w2 :: w3 :: w4 :: tl /\
                      forallb returns [w1; w2; w3; w4] = true) \/
                  (forall w1 w2 w3 w4 tl, rs = w1 :: w2 :: w3 :: w4 :: tl ->
                     forallb returns [w1; w2; w3; w4] = false)).
  { destruct rs as [|w1 [|w2 [|w3 [|w4 tl]]]]; try (right; discriminate).
    destruct (forallb returns [w1; w2; w3; w4]) eqn:E.
    - left. by exists w1, w2, w3, w4, tl.
    - right. intros ? ? ? ? ? [= <- <- <- <- <-]. exact E. }
  destruct Hcase as [(w1 & w2 & w3 & w4 & tl & -> & Hw)|Hn].
  - simpl in Hw. rewrite andb_true_r in Hw.
    apply andb_true_iff in Hw as [H1 Hw].
    apply andb_true_iff in Hw as [H2 Hw].
    apply andb_true_iff in Hw as [H3 H4].
    rewrite pump_spec by done. cbv zeta.
    set (s4 := after [w1; w2; w3; w4] s).
    pose proof (pump_exit_failed (checks_flag v) (closed s4) tl) as Hf.
    set (ne := pump_exit _ _ _) in *.
    unfold prepend. cbn [out].
    rewrite !events_of_app, events_of_wrap by done.
    rewrite <- events_of_app, events_of_Log_pump_try by done.
    assert (Hq : events_of is_Log
                   (out (if normal_end (snd ne)
                         then close_both c (after (take (fst ne) tl) s4)
                                (drop (fst ne) tl)
                         else Run (end_result (snd ne))
                                (after (take (fst ne) tl) s4)
                                (drop (fst ne) tl) [])) = []).
    { destruct (normal_end (snd ne)); [|done].
      by apply events_of_close_both. }
    rewrite Hq, app_nil_r. simpl.
    destruct (snd ne) as [| |x|x|]; try (by left).
    right. exists x. split; [done|]. by apply Hf.
  - left. by apply pump_unwrapped_quiet.
Qed.

(** Whatever the collaborators answer, the serving of a connection
    writes at most one log entry, and only for an [Exception] that is
    not a [TTransportException]: a disconnect is never logged. *)
Theorem pump_logs_at_most_once v c s rs :
  length (events_of is_Log (out (pump v c s rs))) <= 1 /\
  (forall x, In (Log x) (out (pump v c s rs)) ->
     isinstance_Exception x = true /\
     isinstance_TTransportException x = false).
Proof.
  destruct (pump_log v c s rs) as [E|(x & E & Hx)].
  - rewrite E. split; [simpl; lia|]. intros x Hin.
    assert (Hl : Log x ∈ events_of is_Log (out (pump v c s rs))).
    { apply list_elem_of_filter. split; [done|]. by apply list_elem_of_In. }
    rewrite E in Hl. by apply elem_of_nil in Hl.
  - rewrite E. split; [simpl; lia|]. intros x' Hin.
    assert (Hl : Log x' ∈ events_of is_Log (out (pump v c s rs))).
    { apply list_elem_of_filter. split; [done|]. by apply list_elem_of_In. }
    rewrite E in Hl. apply list_elem_of_singleton in Hl. by simplify_eq.
Qed.

(** On a run of the simple server's pump: the second request fails. *)
Lemma pump_logs_at_most_once_witness :
  let r := TSimpleServer_pump sample_client sample_server
             [ok; ok; ok; ok; ok; raising (OtherException 7); ok; ok] in
  In (Log (OtherException 7)) (out r) /\
  isinstance_Exception (OtherException 7) = true /\
  isinstance_TTransportException (OtherException 7) = false.
Proof.
  assert (H : In (Log (OtherException 7))
                (out (pump Simple sample_client sample_server
                        [ok; ok; ok; ok; ok; raising (OtherException 7);
                         ok; ok]))).
  { simpl. tauto. }
  split; [exact H|].
  exact (proj2 (pump_logs_at_most_once Simple sample_client sample_server
                  [ok; ok; ok; ok; ok; raising (OtherException 7); ok; ok])
           (OtherException 7) H).
Defined.

(** ** The simple server serves one connection at a time *)

Lemma serial_app ready tr1 tr2 :
  serial ready (tr1 ++ tr2)
  = serial ready tr1 && serial (ready_after ready tr1) tr2.
Proof.
  revert ready; induction tr1 as [|ev tr1 IH]; intros ready; [done|].
  simpl. rewrite IH, andb_assoc. f_equal. f_equal.
  unfold ready_after. rewrite last_cons. by destruct (last tr1).
Qed.

Lemma serial_no_accept ready tr :
  Forall (fun ev => is_Accept ev = false) tr -> serial ready tr = true.
Proof.
  intros H. revert ready. induction H as [|ev tr He _ IH]; intros ready; [done|].
  simpl. by rewrite He, IH.
Qed.

Lemma ready_after_snoc ready tr ev : ready_after ready (tr ++ [ev]) = frees ev.
Proof. unfold ready_after. by rewrite last_snoc. Qed.

Lemma pump_never_accepts v c s rs :
  Forall (fun ev => is_Accept ev = false) (out (pump v c s rs)).
Proof. by apply (keeps_pump (fun _ _ => True) (fun ev => is_Accept ev = false)). Qed.

(** A pump that returns with the flag clear has just closed the output
    transport. *)
Lemma pump_done_last v c s rs :
  res (pump v c s rs) = Done tt -> closed (srv (pump v c s rs)) = false ->
  exists pre, out (pump v c s rs) = pre ++ [Close (Output, c)].
Proof.
  intros Hd Hc.
  assert (Hcase : (exists w1 w2 w3 w4 tl, rs = w1 :: w2 :: w3 :: w4 :: tl /\
                      forallb returns [w1; w2; w3; w4] = true) \/
                  (forall w1 w2 w3 w4 tl, rs = w1 :: w2 :: w3 :: w4 :: tl ->
                     forallb returns [w1; w2; w3; w4] = false)).
  { destruct rs as [|w1 [|w2 [|w3 [|w4 tl]]]]; try (right; discriminate).
    destruct (forallb returns [w1; w2; w3; w4]) eqn:E.
    - left. by exists w1, w2, w3, w4, tl.
    - right. intros ? ? ? ? ? [= <- <- <- <- <-]. exact E. }
  destruct Hcase as [(w1 & w2 & w3 & w4 & tl & -> & Hw)|Hn].
  2: { by destruct (pump_unwrapped v c s rs Hn) as [_ ?]. }
  simpl in Hw. rewrite andb_true_r in Hw.
  apply andb_true_iff in Hw as [H1 Hw].
  apply andb_true_iff in Hw as [H2 Hw].
  apply andb_true_iff in Hw as [H3 H4].
  revert Hd Hc. rewrite pump_spec by done. cbv zeta.
  set (s4 := after [w1; w2; w3; w4] s).
  set (ne := pump_exit _ _ _).
  unfold prepend. cbn [res srv rest out].
  destruct (snd ne); cbn [normal_end end_result res]; try done;
    rewrite close_both_spec;
    (destruct (drop (fst ne) tl) as [|c1 [|c2 t2]]; cbn [res srv rest out];
       [done|by destruct (outcome_of c1)|]);
    (destruct (outcome_of c1); [|done]);
    (destruct (outcome_of c2); cbn [res srv rest out]; [|done]);
    intros _ Hc; rewrite answered_closed in Hc;
    apply orb_false_iff in Hc as [_ Hc];
    (assert (seen (Close (Output, c)) c2 = [Close (Output, c)]) as ->
       by (unfold seen; by rewrite Hc));
    eexists; by rewrite !app_assoc.
Qed.

Lemma TSimpleServer_serve_loop_accepted n s a c rs :
  closed s = false -> outcome_of a = Returns c ->
  TSimpleServer_serve_loop (S n) s (a :: rs) =
  prepend (seen (Accept (trans s)) a)
    (bind (TSimpleServer_pump c) (fun _ => TSimpleServer_serve_loop n)
       (answered a s) rs).
Proof.
  intros Hc Ha. unfold TSimpleServer_serve_loop at 1.
  rewrite while_S, Hc. simpl negb. cbv iota.
  rewrite !bind_eq, trans_accept_cons, Ha. cbn [res srv rest out].
  fold (TSimpleServer_serve_loop n).
  set (p := TSimpleServer_pump c (answered a s) rs).
  destruct (res p) eqn:E; unfold prepend; cbn [res srv rest out];
    rewrite ?E; cbn [res srv rest out]; by rewrite ?app_nil_r, ?app_assoc.
Qed.

Lemma serial_seen_accept t a tr :
  serial true (seen (Accept t) a ++ tr) = serial false tr.
Proof. unfold seen. by destruct (close_during a). Qed.

Lemma serial_TSimpleServer_serve_loop n s rs ready :
  (closed s = false -> ready = true) ->
  serial ready (out (TSimpleServer_serve_loop n s rs)) = true.
Proof.
  revert s rs ready. induction n as [|n IH]; intros s rs ready Hr.
  { unfold TSimpleServer_serve_loop, while_. by rewrite loop_O. }
  destruct (closed s) eqn:Hc.
  { unfold TSimpleServer_serve_loop. by rewrite while_S, Hc. }
  rewrite (Hr eq_refl). clear Hr.
  destruct rs as [|a rs].
  { unfold TSimpleServer_serve_loop. rewrite while_S, Hc. reflexivity. }
  destruct (outcome_of a) as [c|x] eqn:Ha.
  2: { unfold TSimpleServer_serve_loop.
       rewrite while_S, Hc. simpl negb. cbv iota.
       rewrite bind_eq, bind_eq, trans_accept_cons, Ha. cbn [res srv rest out].
       rewrite <- (app_nil_r (seen _ _)). by rewrite serial_seen_accept. }
  rewrite (TSimpleServer_serve_loop_accepted n s a c rs) by done.
  unfold prepend. cbn [out]. rewrite serial_seen_accept, bind_eq.
  pose proof (pump_never_accepts Simple c (answered a s) rs) as Hp.
  pose proof (pump_done_last Simple c (answered a s) rs) as Hl.
  simpl pump in Hp, Hl.
  destruct (res (TSimpleServer_pump c (answered a s) rs)) as [[]| |];
    cbn [out prepend]; try by apply serial_no_accept.
  rewrite serial_app, serial_no_accept by done. simpl andb.
  apply IH. intros Hc'. destruct (Hl eq_refl Hc') as [pre ->].
  by rewrite ready_after_snoc.
Qed.

(** [TSimpleServer.serve] serves one connection at a time: in every
    run, each [accept()] comes directly after the [listen()] or directly
    after the close of the output transport of the connection before,
    so a connection is accepted only when the one before it has been
    served and closed. *)
Theorem simple_server_serves_in_turn s rs :
  serial false (out (TSimpleServer_serve s rs)) = true.
Proof.
  unfold TSimpleServer_serve. rewrite bind_eq.
  destruct rs as [|l rs]; [reflexivity|].
  rewrite trans_listen_cons.
  destruct (outcome_of l); cbn [res srv rest out prepend].
  - unfold enough_fuel. rewrite serial_app. apply andb_true_iff. split.
    + unfold seen. by destruct (close_during l).
    + apply serial_TSimpleServer_serve_loop.
      unfold seen, answered. by destruct (close_during l).
  - unfold seen. by destruct (close_during l).
Qed.

(** ** The configuration at work *)

Lemma Forall_seen (P : event -> Prop) ev r :
  P ev -> P CloseCalled -> Forall P (seen ev r).
Proof. intros. unfold seen. destruct (close_during r); by repeat constructor. Qed.

Lemma Forall_repeated (P : event -> Prop) ev rs :
  P ev -> P CloseCalled -> Forall P (repeated ev rs).
Proof.
  intros. induction rs as [|r rs IH]; simpl; [constructor|].
  apply Forall_app. split; [by apply Forall_seen|done].
Qed.

Lemma Forall_close_both (P : event -> Prop) c s rs :
  P (Close (Input, c)) -> P (Close (Output, c)) -> P CloseCalled ->
  Forall P (out (close_both c s rs)).
Proof.
  intros Hi Ho Hm. rewrite close_both_spec.
  destruct rs as [|c1 [|c2 t2]]; simpl.
  - by repeat constructor.
  - destruct (outcome_of c1); simpl; [|by apply Forall_seen].
    apply Forall_app. split; [by apply Forall_seen|by repeat constructor].
  - destruct (outcome_of c1); simpl; [|by apply Forall_seen].
    apply Forall_app. split; by apply Forall_seen.
Qed.

Lemma pump_unwrapped_configured v c s rs :
  (forall w1 w2 w3 w4 tl, rs = w1 :: w2 :: w3 :: w4 :: tl ->
     forallb returns [w1; w2; w3; w4] = false) ->
  Forall (configured s c) (out (pump v c s rs)).
Proof.
  intros H.
  destruct rs as [|[[x1|x1] b1] [|[[x2|x2] b2] [|[[x3|x3] b3] [|[[x4|x4] b4] tl]]]];
    try (specialize (H _ _ _ _ _ eq_refl); discriminate H);
    clear H; destruct v;
    repeat match goal with b : bool |- _ => destruct b end;
    repeat constructor.
Qed.

(** A pump works with the configuration of its server and on its own
    client only: the input wrappers are made by [itrans_factory] and
    [iprot_factory], the output wrappers by [otrans_factory] and
    [oprot_factory], every request goes to [self.processor] with the two
    protocols of this client, and nothing but the two transports of
    this client is closed. *)
Theorem pump_uses_configuration v c s rs :
  Forall (configured s c) (out (pump v c s rs)).
Proof.
  assert (Hcase : (exists w1 w2 w3 w4 tl, rs = w1 :: w2 :: w3 :: w4 :: tl /\
                      forallb returns [w1; w2; w3; w4] = true) \/
                  (forall w1 w2 w3 w4 tl, rs = w1 :: w2 :: w3 :: w4 :: tl ->
                     forallb returns [w1; w2; w3; w4] = false)).
  { destruct rs as [|w1 [|w2 [|w3 [|w4 tl]]]]; try (right; discriminate).
    destruct (forallb returns [w1; w2; w3; w4]) eqn:E.
    - left. by exists w1, w2, w3, w4, tl.
    - right. intros ? ? ? ? ? [= <- <- <- <- <-]. exact E. }
  destruct Hcase as [(w1 & w2 & w3 & w4 & tl & -> & Hw)|Hn].
  2: { by apply pump_unwrapped_configured. }
  simpl in Hw. rewrite andb_true_r in Hw.
  apply andb_true_iff in Hw as [H1 Hw].
  apply andb_true_iff in Hw as [H2 Hw].
  apply andb_true_iff in Hw as [H3 H4].
  rewrite pump_spec by done. cbv zeta.
  set (s4 := after [w1; w2; w3; w4] s).
  set (ne := pump_exit _ _ _).
  unfold prepend. cbn [out]. rewrite !Forall_app. split_and!.
  - unfold wrap_events. rewrite !Forall_app.
    split_and!; by apply Forall_seen.
  - by apply Forall_repeated.
  - by destruct (snd ne); repeat constructor.
  - destruct (normal_end (snd ne)); [|constructor].
    by apply Forall_close_both.
Qed.
